(** * ReLM multi-task trainer ([run_multi.py]): a shallow embedding

    The definitions follow the layout of [run_multi.py]:

    - [Noise]      [mask_tokens], the masked-fine-tuning noise injector
                   (lines 25-49), over a store of tensors;
    - [Retention]  the ranked pool of the three best checkpoints
                   (lines 434-441 of [main]);
    - [Driver]     [main]: start-up checks, feature conversion, the
                   training loop with gradient accumulation, the evaluation
                   rounds and the final test, as a computation that logs
                   what it does and may end in an exception;
    - [Samples]    a tokenizer, a batch and a small run to evaluate on;
    - [NoiseSpec], [RetentionSpec], [DriverSpec]
                   what a call of [mask_tokens] selects, what the pool
                   removes and what a run does, in closed form;
    - [Decoding]   the decoding of the batches of an evaluation
                   (lines 354-388 and 506-545);
    - [Params]     the parameter groups of the optimizer and the freezing
                   of the language model (lines 218-243).

    The facts about each part follow, in the same order.

    Python floats that are only compared or passed on (F1 scores, the
    masking rate, the number of epochs) are rationals; [nan] and the
    infinities are not represented.  Where the program rounds, the
    definitions say how: the masking rate is stored in single precision
    ([Noise.is_probability]), the divisions and the product of the
    schedule go through a double ([Driver.ceil_div],
    [Driver.int_of_product]).  Integers are [Z]. *)

From Stdlib Require Import QArith Qround.
From stdpp Require Import gmap strings list sorting pretty.

#[local] Set Warnings "-clear-no-such-hyp".

Local Open Scope string_scope.
Local Open Scope Z_scope.
Local Open Scope list_scope.

(** ** Exceptions of the Python program *)

Inductive exn :=
| ZeroDivisionError
| ValueError (msg : string)
| KeyError (key : string)
| IndexError
| AssertionError
| FileNotFoundError (path : string)
| RuntimeError (msg : string)
| OSError (msg : string)
| OverflowError
| TypeError (msg : string).

(** The outcome of a call: a value, or the exception that ended it. *)
Inductive res (A : Type) :=
| Ok (a : A)
| Err (e : exn).
Arguments Ok {A} a.
Arguments Err {A} e.

(** * The noise injector *)

Module Noise.

(** What [mask_tokens] asks of the tokenizer:
    [tokenizer.get_special_tokens_mask(val, already_has_special_tokens=True)]
    marks, position by position, the tokens of [val] that are among the
    tokenizer's special ids, and
    [tokenizer.convert_tokens_to_ids(tokenizer.mask_token)] is the id of the
    mask token. *)
Class Tokenizer := {
  all_special_ids : list Z;
  mask_token_id : Z
}.

Definition get_special_tokens_mask `{Tokenizer} (val : list Z) : list bool :=
  (λ t, bool_decide (t ∈ all_special_ids)) <$> val.

(** Tensors live in a store and are passed by reference, so that a call
    can be asked what it did to the tensors of its caller.  The batch of
    the training loop has [input_ids] and [label_ids] of shape
    (batch, seq) and [task_id] of shape (batch): these are the shapes
    modelled; other shapes, which torch would broadcast or refuse, are
    refused.  A tensor of shape (batch, seq) is the list of its rows: the
    list without a row is the tensor of shape (0, 0).  A tensor that has
    a width but no row, of shape (0, seq) with seq > 0, is not among the
    lists of rows; no loader yields a batch without a row. *)
Definition loc := nat.

Inductive tensor :=
| Long2 (rows : list (list Z))
| Long1 (v : list Z).

Abbreviation store := (gmap loc tensor).

Abbreviation matrix A := (list (list A)).

Definition shape {A} (m : matrix A) : list nat := length <$> m.

(** [m[i][j]] *)
Definition at2 {A} (m : matrix A) (i j : nat) : option A :=
  m !! i ≫= (.!! j).

(** [torch.full(inputs.shape, v)] *)
Definition full {A B} (m : matrix A) (v : B) : matrix B :=
  (λ row : list A, (λ _, v) <$> row) <$> m.

(** [task_ids.unsqueeze(dim=-1).expand(inputs_shape)] *)
Definition expand {A} (task_ids : list Z) (m : matrix A) : matrix Z :=
  zip_with (λ t (row : list A), (λ _, t) <$> row) task_ids m.

(** [m.masked_fill_(mask, value)] *)
Definition masked_fill {A} (m : matrix A) (mask : matrix bool) (value : A)
  : matrix A :=
  zip_with (zip_with (λ x (b : bool), if b then value else x)) m mask.

(** Elementwise [a != b] and [a == b] on integer tensors. *)
Definition ne (a b : matrix Z) : matrix bool :=
  zip_with (zip_with (λ x y, negb (x =? y))) a b.

Definition eq (a b : matrix Z) : matrix bool :=
  zip_with (zip_with (λ x y, x =? y)) a b.

(** [torch.full(inputs.shape, noise_probability)] stores the rate in
    single precision, and refuses a rate beyond the largest value of the
    single precision, (2 - 2**-23) x 2**127. *)
Definition single_max : Q := inject_Z ((2 ^ 24 - 1) * 2 ^ 104).

Definition fits_single (p : Q) : bool :=
  Qle_bool (- single_max) p && Qle_bool p single_max.

(** [torch.bernoulli] tests the stored value against [0, 1].  Rounding is
    to the nearest value, ties to even: the rates stored as a value of
    [0, 1] are those from [-2**-150] to [1 + 2**-24], half a step of the
    single precision beyond either bound. *)
Definition rate_min : Q := - (1 # 2 ^ 150).
Definition rate_max : Q := 1 + (1 # 2 ^ 24).

Definition is_probability (p : Q) : bool :=
  Qle_bool rate_min p && Qle_bool p rate_max.

(** [torch.bernoulli(p)] draws 1 with probability [p]: never when [p] is
    0, always when [p] is 1, and otherwise as the random source decides;
    [coin i j] is what the source decides at position (i, j).  Entries
    that [is_probability] refuses end the call with the error that the
    check of the CPU kernel raises. *)

Definition draw (p : Q) (c : bool) : bool :=
  if Qle_bool p 0 then false else if Qle_bool 1 p then true else c.

Definition bernoulli (pm : matrix Q) (coin : nat → nat → bool)
  : res (matrix bool) :=
  if forallb (forallb is_probability) pm
  then Ok (imap (λ i row, imap (λ j p, draw p (coin i j)) row) pm)
  else Err (RuntimeError "Expected p_in >= 0 && p_in <= 1").

(** The value of [masked_indices] (lines 28-46), from the contents of the
    three tensors.  The rate is stored first, at line 28. *)
Definition masked_indices `{Tokenizer} (inputs targets : matrix Z)
    (task_ids : list Z) (mask_mode : string) (noise_probability : Q)
    (coin : nat → nat → bool) : res (matrix bool) :=
  if fits_single noise_probability then
    let probability_matrix := full inputs noise_probability in
    let csc_task_matrix := full inputs 1 in
    if bool_decide (length task_ids = length inputs) then
      let task_ids_expand := expand task_ids inputs in
      let probability_matrix :=
        masked_fill probability_matrix (ne task_ids_expand csc_task_matrix)
          0%Q in
      let special_tokens_mask := get_special_tokens_mask <$> inputs in
      let probability_matrix :=
        masked_fill probability_matrix special_tokens_mask 0%Q in
      let filtered : res (matrix Q) :=
        if String.eqb mask_mode "noerror" then
          if bool_decide (shape targets = shape inputs)
          then Ok (masked_fill probability_matrix (ne inputs targets) 0%Q)
          else Err (RuntimeError "size mismatch")
        else if String.eqb mask_mode "error" then
          if bool_decide (shape targets = shape inputs)
          then Ok (masked_fill probability_matrix (eq inputs targets) 0%Q)
          else Err (RuntimeError "size mismatch")
        else if String.eqb mask_mode "all" then Ok probability_matrix
        else Err AssertionError in
      match filtered with
      | Ok probability_matrix => bernoulli probability_matrix coin
      | Err e => Err e
      end
    else Err (RuntimeError "expanded size mismatch")
  else Err (RuntimeError
              "value cannot be converted to type float without overflow").

(** [inputs[masked_indices] = value] *)
Definition index_put (inputs : matrix Z) (mask : matrix bool) (value : Z)
  : matrix Z :=
  masked_fill inputs mask value.

(** [mask_tokens] (lines 25-49).  [inputs], [targets] and [task_ids] are
    references into the store [h]; [inputs = inputs.clone()] allocates a
    new tensor, which is the one written to and returned.  The call gives
    back the store as it leaves it, also when it raises.  The probability
    matrix and the masks are temporaries of the call. *)
Definition mask_tokens `{Tokenizer} (h : store) (inputs targets task_ids : loc)
    (mask_mode : string) (noise_probability : Q) (coin : nat → nat → bool)
  : res loc * store :=
  match h !! inputs, h !! targets, h !! task_ids with
  | Some (Long2 x), Some (Long2 y), Some (Long1 t) =>
      let clone := fresh (dom h) in
      let h := <[clone := Long2 x]> h in
      match masked_indices x y t mask_mode noise_probability coin with
      | Ok m => (Ok clone, <[clone := Long2 (index_put x m mask_token_id)]> h)
      | Err e => (Err e, h)
      end
  | _, _, _ => (Err (RuntimeError "not a tensor of the modelled shape"), h)
  end.

End Noise.

(** * Checkpoint retention *)

Module Retention.

(** One entry of [best_result]: [(result["eval_f1"], output_model_file)]. *)
Definition entry : Type := Q * string.

(** The list [best_result] and the checkpoint files present in
    [args.output_dir]. *)
Record pool := Pool {
  best_result : list entry;
  files : gset string
}.

(** [best_result = list()] (line 292). *)
Definition empty_pool (fs : gset string) : pool :=
  {| best_result := []; files := fs |}.

(** [best_result.sort(key=lambda x: x[0], reverse=True)]: Python's sort is
    stable, and with [reverse=True] entries of equal key keep their
    original order.  [place e l] puts [e] in front of the first entry whose
    key is not greater; folding it from the right is a stable sort. *)
Fixpoint place (e : entry) (l : list entry) : list entry :=
  match l with
  | [] => [e]
  | y :: l' => if Qle_bool (fst y) (fst e) then e :: y :: l'
               else y :: place e l'
  end.

Definition sort_by_f1 (l : list entry) : list entry := foldr place [] l.

(** [best_result.pop()]: the list without its last entry, and that entry. *)
Definition pop (l : list entry) : option (list entry * entry) :=
  match reverse l with
  | [] => None
  | e :: r => Some (reverse r, e)
  end.

(** What one evaluation round does to the pool (lines 435-441):
<<
    torch.save(model_to_save.state_dict(), output_model_file)
    best_result.append((result["eval_f1"], output_model_file))
    best_result.sort(key=lambda x: x[0], reverse=True)
    if len(best_result) > 3:
        _, model_to_remove = best_result.pop()
        os.remove(model_to_remove)
>>
    The result is the pool as the round leaves it, together with the entry
    popped (if any) and the exception [os.remove] raised (if any):
    [os.remove] raises [FileNotFoundError] when the file is not there. *)
Record round_result := Round {
  after : pool;
  evicted : option entry;
  raised : option exn
}.

Definition retain (f1 : Q) (output_model_file : string) (p : pool)
  : round_result :=
  let fs := {[ output_model_file ]} ∪ files p in
  let l := sort_by_f1 (best_result p ++ [(f1, output_model_file)]) in
  if (3 <? length l)%nat then
    match pop l with
    | Some (l', (f, model_to_remove)) =>
        if decide (model_to_remove ∈ fs) then
          Round {| best_result := l'; files := fs ∖ {[ model_to_remove ]} |}
                (Some (f, model_to_remove)) None
        else
          Round {| best_result := l'; files := fs |}
                (Some (f, model_to_remove))
                (Some (FileNotFoundError model_to_remove))
    | None => Round {| best_result := l; files := fs |} None (Some IndexError)
    end
  else Round {| best_result := l; files := fs |} None None.

(** A run of evaluation rounds, as the list of what each round did; an
    exception ends the program, so the rounds after it are not executed. *)
Fixpoint run_rounds (rounds : list entry) (p : pool) : list round_result :=
  match rounds with
  | [] => []
  | (f1, path) :: rest =>
      let r := retain f1 path p in
      r :: match raised r with
           | Some _ => []
           | None => run_rounds rest (after r)
           end
  end.

(** The pool a run ends with. *)
Definition final_pool (rounds : list entry) (p : pool) : pool :=
  match last (run_rounds rounds p) with
  | Some r => after r
  | None => p
  end.

(** The pool is ranked: F1 descending. *)
Definition ranked (l : list entry) : Prop :=
  Sorted (fun a b => (fst b <= fst a)%Q) l.

End Retention.

(** * The driver, [main] *)

Module Driver.
Import Retention.

(** ** Tasks and their processors (lines 127-136) *)

Inductive processor :=
| SighanProcessor
| EcspellProcessor
| TnewsProcessor
| AfqmcProcessor.

Definition processors_all : gmap string processor :=
  list_to_map [("sighan", SighanProcessor); ("ecspell", EcspellProcessor);
               ("sghspell", SighanProcessor); ("tnews", TnewsProcessor);
               ("afqmc", AfqmcProcessor)].

Inductive family := CSC | SEQ.

Definition task_class (fam : family) : list string :=
  match fam with
  | CSC => ["sighan"; "ecspell"; "sghspell"]
  | SEQ => ["tnews"; "afqmc"]
  end.

(** ** The parsed command line

    [task_names] and [train_on_list] are the lists
    [args.task_name.lower().split()] and [args.train_on.lower().split()]
    of lines 157-158.  Options that only reach the model, the optimizer or
    the tokenizer are left out. *)
Record Args := {
  data_dir : string;
  task_names : list string;
  train_on_list : list string;
  output_dir : string;
  do_train : bool;
  do_eval : bool;
  do_test : bool;
  eval_on : string;
  test_on : string;
  max_seq_length : Z;
  train_batch_size : Z;
  eval_batch_size : Z;
  num_train_epochs : Q;
  max_train_steps : option Z;
  gradient_accumulation_steps : Z;
  seed : Z;
  save_steps : Z;
  mft : bool;
  mask_mode : string;
  mask_rate : Q;
  print_para_names : bool
}.

(** A batch of the training loader: its tensors and where they are. *)
Record batch := {
  tensors : gmap Noise.loc Noise.tensor;
  input_ids : Noise.loc;
  label_ids : Noise.loc;
  task_id : Noise.loc
}.

(** ** What [main] calls and does not define

    The readers and converters of [multiTask.MultiTaskDataset],
    [os.path.join], the F1 that [Metrics] reports for the evaluation round
    run at a micro-batch (it depends on the weights of the model at that
    moment), and the name of the checkpoint file of a round,
    [os.path.join(args.output_dir, "step-%s_f1-%.2f.bin" % (...))].  With
    them come the tokenizer, the batch that the random sampler hands out at
    a micro-batch, and the draws of [torch.bernoulli] there.  The
    tokenizer and the model are taken as loaded: what
    [from_pretrained] and [load_state_dict] do at lines 171, 209-216 and
    494-501 is not part of a run.

    The file system is one of them too: [path_exists] is
    [os.path.exists], and [makedirs] and [save_args] say how
    [os.makedirs(args.output_dir)] and
    [torch.save(args, .../train_args.bin)] end on it: well, or with an
    [OSError].

    So is the arithmetic of doubles where it is not exact:
    [double_ceil_div a b] is [math.ceil(a / b)] and
    [double_int_product x n] is [int(x * n)] as Python computes them
    through a double, [None] when that raises [OverflowError].  They are
    asked only for operands beyond the exact range, see [ceil_div] and
    [int_of_product]. *)

(** The [OSError] that a call on the file system ends with:
    [FileNotFoundError], or another of its kind. *)
Inductive os_error :=
| NoSuchFile (path : string)
| Refused (msg : string).

Definition os_exn (e : os_error) : exn :=
  match e with
  | NoSuchFile path => FileNotFoundError path
  | Refused msg => OSError msg
  end.

Class Collaborators := {
  tokenizer : Noise.Tokenizer;
  train_batch : nat → nat → batch;
  coin : nat → nat → nat → nat → bool;
  InputExample : Type;
  InputFeatures : Type;
  get_train_examples : processor → string → string → list InputExample;
  get_test_examples : processor → string → string → list InputExample;
  get_label_list : list InputExample → list string;
  csc_convert_examples_to_features :
    list InputExample → Z → list InputFeatures;
  seq_convert_examples_to_features :
    list InputExample → list string → Z → list InputFeatures;
  path_join : string → string → string;
  eval_f1 : nat → nat → Q;
  output_model_file : string → Z → Q → string;
  path_exists : string → bool;
  makedirs : string → option os_error;
  save_args : string → option os_error;
  double_ceil_div : Z → Z → option Z;
  double_int_product : Q → Z → option Z
}.

(** ** What a run does, in order

    The log holds what a run saves, reads, converts, computes and writes.
    Seeding the random generators and creating the output directory leave
    no entry. *)

Inductive phase := Train | Eval | Test.

Inductive event `{Collaborators} :=
| SaveArgs
| GetTrainExamples (task_name : string) (p : processor) (dir split : string)
| GetTestExamples (ph : phase) (task_name : string) (p : processor)
                  (dir split : string)
| CscConvert (ph : phase) (task_name : string) (examples : list InputExample)
| SeqConvert (ph : phase) (task_name : string) (examples : list InputExample)
             (label_list : list string)
| MaskTokens (epoch step : nat)
| Backward (epoch step : nat) (global_step : Z)
| OptimizerStep (epoch step : nat) (global_step : Z)
| Decode (ph : phase) (task_name : string) (fam : family)
| SaveCheckpoint (path : string)
| RemoveCheckpoint (path : string)
| WriteResults (ph : phase) (task_name : string) (fam : family).

(** A computation gives the events it performed and either a value or the
    exception that ended it. *)
Definition M `{Collaborators} (A : Type) : Type := list event * res A.

Definition ret `{Collaborators} {A} (a : A) : M A := ([], Ok a).

Definition bind `{Collaborators} {A B} (m : M A) (f : A → M B) : M B :=
  match m with
  | (l, Ok a) => let '(l', r) := f a in (l ++ l', r)
  | (l, Err e) => (l, Err e)
  end.

Definition emit `{Collaborators} (ev : event) : M unit := ([ev], Ok tt).

Definition raise `{Collaborators} {A} (e : exn) : M A := ([], Err e).

#[global] Instance M_ret `{Collaborators} : MRet M := @ret _.
#[global] Instance M_bind `{Collaborators} : MBind M := λ A B f m, bind m f.

Section WithCollaborators.
Context `{Collaborators}.

(** ** Python arithmetic *)

(** [a // b] and [a % b] on integers: floor division, and a remainder
    with the sign of the divisor, as [Z.div] and [Z.modulo]; both raise on
    a zero divisor. *)
Definition floordiv (a b : Z) : M Z :=
  if b =? 0 then raise ZeroDivisionError else ret (a `div` b).

Definition py_mod (a b : Z) : M Z :=
  if b =? 0 then raise ZeroDivisionError else ret (a `mod` b).

(** [int(x)] on a float truncates towards zero. *)
Definition py_int (x : Q) : Z :=
  if Qle_bool 0 x then Qfloor x else Qceiling x.

(** The integers below 2**53 in absolute value: a double holds each of
    them. *)
Definition small (z : Z) : bool := Z.abs z <? 2 ^ 53.

(** The rationals m / 2**j with |m| < 2**53 and j <= 1074: each of them is
    a double. *)
Definition is_double (x : Q) : bool :=
  let y := Qred x in
  (Z.abs (Qnum y) <? 2 ^ 53)
  && (Z.pos (Qden y) =? 2 ^ Z.log2 (Z.pos (Qden y)))
  && (Z.log2 (Z.pos (Qden y)) <=? 1074).

(** [math.ceil(a / b)] on integers.  [a / b] is the double nearest to the
    quotient.  When both integers are below 2**53 in absolute value, no
    integer lies between the quotient and that double, which is an integer
    only if the quotient is: its ceiling is the ceiling of the quotient.
    Beyond that range the result is the one of the double arithmetic. *)
Definition ceil_div (a b : Z) : M Z :=
  if b =? 0 then raise ZeroDivisionError
  else if small a && small b then ret (Qceiling (inject_Z a / inject_Z b))
  else match double_ceil_div a b with
       | Some c => ret c
       | None => raise OverflowError
       end.

(** [int(x * n)] for a float [x] and an integer [n].  When [x] is a
    double, [n] is below 2**53 in absolute value and the product is a
    double, the multiplication is exact; otherwise the result is the one of
    the double arithmetic. *)
Definition int_of_product (x : Q) (n : Z) : M Z :=
  if is_double x && small n && is_double (x * inject_Z n)
  then ret (py_int (x * inject_Z n))
  else match double_int_product x n with
       | Some z => ret z
       | None => raise OverflowError
       end.

(** ** Dictionaries that are iterated over, in insertion order *)

Fixpoint dict_set {V} (k : string) (v : V) (d : list (string * V))
  : list (string * V) :=
  match d with
  | [] => [(k, v)]
  | (k', v') :: d' =>
      if decide (k' = k) then (k, v) :: d' else (k', v') :: dict_set k v d'
  end.

Fixpoint dict_get {V} (k : string) (d : list (string * V)) : option V :=
  match d with
  | [] => None
  | (k', v) :: d' => if decide (k' = k) then Some v else dict_get k d'
  end.

(** ** Start-up (lines 143-168) *)

(** Lines 145-149: [random.seed], [np.random.seed], [torch.manual_seed] and
    [torch.cuda.manual_seed_all] on [args.seed].  Of these,
    [np.random.seed] refuses a seed outside [0, 2**32 - 1]; the others take
    every seed that it takes. *)
Definition seed_everything (seed : Z) : M unit :=
  if (0 <=? seed) && (seed <? 2 ^ 32) then ret tt
  else raise (ValueError "Seed must be between 0 and 2**32 - 1").

(** Lines 151-152:
<<
    if not os.path.exists(args.output_dir):
        os.makedirs(args.output_dir)
>> *)
Definition make_output_dir (a : Args) : M unit :=
  if path_exists (output_dir a) then ret tt
  else match makedirs (output_dir a) with
       | None => ret tt
       | Some e => raise (os_exn e)
       end.

(** Lines 154-155:
<<
    if args.do_train:
        torch.save(args, os.path.join(args.output_dir, "train_args.bin"))
>> *)
Definition save_train_args (a : Args) : M unit :=
  if do_train a then
    match save_args (path_join (output_dir a) "train_args.bin") with
    | None => emit SaveArgs
    | Some e => raise (os_exn e)
    end
  else ret tt.

(** Lines 159-161. *)
Fixpoint check_task_names (names : list string) : M unit :=
  match names with
  | [] => ret tt
  | task_name :: rest =>
      if decide (processors_all !! task_name = None)
      then raise (ValueError ("Task not found: " +:+ task_name))
      else check_task_names rest
  end.

(** Lines 163-166: [processors[task_name] = processors_all[task_name]()]. *)
Fixpoint build_processors (names : list string)
    (processors : list (string * processor)) : M (list (string * processor)) :=
  match names with
  | [] => ret processors
  | task_name :: rest =>
      match processors_all !! task_name with
      | Some p => build_processors rest (dict_set task_name p processors)
      | None => raise (KeyError task_name)
      end
  end.

(** Lines 167-168: [train_on_dataset[task_name] = train_on] over
    [zip(train_on_list, task_names)]. *)
Definition build_train_on (train_on_list names : list string)
  : gmap string string :=
  foldl (λ d '(train_on, task_name), <[task_name := train_on]> d) ∅
        (zip train_on_list names).

(** [task_name in task_class["csc"]], else
    [assert(task_name in task_class["seq"])]. *)
Definition route (task_name : string) : M family :=
  if decide (task_name ∈ task_class CSC) then ret CSC
  else if decide (task_name ∈ task_class SEQ) then ret SEQ
  else raise AssertionError.

(** The batches that a loader of batch size [batch_size] makes of [n]
    features, each by the number of its features: full batches, and one
    of the features that remain. *)
Definition batch_sizes (n batch_size : nat) : list nat :=
  replicate (n / batch_size)%nat batch_size
  ++ (if (n mod batch_size =? 0)%nat then [] else [(n mod batch_size)%nat]).

(** [RandomSampler(data)] and
    [DataLoader(data, sampler=..., batch_size=batch_size)] over [n]
    features: the batches of the loader, whose [len] is their number.  The
    sampler refuses a data set with no feature, the loader a batch size
    that is not positive. *)
Definition DataLoader (n : nat) (batch_size : Z) : M (list nat) :=
  if (n =? 0)%nat
  then raise (ValueError
                "num_samples should be a positive integer value, but got num_samples=0")
  else if batch_size <=? 0
  then raise (ValueError "batch_size should be a positive integer value")
  else ret (batch_sizes n (Z.to_nat batch_size)).

(** ** Feature conversion *)

(** Lines 182-188, 265-270 and 474-479: the features of the examples of
    one task.  For a SEQ task the label list is the one that
    [InputExample.get_label_list] gives for the examples at hand. *)
Definition convert (ph : phase) (a : Args) (task_name : string)
    (examples : list InputExample) : M (list InputFeatures) :=
  fam ← route task_name;
  match fam with
  | CSC =>
      emit (CscConvert ph task_name examples);;
      ret (csc_convert_examples_to_features examples (max_seq_length a))
  | SEQ =>
      let label_list := get_label_list examples in
      emit (SeqConvert ph task_name examples label_list);;
      ret (seq_convert_examples_to_features examples label_list
             (max_seq_length a))
  end.

(** Lines 177-188: the training features of all tasks. *)
Fixpoint load_train (a : Args) (processors : list (string * processor))
    (train_on_dataset : gmap string string) : M (list InputFeatures) :=
  match processors with
  | [] => ret []
  | (task_name, processor) :: rest =>
      let dir := path_join (data_dir a) task_name in
      match train_on_dataset !! task_name with
      | None => raise (KeyError task_name)
      | Some train_on =>
          emit (GetTrainExamples task_name processor dir train_on);;
          let train_examples_ := get_train_examples processor dir train_on in
          features ← convert Train a task_name train_examples_;
          more ← load_train a rest train_on_dataset;
          ret (features ++ more)
      end
  end.

(** Lines 261-283 and 471-492: the set evaluated on, of the first task. *)
Record eval_set := {
  eval_task : string;
  eval_dataloader : list nat
}.

Definition load_eval (ph : phase) (a : Args)
    (processors : list (string * processor)) (split : string) : M eval_set :=
  match task_names a with
  | [] => raise IndexError
  | task_name :: _ =>
      match dict_get task_name processors with
      | None => raise (KeyError task_name)
      | Some processor =>
          let dir := path_join (data_dir a) task_name in
          emit (GetTestExamples ph task_name processor dir split);;
          let eval_examples := get_test_examples processor dir split in
          eval_features ← convert ph a task_name eval_examples;
          eval_dataloader ←
            DataLoader (length eval_features) (eval_batch_size a);
          ret {| eval_task := task_name;
                 eval_dataloader := eval_dataloader |}
      end
  end.

(** Lines 361-388 and 514-545: the batches of the evaluation set, each
    decoded the way the family of [task_name] asks.  On a batch of one
    example of a SEQ task, [squeeze().tolist()] is a number and not a
    list, and [all_predictions.extend] raises (lines 386 and 543). *)
Fixpoint eval_loop (ph : phase) (task_name : string) (batches : list nat)
  : M unit :=
  match batches with
  | [] => ret tt
  | size :: rest =>
      fam ← route task_name;
      emit (Decode ph task_name fam);;
      (match fam with
       | CSC => ret tt
       | SEQ => if (size =? 1)%nat
                then raise (TypeError "'int' object is not iterable")
                else ret tt
       end);;
      eval_loop ph task_name rest
  end.

(** ** The training loop (lines 291-469) *)

Record loop_state := {
  global_step : Z;
  best : pool
}.

(** Lines 350-465: one evaluation round, run at micro-batch
    [(epoch, step)].  [loss = train_loss / global_step] and
    [eval_loss = eval_loss / eval_steps] raise on a zero divisor. *)
Definition eval_round (a : Args) (ev : eval_set) (epoch step : nat)
    (st : loop_state) : M loop_state :=
  eval_loop Eval (eval_task ev) (eval_dataloader ev);;
  (if global_step st =? 0 then raise ZeroDivisionError else ret tt);;
  (if (length (eval_dataloader ev) =? 0)%nat
   then raise ZeroDivisionError else ret tt);;
  fam ← route (eval_task ev);
  let f1 := eval_f1 epoch step in
  let file := output_model_file (output_dir a) (global_step st) f1 in
  let r := retain f1 file (best st) in
  emit (SaveCheckpoint file);;
  match evicted r with
  | Some (_, model_to_remove) => emit (RemoveCheckpoint model_to_remove)
  | None => ret tt
  end;;
  match raised r with
  | Some e => raise e
  | None => ret tt
  end;;
  emit (WriteResults Eval (eval_task ev) fam);;
  ret {| global_step := global_step st; best := after r |}.

(** Lines 308-309: [if args.mft: input_ids = mask_tokens(...)] on the
    batch of the micro-batch; an exception of [mask_tokens] ends the run. *)
Definition noise (a : Args) (epoch step : nat) : M unit :=
  if mft a then
    let b := train_batch epoch step in
    match (@Noise.mask_tokens tokenizer (tensors b) (input_ids b)
             (label_ids b) (task_id b) (mask_mode a) (mask_rate a)
             (coin epoch step)).1 with
    | Ok _ => emit (MaskTokens epoch step)
    | Err e => raise e
    end
  else ret tt.

(** Lines 300-469: one micro-batch.  [ev] is the evaluation set when
    [args.do_eval] is set.  The result says whether the loop is left
    ([wrap = True; break]). *)
Definition micro_batch (a : Args) (len : nat) (max_steps : Z)
    (ev : option eval_set) (epoch step : nat) (st : loop_state)
  : M (loop_state * bool) :=
  noise a epoch step;;
  emit (Backward epoch step (global_step st));;
  r ← py_mod (Z.of_nat step + 1) (gradient_accumulation_steps a);
  st ← (if (r =? 0) || (Z.of_nat step =? Z.of_nat len - 1) then
          emit (OptimizerStep epoch step (global_step st + 1));;
          ret {| global_step := global_step st + 1; best := best st |}
        else ret st);
  st ← match ev with
       | Some ev =>
           r ← py_mod (global_step st) (save_steps a);
           if r =? 0 then eval_round a ev epoch step st else ret st
       | None => ret st
       end;
  ret (st, max_steps <=? global_step st).

(** [for step, batch in enumerate(train_dataloader)] *)
Fixpoint batch_loop (a : Args) (len : nat) (max_steps : Z)
    (ev : option eval_set) (epoch : nat) (steps : list nat) (st : loop_state)
  : M (loop_state * bool) :=
  match steps with
  | [] => ret (st, false)
  | step :: rest =>
      '(st, wrap) ← micro_batch a len max_steps ev epoch step st;
      if wrap : bool then ret (st, true)
      else batch_loop a len max_steps ev epoch rest st
  end.

(** [for _ in range(int(args.num_train_epochs))], with [if wrap: break]
    at the head of its body. *)
Fixpoint epoch_loop (a : Args) (len : nat) (max_steps : Z)
    (ev : option eval_set) (epochs : list nat) (wrap : bool) (st : loop_state)
  : M loop_state :=
  match epochs with
  | [] => ret st
  | epoch :: rest =>
      if wrap then ret st
      else
        '(st, wrap) ← batch_loop a len max_steps ev epoch (seq 0 len) st;
        epoch_loop a len max_steps ev rest wrap st
  end.

(** Lines 291-469, from [global_step = 0] and [best_result = list()];
    [fs] are the files in the output directory. *)
Definition train (a : Args) (len : nat) (max_steps : Z) (epochs : Z)
    (ev : option eval_set) (fs : gset string) : M loop_state :=
  epoch_loop a len max_steps ev (seq 0 (Z.to_nat epochs)) false
    {| global_step := 0; best := empty_pool fs |}.

(** ** The run as a whole *)

(** Lines 203-207: the step budget and the number of epochs. *)
Definition schedule (a : Args) (len : nat) : M (Z * Z) :=
  num_update_steps_per_epoch ←
    ceil_div (Z.of_nat len) (gradient_accumulation_steps a);
  match max_train_steps a with
  | None =>
      max_steps ←
        int_of_product (num_train_epochs a) num_update_steps_per_epoch;
      ret (max_steps, py_int (num_train_epochs a))
  | Some max_steps =>
      epochs ← ceil_div max_steps num_update_steps_per_epoch;
      ret (max_steps, epochs)
  end.

(** Lines 470-608: the final test. *)
Definition test (a : Args) (processors : list (string * processor)) : M unit :=
  ev ← load_eval Test a processors (test_on a);
  eval_loop Test (eval_task ev) (eval_dataloader ev);;
  (if (length (eval_dataloader ev) =? 0)%nat
   then raise ZeroDivisionError else ret tt);;
  fam ← route (eval_task ev);
  emit (WriteResults Test (eval_task ev) fam).

(** [main] (lines 51-608); [fs] are the files in the output directory
    when the run starts. *)
Definition main (a : Args) (fs : gset string) : M unit :=
  batch_size ←
    floordiv (train_batch_size a) (gradient_accumulation_steps a);
  seed_everything (seed a);;
  make_output_dir a;;
  save_train_args a;;
  check_task_names (task_names a);;
  processors ← build_processors (task_names a) [];
  let train_on_dataset := build_train_on (train_on_list a) (task_names a) in
  trained ←
    (if do_train a then
       train_features ← load_train a processors train_on_dataset;
       train_dataloader ← DataLoader (length train_features) batch_size;
       let len := length train_dataloader in
       '(max_steps, epochs) ← schedule a len;
       if print_para_names a then ret false
       else
         ev ← (if do_eval a
               then ev ← load_eval Eval a processors (eval_on a);
                    ret (Some ev)
               else ret None);
         train a len max_steps epochs ev fs;;
         ret true
     else ret true);
  if trained : bool then
    if do_test a then test a processors else ret tt
  else ret tt.

(** ** The claims about the loop, in the words of the specification *)

(** A parameter update is due at the micro-batch of index [step] when
    [(step + 1) % gradient_accumulation_steps == 0] or the micro-batch is
    the last of its epoch. *)
Definition update_due (a : Args) (len : nat) (step : nat) : bool :=
  negb (gradient_accumulation_steps a =? 0)
  && (((Z.of_nat step + 1) `mod` gradient_accumulation_steps a =? 0)
      || (Z.of_nat step =? Z.of_nat len - 1)).

(** The global step after a micro-batch that started at [g]. *)
Definition stepped (a : Args) (len : nat) (g : Z) (step : nat) : Z :=
  if update_due a len step then g + 1 else g.

(** What the specification lets a run of micro-batches do, from global
    step [g]: each micro-batch computes its gradients at the current global
    step, and an update follows, taking the global step one further,
    exactly when one is due. *)
Fixpoint expected (a : Args) (len : nat) (g : Z) (run : list (nat * nat))
  : list event :=
  match run with
  | [] => []
  | (epoch, step) :: rest =>
      Backward epoch step g
      :: (if update_due a len step
          then OptimizerStep epoch step (g + 1) :: expected a len (g + 1) rest
          else expected a len g rest)
  end.

(** The global step after a run of micro-batches. *)
Definition advance (a : Args) (len : nat) (g : Z) (run : list (nat * nat)) : Z :=
  foldl (λ g '(_, step), stepped a len g step) g run.

(** The micro-batches of [epochs] epochs of [len] batches, in order. *)
Definition all_batches (epochs len : nat) : list (nat * nat) :=
  epoch ← seq 0 epochs; (λ step, (epoch, step)) <$> seq 0 len.

(** The events of the loop proper: gradients and updates. *)
Definition loop_event (ev : event) : bool :=
  match ev with
  | Backward _ _ _ | OptimizerStep _ _ _ => true
  | _ => false
  end.

(** The run stops at the first micro-batch that takes the global step to
    [max_steps]: nothing is run after it. *)
Fixpoint stops (a : Args) (len : nat) (max_steps g : Z)
    (run : list (nat * nat)) : Prop :=
  match run with
  | [] => True
  | (_, step) :: rest =>
      (max_steps ≤ stepped a len g step → rest = [])
      ∧ stops a len max_steps (stepped a len g step) rest
  end.

(** ** What [main] does with the tasks, in the words of the code *)

(** Where the examples of a conversion come from. *)
Definition source_of (a : Args) (ph : phase) (task_name : string)
    (examples : list InputExample) : Prop :=
  match ph with
  | Train =>
      ∃ p split,
        examples = get_train_examples p (path_join (data_dir a) task_name) split
  | Eval =>
      ∃ p, examples
           = get_test_examples p (path_join (data_dir a) task_name) (eval_on a)
  | Test =>
      ∃ p, examples
           = get_test_examples p (path_join (data_dir a) task_name) (test_on a)
  end.

(** Outside training, the task is the first of [task_names]. *)
Definition first_task (a : Args) (ph : phase) (task_name : string) : Prop :=
  match ph with
  | Train => True
  | Eval | Test => head (task_names a) = Some task_name
  end.

Definition main_emits (a : Args) (x : event) : Prop :=
  match x with
  | GetTestExamples ph t p dir split =>
      ph ≠ Train ∧ head (task_names a) = Some t
      ∧ dir = path_join (data_dir a) t
      ∧ split = (match ph with Eval => eval_on a | _ => test_on a end)
  | CscConvert ph t examples =>
      first_task a ph t ∧ t ∈ task_class CSC ∧ source_of a ph t examples
  | SeqConvert ph t examples label_list =>
      first_task a ph t ∧ t ∈ task_class SEQ ∧ source_of a ph t examples
      ∧ label_list = get_label_list examples
  | Decode ph t fam | WriteResults ph t fam =>
      ph ≠ Train ∧ head (task_names a) = Some t ∧ t ∈ task_class fam
  | _ => True
  end.

(** The events of the training loop, given the evaluation set. *)
Definition loop_emits (ev : option eval_set) (x : event) : Prop :=
  match x with
  | MaskTokens _ _ | Backward _ _ _ | OptimizerStep _ _ _
  | SaveCheckpoint _ | RemoveCheckpoint _ => True
  | Decode Eval t fam | WriteResults Eval t fam =>
      (∃ ev0, ev = Some ev0 ∧ t = eval_task ev0) ∧ t ∈ task_class fam
  | _ => False
  end.

(** The start-up of lines 145-155 goes through: the seed is one that
    [np.random.seed] takes, the output directory is there or can be made,
    and [train_args.bin] can be written when it is to be. *)
Definition starts_up (a : Args) : Prop :=
  0 ≤ seed a < 2 ^ 32
  ∧ (path_exists (output_dir a) = true ∨ makedirs (output_dir a) = None)
  ∧ (do_train a = true →
     save_args (path_join (output_dir a) "train_args.bin") = None).

(** The error of line 161. *)
Definition task_not_found (e : exn) : Prop :=
  ∃ task_name, e = ValueError ("Task not found: " +:+ task_name).

(** ** Two claims in the words of the specification *)

(** The label list of every conversion of evaluation or test examples of a
    SEQ task is the one with which training examples of that task were
    converted. *)
Definition label_list_reused (a : Args) (fs : gset string) : Prop :=
  ∀ ph t examples label_list,
    ph ≠ Train →
    SeqConvert ph t examples label_list ∈ (main a fs).1 →
    ∃ train_examples,
      SeqConvert Train t train_examples label_list ∈ (main a fs).1.

(** A task name without processor ends the run with the error of line
    161. *)
Definition unknown_task_rejected (a : Args) (fs : gset string) : Prop :=
  Exists (λ t, processors_all !! t = None) (task_names a) →
  ∃ t, (main a fs).2 = Err (ValueError ("Task not found: " +:+ t)).

(** ** Predicates used in the proofs *)

(** Every event of a computation satisfies [P]. *)
Definition log_all {A} (P : event → Prop) (m : M A) : Prop := Forall P m.1.

Definition quiet (ev : event) : Prop := loop_event ev = false.

(** No micro-batch of the run takes the global step to [max_steps]. *)
Fixpoint running (a : Args) (len : nat) (max_steps g : Z)
    (run : list (nat * nat)) : Prop :=
  match run with
  | [] => True
  | (_, step) :: rest =>
      stepped a len g step < max_steps
      ∧ running a len max_steps (stepped a len g step) rest
  end.

(** What a loop has done when it hands over: the micro-batches it ran,
    of which the log holds the expected events; it either goes on
    ([wrap] unset, budget not reached), or has reached the budget, or has
    raised. *)
Definition handed_over (a : Args) (len : nat) (max_steps g : Z)
    (run : list (nat * nat)) {A} (m : M A) (gs : A → Z) (wrap : A → bool)
  : Prop :=
  filter loop_event m.1 = expected a len g run
  ∧ match m.2 with
    | Ok x =>
        gs x = advance a len g run
        ∧ if wrap x then stops a len max_steps g run
          else running a len max_steps g run
    | Err _ => stops a len max_steps g run
    end.

(** A computation raises only exceptions that satisfy [P]. *)
Definition raises_only {A} (P : exn → Prop) (m : M A) : Prop :=
  ∀ e, m.2 = Err e → P e.

Definition other_error (e : exn) : Prop := ¬ task_not_found e.

End WithCollaborators.

Arguments bind : simpl never.
Arguments M_bind : simpl never.
Arguments ret : simpl never.
Arguments emit : simpl never.
Arguments raise : simpl never.

End Driver.

(** * Sample inputs *)

Module Samples.
Import Noise Retention Driver.

(** The special ids and the mask id of BERT's Chinese vocabulary:
    [PAD] 0, [UNK] 100, [CLS] 101, [SEP] 102, [MASK] 103. *)
Definition bert_tokenizer : Tokenizer :=
  {| all_special_ids := [0; 100; 101; 102; 103]; mask_token_id := 103 |}.

(** A batch of three rows: a CSC row without error, a CSC row whose third
    character is wrong, and a SEQ row with its label in first position. *)
Definition sample_inputs : list (list Z) :=
  [[101; 872; 1962; 1408; 102];
   [101; 872; 1962; 7716; 102];
   [101; 872; 1962; 102; 0]].

Definition sample_targets : list (list Z) :=
  [[101; 872; 1962; 1408; 102];
   [101; 872; 1962; 1408; 102];
   [7; -100; -100; -100; -100]].

Definition sample_task_ids : list Z := [1; 1; 0].

Definition sample_store : gmap nat tensor :=
  <[0%nat := Long2 sample_inputs]>
    (<[1%nat := Long2 sample_targets]>
       (<[2%nat := Long1 sample_task_ids]> ∅)).

(** A random source that draws 1 wherever it is asked. *)
Definition always : nat → nat → bool := λ _ _, true.

(** Modelled from the spec: [InputExample.get_label_list] is defined in
    [multiTask/MultiTaskDataset.py], which is not among the sources; the
    specification describes it as the label vocabulary built from a label
    set.  Here it is the list of the distinct labels of the examples. *)
Definition distinct_labels (examples : list (string * string)) : list string :=
  remove_dups examples.*2.

(** A small world: examples are pairs of a text and a label, and every
    training batch is the sample batch. *)
Definition small_world : Collaborators := {|
  tokenizer := bert_tokenizer;
  train_batch epoch step :=
    {| tensors := sample_store; input_ids := 0%nat; label_ids := 1%nat;
       task_id := 2%nat |};
  coin epoch step := always;
  InputExample := string * string;
  InputFeatures := list Z;
  get_train_examples p dir split :=
    match p with
    | TnewsProcessor => [("x", "a"); ("y", "b")]
    | SighanProcessor => [("abd", "abc")]
    | _ => []
    end;
  get_test_examples p dir split :=
    match p with
    | TnewsProcessor => [("z", "b")]
    | SighanProcessor => [("abc", "abc")]
    | _ => []
    end;
  get_label_list := distinct_labels;
  csc_convert_examples_to_features examples n := (λ _, []) <$> examples;
  seq_convert_examples_to_features examples label_list n :=
    (λ _, []) <$> examples;
  path_join dir name := dir +:+ name;
  eval_f1 epoch step := inject_Z (80 + Z.of_nat step);
  output_model_file dir gs f1 := dir +:+ "step-" +:+ pretty gs +:+ ".bin";
  path_exists dir := false;
  makedirs dir := if decide (dir = "") then Some (NoSuchFile dir) else None;
  save_args file := None;
  double_ceil_div x y := None;
  double_int_product x n := None
|}.

(** A run that trains, evaluates and tests on the tasks [names], with two
    examples to a batch, one epoch, masked fine-tuning in mode "error" and
    an evaluation round due at every global step; [gas] is the gradient
    accumulation factor. *)
Definition sample_args (names : list string) (gas : Z) : Args := {|
  data_dir := "data/";
  task_names := names;
  train_on_list := (λ _, "base") <$> names;
  output_dir := "model/";
  do_train := true;
  do_eval := true;
  do_test := true;
  eval_on := "dev";
  test_on := "test";
  max_seq_length := 64;
  train_batch_size := 2 * gas;
  eval_batch_size := 8;
  num_train_epochs := 1;
  max_train_steps := None;
  gradient_accumulation_steps := gas;
  seed := 42;
  save_steps := 1;
  mft := true;
  mask_mode := "error";
  mask_rate := 1 # 5;
  print_para_names := false
|}.

(** On tnews alone, without accumulation. *)
Definition tnews_args : Args := sample_args ["tnews"] 1.

(** With a task that has no processor. *)
Definition cola_args (gas : Z) : Args := sample_args ["tnews"; "cola"] gas.

(** The same, with an output directory that cannot be made. *)
Definition nowhere_args : Args := {|
  data_dir := "data/";
  task_names := ["tnews"; "cola"];
  train_on_list := ["base"; "base"];
  output_dir := "";
  do_train := true;
  do_eval := true;
  do_test := true;
  eval_on := "dev";
  test_on := "test";
  max_seq_length := 64;
  train_batch_size := 2;
  eval_batch_size := 8;
  num_train_epochs := 1;
  max_train_steps := None;
  gradient_accumulation_steps := 1;
  seed := 42;
  save_steps := 1;
  mft := true;
  mask_mode := "error";
  mask_rate := 1 # 5;
  print_para_names := false
|}.

(** The evaluation set of the sample runs: one batch of two examples. *)
Definition tnews_dev : eval_set :=
  {| eval_task := "tnews"; eval_dataloader := [2%nat] |}.

End Samples.

(** * What the noise injector selects *)

Module NoiseSpec.
Import Noise.

(** Whether [mask_tokens] may select a position: the row has task id 1
    (lines 30-33), the token is not special (lines 34-39), and the mode
    admits it (lines 40-45): under "noerror" the input token is the target
    token, under "error" it is not, under "all" nothing is asked.  [ti] is
    the task id of the row, [xv] the input token and [yv] the target token
    at the position, if the target tensor has one there. *)
Definition eligible `{Tokenizer} (mask_mode : string) (ti xv : Z)
    (yv : option Z) : bool :=
  (ti =? 1) && negb (bool_decide (xv ∈ all_special_ids))
  && (if String.eqb mask_mode "noerror" then
        match yv with Some w => xv =? w | None => false end
      else if String.eqb mask_mode "error" then
        match yv with Some w => negb (xv =? w) | None => false end
      else String.eqb mask_mode "all").

End NoiseSpec.

(** * What the pool removes *)

Module RetentionSpec.
Import Retention.

(** The entries that the rounds of a run removed from the pool, in order. *)
Definition evictions (trace : list round_result) : list entry :=
  omap evicted trace.

End RetentionSpec.

(** * The course of a run *)

Module DriverSpec.
Import Retention Driver.

(** [num_update_steps_per_epoch] of line 203,
    [math.ceil(len(train_dataloader) / gradient_accumulation_steps)], in
    integer arithmetic. *)
Definition updates_per_epoch (a : Args) (len : nat) : Z :=
  (Z.of_nat len + gradient_accumulation_steps a - 1)
    `div` gradient_accumulation_steps a.

(** The events of loading the training data (lines 154-155 and 176-188). *)
Definition loads_training_data `{Collaborators} (x : event) : Prop :=
  match x with
  | SaveArgs | GetTrainExamples _ _ _ _ | CscConvert Train _ _
  | SeqConvert Train _ _ _ => True
  | _ => False
  end.

(** The events of the final test (lines 470-608). *)
Definition tests `{Collaborators} (x : event) : Prop :=
  match x with
  | GetTestExamples Test _ _ _ _ | CscConvert Test _ _ | SeqConvert Test _ _ _
  | Decode Test _ _ | WriteResults Test _ _ => True
  | _ => False
  end.

(** A checkpoint is written under the name of a global step that is a
    non-zero multiple of [save_steps]. *)
Definition checkpoint_on_schedule `{Collaborators} (a : Args) (x : event)
  : Prop :=
  match x with
  | SaveCheckpoint file =>
      ∃ g e s, g ≠ 0 ∧ save_steps a ≠ 0 ∧ g `mod` save_steps a = 0
               ∧ file = output_model_file (output_dir a) g (eval_f1 e s)
  | _ => True
  end.

(** Examples are read by the processor registered for the task. *)
Definition reads_with_own_processor `{Collaborators} (x : event) : Prop :=
  match x with
  | GetTrainExamples t p _ _ | GetTestExamples _ t p _ _ =>
      processors_all !! t = Some p
  | _ => True
  end.

(** The tasks whose training examples a run has read, in order. *)
Definition train_reads `{Collaborators} (log : list event) : list string :=
  omap (λ x, match x with
             | GetTrainExamples t _ _ _ => Some t
             | _ => None
             end) log.

(** The tasks whose training examples a run has converted to features, in
    order. *)
Definition train_converts `{Collaborators} (log : list event)
  : list string :=
  omap (λ x, match x with
             | CscConvert Train t _ | SeqConvert Train t _ _ => Some t
             | _ => None
             end) log.

(** The number of parameter updates among the events of a run. *)
Definition is_update `{Collaborators} (x : event) : bool :=
  match x with
  | OptimizerStep _ _ _ => true
  | _ => false
  end.

Definition optimizer_steps `{Collaborators} (log : list event) : nat :=
  length (filter is_update log).

End DriverSpec.

(** * Decoding the batches of an evaluation (lines 354-388 and 506-545)

    [Driver.eval_loop] records that a batch is decoded, and for which
    family of tasks, and raises where a SEQ batch has one example.  What
    the decoding appends to the lists of the round, and why it raises
    there, is modelled here, from the predictions
    [prd_ids = argmax(logits)] of the model on the batch. *)

Module Decoding.
Import Noise.

(** What ends the decoding of a batch: the TypeError of [list.extend] on an
    argument that is not iterable, or one of the exceptions met before. *)
Inductive failure :=
| TypeError (msg : string)
| Raised (e : exn).

Inductive outcome (A : Type) :=
| Done (a : A)
| Failed (f : failure).
Arguments Done {A} a.
Arguments Failed {A} f.

(** The id-to-token table of the vocabulary,
    [tokenizer._convert_id_to_token]. *)
Class Vocabulary := {
  convert_id_to_token : Z → string
}.

Section WithTokenizer.
Context `{Tokenizer} `{Vocabulary}.

(** [decode]:
    [tokenizer.convert_ids_to_tokens(input_ids, skip_special_tokens=True)]
    skips the ids that are among the special ids and looks the others up. *)
Definition decode (input_ids : list Z) : list string :=
  convert_id_to_token
    <$> filter (λ i, i ∉ all_special_ids) input_ids.

(** ** A CSC batch *)

(** [all_inputs], [all_labels] and [all_predictions]. *)
Record collected := {
  all_inputs : list (list string);
  all_labels : list (list string);
  all_predictions : list (list string)
}.

(** [attention_mask == 0] *)
Definition eq_zero (m : matrix Z) : matrix bool :=
  (λ row : list Z, (λ v, v =? 0) <$> row) <$> m.

(** Lines 379-383:
<<
    prd_ids = prd_ids.masked_fill(attention_mask == 0, 0).tolist()
    for s, t, p in zip(src_ids, trg_ids, prd_ids):
        all_inputs += [decode(s)]
        all_labels += [decode(t)]
        all_predictions += [decode(p)]
>>
    [prd_ids] and [attention_mask] have shape (batch, seq); a mask of
    another shape is refused. *)
Definition csc_decode_batch (src_ids trg_ids prd_ids attention_mask : matrix Z)
    (c : collected) : outcome collected :=
  if bool_decide (shape attention_mask = shape prd_ids) then
    let prd_ids := masked_fill prd_ids (eq_zero attention_mask) 0 in
    Done (foldl (λ c '(s, t, p),
                   {| all_inputs := all_inputs c ++ [decode s];
                      all_labels := all_labels c ++ [decode t];
                      all_predictions := all_predictions c ++ [decode p] |})
                c (zip (zip src_ids trg_ids) prd_ids))
  else Failed (Raised (RuntimeError "size mismatch")).

(** ** A SEQ batch *)

(** [x.squeeze().tolist()] on an array of one dimension: an array of one
    element becomes an array of no dimension, and its [tolist()] is the
    element itself, not a list. *)
Inductive squeezed :=
| Scalar (v : Z)
| Vector (l : list Z).

Definition squeeze_tolist (x : list Z) : squeezed :=
  match x with
  | [v] => Scalar v
  | _ => Vector x
  end.

(** [l.extend(x)] *)
Definition extend (l : list Z) (x : squeezed) : outcome (list Z) :=
  match x with
  | Vector x => Done (l ++ x)
  | Scalar _ => Failed (TypeError "'int' object is not iterable")
  end.

(** [trg_ids[:, 0]] *)
Definition column0 (trg_ids : matrix Z) : outcome (list Z) :=
  match mapM head trg_ids with
  | Some col => Done col
  | None => Failed (Raised IndexError)
  end.

(** Lines 386-387, on [(all_predictions, all_labels)]:
<<
    all_predictions.extend(prd_ids.detach().cpu().numpy().squeeze().tolist())
    all_labels.extend(trg_ids[:,0].squeeze().tolist())
>>
    [prd_ids] has shape (batch) and [trg_ids] shape (batch, seq). *)
Definition seq_decode_batch (prd_ids : list Z) (trg_ids : matrix Z)
    (c : list Z * list Z) : outcome (list Z * list Z) :=
  match extend c.1 (squeeze_tolist prd_ids) with
  | Failed f => Failed f
  | Done predictions =>
      match column0 trg_ids with
      | Failed f => Failed f
      | Done col =>
          match extend c.2 (squeeze_tolist col) with
          | Failed f => Failed f
          | Done labels => Done (predictions, labels)
          end
      end
  end.

(** [for batch in eval_dataloader], from empty lists, for a SEQ task. *)
Fixpoint seq_decode (batches : list (list Z * matrix Z))
    (c : list Z * list Z) : outcome (list Z * list Z) :=
  match batches with
  | [] => Done c
  | (prd_ids, trg_ids) :: rest =>
      match seq_decode_batch prd_ids trg_ids c with
      | Done c => seq_decode rest c
      | Failed f => Failed f
      end
  end.

(** ** What the decoding is expected to give *)

(** The predictions at the positions that the attention mask keeps. *)
Definition attended (prd_ids attention_mask : list Z) : list Z :=
  (filter (λ pm : Z * Z, pm.2 ≠ 0) (zip prd_ids attention_mask)).*1.

(** The first entry of each row of labels. *)
Definition first_labels (trg_ids : matrix Z) : list Z := omap head trg_ids.

(** A SEQ batch as the loader and the model give it: a prediction for
    every example, and at least the label in every row of [trg_ids]. *)
Definition well_shaped (b : list Z * matrix Z) : Prop :=
  length b.2 = length b.1 ∧ Forall (λ row, row ≠ []) b.2.

End WithTokenizer.
End Decoding.

(** * The parameters handed to the optimizer (lines 218-243) *)

Module Params.

(** [nd in n] on strings: [nd] occurs somewhere in [n]. *)
Fixpoint occurs (nd n : string) : bool :=
  String.prefix nd n
  || match n with
     | EmptyString => false
     | String _ n' => occurs nd n'
     end.

(** [any(nd in n for nd in fragments)] *)
Definition any_in (fragments : list string) (n : string) : bool :=
  existsb (λ nd, occurs nd n) fragments.

Definition no_decay : list string :=
  ["bias"; "LayerNorm.bias"; "LayerNorm.weight"].

Definition classifier_params : list string := ["qmc_"; "tnews_"].

(** Parameters are objects: [model.named_parameters()] gives each of them
    once, under its name, and the groups of the optimizer hold the same
    objects.  A parameter is a reference, and [requires_grad] is kept in a
    store. *)
Definition param := nat.

Record group := {
  params : list param;
  weight_decay : Q
}.

(** Lines 219-228. *)
Definition optimizer_grouped_parameters
    (named_parameters : list (string * param)) (weight_decay : Q)
  : list group :=
  [ {| params := (filter (λ np, ¬ any_in no_decay np.1) named_parameters).*2;
       weight_decay := weight_decay |};
    {| params := (filter (λ np, any_in no_decay np.1) named_parameters).*2;
       weight_decay := 0 |} ].

(** Lines 230-233 and 239-243:
<<
    for n,p in model.named_parameters():
        if not any(nd in n for nd in classifier_params):
            p.requires_grad = False
>> *)
Definition freeze (named_parameters : list (string * param))
    (requires_grad : gmap param bool) : gmap param bool :=
  foldl (λ requires_grad '(n, p),
           if any_in classifier_params n then requires_grad
           else <[p := false]> requires_grad)
        requires_grad named_parameters.

End Params.

(** * More sample inputs *)

Module MoreSamples.
Import Noise Retention Driver Decoding Params Samples.

(** A pool of three checkpoints. *)
Definition full_pool : pool :=
  {| best_result := [(90%Q, "a"); (85%Q, "b"); (80%Q, "c")];
     files := {[ "a"; "b"; "c" ]} |}.

(** The rounds of the scenario of the specification, each with a path of
    its own. *)
Definition four_rounds : list entry :=
  [(80%Q, "a"); (85%Q, "b"); (70%Q, "c"); (90%Q, "d")].

(** A run over the tasks [names] with the datasets [train_on], masked
    fine-tuning in mode "error", an evaluation round due at every global
    step and two examples to a batch. *)
Definition run_args (names train_on : list string)
    (train eval test print : bool) (gas : Z) (budget : option Z)
    (epochs : Q) : Args := {|
  data_dir := "data/";
  task_names := names;
  train_on_list := train_on;
  output_dir := "model/";
  do_train := train;
  do_eval := eval;
  do_test := test;
  eval_on := "dev";
  test_on := "test";
  max_seq_length := 64;
  train_batch_size := 2 * gas;
  eval_batch_size := 8;
  num_train_epochs := epochs;
  max_train_steps := budget;
  gradient_accumulation_steps := gas;
  seed := 42;
  save_steps := 1;
  mft := true;
  mask_mode := "error";
  mask_rate := 1 # 5;
  print_para_names := print
|}.

(** Training alone on tnews, two micro-batches to an update. *)
Definition budget_args (budget : option Z) (epochs : Q) : Args :=
  run_args ["tnews"] ["base"] true false false false 2 budget epochs.

(** Training with evaluation on sighan, two micro-batches to an update. *)
Definition sighan_args (gas : Z) : Args :=
  run_args ["sighan"] ["base"] true true false false gas None 1.

Definition sighan_dev : eval_set :=
  {| eval_task := "sighan"; eval_dataloader := [1%nat] |}.

(** Everything asked for, and [--print_para_names]. *)
Definition print_args : Args :=
  run_args ["sighan"; "tnews"] ["base"; "base"] true true true true 1 None 1.

(** Evaluation and test asked for, training not. *)
Definition test_only_args : Args :=
  run_args ["sighan"] ["base"] false true true false 1 None 1.

(** Two tasks and one [train_on] entry. *)
Definition short_train_on_args : Args :=
  run_args ["tnews"; "afqmc"] ["base"] true false false false 1 None 1.

(** A vocabulary of four characters; every other id is unknown. *)
Definition small_vocabulary : Vocabulary :=
  {| convert_id_to_token i :=
       if i =? 872 then "ni" else if i =? 1962 then "hao"
       else if i =? 1408 then "ma" else if i =? 7716 then "ma3"
       else "[UNK]" |}.

(** A CSC batch of one row, whose last position is padding. *)
Definition padded_row : list (list Z) := [[101; 872; 1962; 102; 0]].

Definition padded_prediction : list (list Z) := [[101; 872; 1962; 102; 1408]].

Definition padded_mask : list (list Z) := [[1; 1; 1; 1; 0]].

Definition nothing_collected : collected :=
  {| all_inputs := []; all_labels := []; all_predictions := [] |}.

Definition one_row_collected : collected :=
  {| all_inputs := [["ni"; "hao"]]; all_labels := [["ni"; "hao"]];
     all_predictions := [["ni"; "hao"]] |}.

(** Two SEQ batches: of two examples and of one; of two examples each. *)
Definition seq_batches_with_single : list (list Z * list (list Z)) :=
  [([3; 5], [[3; 0]; [4; 0]]); ([2], [[2; 0]])].

Definition seq_batches_of_two : list (list Z * list (list Z)) :=
  [([3; 5], [[3; 0]; [4; 0]]); ([2; 2], [[2; 0]; [1; 0]])].

Definition no_lists : list Z * list Z := ([], []).

(** Four parameters of a model, and their [requires_grad]. *)
Definition sample_parameters : list (string * param) :=
  [("bert.embeddings.LayerNorm.weight", 0%nat);
   ("bert.encoder.layer.0.output.dense.bias", 1%nat);
   ("bert.encoder.layer.0.output.dense.weight", 2%nat);
   ("tnews_classifier.weight", 3%nat)].

Definition all_trainable : gmap param bool :=
  list_to_map [(0%nat, true); (1%nat, true); (2%nat, true); (3%nat, true)].

End MoreSamples.

(** * Facts about the noise injector *)

Section NoiseFacts.
Import Noise.
Context `{Tokenizer}.

(** ** Reading one position of the tensors that [mask_tokens] builds *)

Lemma at2_full {A B} (m : matrix A) (v : B) i j :
  at2 (full m v) i j = (λ _, v) <$> at2 m i j.
Proof.
  unfold at2, full. rewrite list_lookup_fmap.
  destruct (m !! i) as [row|]; simpl; [|done]. by rewrite list_lookup_fmap.
Qed.

Lemma at2_zip_with {A B C} (f : A → B → C) (a : matrix A) (b : matrix B) i j :
  at2 (zip_with (zip_with f) a b) i j
  = x ← at2 a i j; y ← at2 b i j; Some (f x y).
Proof.
  unfold at2. rewrite lookup_zip_with.
  destruct (a !! i) as [ra|]; simpl; [|done].
  destruct (b !! i) as [rb|]; simpl.
  - by rewrite lookup_zip_with.
  - by destruct (ra !! j).
Qed.

Lemma at2_expand {A} (t : list Z) (m : matrix A) i j :
  at2 (expand t m) i j = ti ← t !! i; (λ _, ti) <$> at2 m i j.
Proof.
  unfold at2, expand. rewrite lookup_zip_with.
  destruct (t !! i) as [ti|]; simpl; [|done].
  destruct (m !! i) as [row|]; simpl; [|done]. by rewrite list_lookup_fmap.
Qed.

Lemma at2_special (m : matrix Z) i j :
  at2 (get_special_tokens_mask <$> m) i j
  = (λ t, bool_decide (t ∈ all_special_ids)) <$> at2 m i j.
Proof.
  unfold at2, get_special_tokens_mask. rewrite list_lookup_fmap.
  destruct (m !! i) as [row|]; simpl; [|done]. by rewrite list_lookup_fmap.
Qed.

Lemma at2_bernoulli pm coin m i j :
  bernoulli pm coin = Ok m →
  at2 m i j = (λ p, draw p (coin i j)) <$> at2 pm i j.
Proof.
  unfold bernoulli. destruct (forallb _ pm); [|done]. intros [= <-].
  unfold at2. rewrite list_lookup_imap.
  destruct (pm !! i) as [row|]; simpl; [|done]. by rewrite list_lookup_imap.
Qed.

(** ** Shapes *)

Lemma shape_full {A B} (m : matrix A) (v : B) : shape (full m v) = shape m.
Proof.
  unfold shape, full. rewrite <- list_fmap_compose.
  apply list_fmap_ext. intros _ row _. simpl. apply length_fmap.
Qed.

Lemma shape_zip_with {A B C} (f : A → B → C) (a : matrix A) (b : matrix B) :
  shape b = shape a → shape (zip_with (zip_with f) a b) = shape a.
Proof.
  unfold shape. revert b. induction a as [|ra a IH]; intros [|rb b]; try done.
  simpl. intros [= Hr Hs]. f_equal; [|by apply IH].
  rewrite length_zip_with. lia.
Qed.

Lemma shape_masked_fill {A} (m : matrix A) mask (v : A) :
  shape mask = shape m → shape (masked_fill m mask v) = shape m.
Proof. apply shape_zip_with. Qed.

Lemma shape_ne a b : shape b = shape a → shape (ne a b) = shape a.
Proof. apply shape_zip_with. Qed.

Lemma shape_eq a b : shape b = shape a → shape (eq a b) = shape a.
Proof. apply shape_zip_with. Qed.

Lemma shape_expand {A} (t : list Z) (m : matrix A) :
  length t = length m → shape (expand t m) = shape m.
Proof.
  unfold shape, expand. revert t.
  induction m as [|row m IH]; intros [|ti t]; try done.
  simpl. intros [= Hl]. f_equal; [apply length_fmap|by apply IH].
Qed.

Lemma shape_special (m : matrix Z) :
  shape (get_special_tokens_mask <$> m) = shape m.
Proof.
  unfold shape. rewrite <- list_fmap_compose.
  apply list_fmap_ext. intros _ row _. simpl. apply length_fmap.
Qed.

Lemma shape_bernoulli pm coin m :
  bernoulli pm coin = Ok m → shape m = shape pm.
Proof.
  unfold bernoulli. destruct (forallb _ pm); [|done]. intros [= <-].
  unfold shape.
  cut (∀ (f : nat → list Q → list bool),
         (∀ i row, length (f i row) = length row) →
         length <$> imap f pm = length <$> pm).
  { intros Hc. apply Hc. intros. apply length_imap. }
  induction pm as [|row pm IH]; intros f Hf; simpl; [done|].
  f_equal; [apply Hf|]. apply IH. intros. apply Hf.
Qed.

Lemma shape_lookup {A B} (a : matrix A) (b : matrix B) i ra rb :
  shape a = shape b → a !! i = Some ra → b !! i = Some rb →
  length ra = length rb.
Proof.
  unfold shape. intros Hs Ha Hb.
  apply (f_equal (.!! i)) in Hs. rewrite !list_lookup_fmap, Ha, Hb in Hs.
  by injection Hs.
Qed.

(** ** What a selected position satisfies *)

Ltac read_position :=
  unfold index_put, masked_fill, ne, eq;
  rewrite ?at2_zip_with, ?at2_full, ?at2_expand, ?at2_special.

Lemma mask_mode_cases (mask_mode : string) :
  (mask_mode = "noerror" ∧ String.eqb mask_mode "noerror" = true)
  ∨ (mask_mode = "error" ∧ String.eqb mask_mode "noerror" = false
     ∧ String.eqb mask_mode "error" = true)
  ∨ (mask_mode = "all" ∧ String.eqb mask_mode "noerror" = false
     ∧ String.eqb mask_mode "error" = false
     ∧ String.eqb mask_mode "all" = true)
  ∨ (mask_mode ≠ "noerror" ∧ mask_mode ≠ "error" ∧ mask_mode ≠ "all"
     ∧ String.eqb mask_mode "noerror" = false
     ∧ String.eqb mask_mode "error" = false
     ∧ String.eqb mask_mode "all" = false).
Proof.
  destruct (String.eqb_spec mask_mode "noerror") as [->|?]; [by left|].
  destruct (String.eqb_spec mask_mode "error") as [->|?]; [right; by left|].
  destruct (String.eqb_spec mask_mode "all") as [->|?].
  - right; right; by left.
  - right; right; by right.
Qed.

(** A position is selected only in a row of task id 1, on a token that is
    not special, and only where the mode allows it: under "noerror" where
    the input token is the target token, under "error" where it is not. *)
Lemma masked_indices_sound x y t mask_mode p coin m i j :
  masked_indices x y t mask_mode p coin = Ok m →
  at2 m i j = Some true →
  ∃ xv, at2 x i j = Some xv ∧ t !! i = Some 1 ∧ (xv ∉ all_special_ids)
        ∧ (mask_mode = "noerror" → at2 y i j = Some xv)
        ∧ (mask_mode = "error" → ∃ yv, at2 y i j = Some yv ∧ yv ≠ xv).
Proof.
  unfold masked_indices. destruct (fits_single p); [|done].
  case_bool_decide as Hlen; [|done].
  destruct (mask_mode_cases mask_mode)
    as [[-> E1]|[(-> & E1 & E2)|[(-> & E1 & E2 & E3)|(?&?&?& E1 & E2 & E3)]]];
    rewrite ?E1, ?E2, ?E3; try done;
    try (case_bool_decide as Hshape; [|done]);
    intros Hb Hm; rewrite (at2_bernoulli _ _ _ i j Hb) in Hm;
    revert Hm; read_position;
    destruct (at2 x i j) as [xv|]; simpl; try done;
    destruct (t !! i) as [ti|]; simpl; try done;
    try (destruct (at2 y i j) as [yv|]; simpl; try done);
    destruct (Z.eqb_spec ti 1) as [->|?]; simpl; try done;
    case_bool_decide as Hsp; simpl; try done;
    try (destruct (Z.eqb_spec xv yv) as [<-|?]; simpl; try done);
    intros _; exists xv; repeat split; try done; eauto.
Qed.

(** Nothing is selected outside the input tensor, and the mask has the
    shape of the input. *)
Lemma masked_indices_shape x y t mask_mode p coin m :
  masked_indices x y t mask_mode p coin = Ok m → shape m = shape x.
Proof.
  unfold masked_indices. destruct (fits_single p); [|done].
  case_bool_decide as Hlen; [|done].
  assert (shape (ne (expand t x) (full x 1)) = shape x) as Hn.
  { rewrite shape_ne; [by apply shape_expand|].
    by rewrite shape_full, shape_expand. }
  assert (shape (masked_fill (full x p) (ne (expand t x) (full x 1)) 0%Q)
          = shape x) as Htask.
  { rewrite shape_masked_fill; [apply shape_full|]. by rewrite Hn, shape_full. }
  assert (shape (masked_fill
            (masked_fill (full x p) (ne (expand t x) (full x 1)) 0%Q)
            (get_special_tokens_mask <$> x) 0%Q) = shape x) as Hbase.
  { rewrite shape_masked_fill; [done|]. by rewrite shape_special, Htask. }
  destruct (mask_mode_cases mask_mode)
    as [[-> E1]|[(-> & E1 & E2)|[(-> & E1 & E2 & E3)|(?&?&?& E1 & E2 & E3)]]];
    rewrite ?E1, ?E2, ?E3; try done;
    try (case_bool_decide as Hshape; [|done]);
    intros Hb%shape_bernoulli; rewrite Hb; try done.
  - rewrite shape_masked_fill; [done|]. by rewrite Hbase, shape_ne.
  - rewrite shape_masked_fill; [done|]. by rewrite Hbase, shape_eq.
Qed.

Lemma forallb_matrix {A} (f : A → bool) (m : matrix A) :
  forallb (forallb f) m = true ↔ ∀ i j v, at2 m i j = Some v → f v = true.
Proof.
  rewrite <- Is_true_true, forallb_True, Forall_lookup. unfold at2. split.
  - intros Hm i j v Hv. destruct (m !! i) as [row|] eqn:Hrow; [|done].
    simpl in Hv. specialize (Hm i row Hrow).
    apply forallb_True in Hm. rewrite Forall_lookup in Hm.
    apply Is_true_true. by apply (Hm j).
  - intros Hm i row Hrow. apply forallb_True, Forall_lookup. intros j v Hv.
    apply Is_true_true, (Hm i j). by rewrite Hrow.
Qed.

Lemma is_probability_within p :
  (0 <= p)%Q → (p <= 1)%Q → is_probability p = true.
Proof.
  intros Hp0 Hp1. unfold is_probability. apply andb_true_intro.
  split; apply Qle_bool_iff.
  - apply Qle_trans with 0%Q; [by vm_compute|done].
  - apply Qle_trans with 1%Q; [done|by vm_compute].
Qed.

Lemma is_probability_fits p : is_probability p = true → fits_single p = true.
Proof.
  unfold is_probability, fits_single.
  intros [Hp0 Hp1]%andb_true_iff. apply andb_true_intro.
  apply Qle_bool_iff in Hp0, Hp1. split; apply Qle_bool_iff.
  - apply Qle_trans with rate_min; [by vm_compute|done].
  - apply Qle_trans with rate_max; [done|by vm_compute].
Qed.

(** On a batch of the modelled shape, with a rate in [0, 1] and one of the
    three modes, the selection is computed: no exception is raised. *)
Lemma masked_indices_total x y t mask_mode p coin :
  length t = length x → shape y = shape x → (0 <= p)%Q → (p <= 1)%Q →
  mask_mode = "noerror" ∨ mask_mode = "error" ∨ mask_mode = "all" →
  ∃ m, masked_indices x y t mask_mode p coin = Ok m.
Proof.
  intros Hlen Hshape Hp0 Hp1 Hmode. unfold masked_indices.
  assert (is_probability p = true) as Hp.
  { by apply is_probability_within. }
  rewrite (is_probability_fits p Hp). cbv iota.
  rewrite bool_decide_true by done.
  assert (∀ pm, (match pm with
                 | Ok pm => forallb (forallb is_probability) pm = true
                 | Err _ => False
                 end) →
          ∃ m, match pm with
               | Ok pm => bernoulli pm coin
               | Err e => Err e
               end = Ok m) as Hgo.
  { intros [pm|e] Hpm; [|done]. unfold bernoulli. rewrite Hpm. eauto. }
  apply Hgo.
  destruct Hmode as [->|[->| ->]]; simpl; rewrite ?bool_decide_true by done;
    apply forallb_matrix; intros i j v; read_position;
    destruct (at2 x i j) as [xv|]; simpl; try done;
    destruct (t !! i) as [ti|]; simpl; try done;
    try (destruct (at2 y i j) as [yv|]; simpl; try done);
    intros [= <-]; repeat case_match; done.
Qed.

(** ** The call as a whole *)

(** A call either returns the fresh clone, written at the selected
    positions, or raises; in both cases the clone is the only location
    that the call adds to the store. *)
Lemma mask_tokens_inv h inputs targets task_ids mask_mode p coin :
  (∃ x y t m,
      h !! inputs = Some (Long2 x) ∧ h !! targets = Some (Long2 y)
      ∧ h !! task_ids = Some (Long1 t)
      ∧ masked_indices x y t mask_mode p coin = Ok m
      ∧ mask_tokens h inputs targets task_ids mask_mode p coin
        = (Ok (fresh (dom h)),
           <[fresh (dom h) := Long2 (index_put x m mask_token_id)]> h))
  ∨ (∃ e x, mask_tokens h inputs targets task_ids mask_mode p coin
            = (Err e, <[fresh (dom h) := x]> h))
  ∨ (∃ e, mask_tokens h inputs targets task_ids mask_mode p coin = (Err e, h)).
Proof.
  unfold mask_tokens.
  destruct (h !! inputs) as [[x|?]|]; try (right; right; eauto; fail).
  destruct (h !! targets) as [[y|?]|]; try (right; right; eauto; fail).
  destruct (h !! task_ids) as [[?|t]|]; try (right; right; eauto; fail).
  destruct (masked_indices x y t mask_mode p coin) as [m|e] eqn:Hm.
  - left. exists x, y, t, m. by rewrite insert_insert_eq.
  - right; left; eauto.
Qed.

(** The exceptions of a call: a failed assertion on the mode, or an error
    of torch. *)
Lemma masked_indices_raises x y t mask_mode p coin e :
  masked_indices x y t mask_mode p coin = Err e →
  e = AssertionError ∨ ∃ msg, e = RuntimeError msg.
Proof.
  assert (∀ pm, bernoulli pm coin = Err e → ∃ msg, e = RuntimeError msg)
    as Hdraw.
  { intros pm. unfold bernoulli. destruct (forallb _ pm); [done|].
    intros [= <-]. eauto. }
  unfold masked_indices.
  repeat match goal with
         | |- context [if ?b then _ else _] => destruct b
         end;
    try (intros [= <-]; eauto; fail); intros ?%Hdraw; eauto.
Qed.

Lemma mask_tokens_raises h inputs targets task_ids mask_mode p coin e :
  (mask_tokens h inputs targets task_ids mask_mode p coin).1 = Err e →
  e = AssertionError ∨ ∃ msg, e = RuntimeError msg.
Proof.
  unfold mask_tokens.
  destruct (h !! inputs) as [[x|?]|]; try (intros [= <-]; eauto; fail).
  destruct (h !! targets) as [[y|?]|]; try (intros [= <-]; eauto; fail).
  destruct (h !! task_ids) as [[?|t]|]; try (intros [= <-]; eauto; fail).
  destruct (masked_indices x y t mask_mode p coin) as [m|e'] eqn:Hm; [done|].
  intros [= <-]. by eapply masked_indices_raises.
Qed.

Lemma fresh_loc_unused (h : store) : h !! fresh (dom h) = None.
Proof. apply not_elem_of_dom, is_fresh. Qed.

Lemma mask_tokens_returns h inputs targets task_ids x y t mask_mode p coin :
  h !! inputs = Some (Long2 x) → h !! targets = Some (Long2 y) →
  h !! task_ids = Some (Long1 t) →
  length t = length x → shape y = shape x → (0 <= p)%Q → (p <= 1)%Q →
  mask_mode = "noerror" ∨ mask_mode = "error" ∨ mask_mode = "all" →
  ∃ out h', mask_tokens h inputs targets task_ids mask_mode p coin
            = (Ok out, h').
Proof.
  intros Hx Hy Ht Hlen Hshape Hp0 Hp1 Hmode.
  destruct (masked_indices_total x y t mask_mode p coin) as [m Hm]; try done.
  unfold mask_tokens. rewrite Hx, Hy, Ht, Hm. eauto.
Qed.

(** In the written clone, a position holds what the input held, or the
    mask token where the position was selected. *)
Lemma at2_index_put x m v i j :
  at2 (index_put x m v) i j
  = xv ← at2 x i j; b ← at2 m i j; Some (if b : bool then v else xv).
Proof. unfold index_put, masked_fill. apply at2_zip_with. Qed.

Lemma index_put_row x m v i row :
  shape m = shape x → x !! i = Some row →
  (∀ j, at2 m i j ≠ Some true) →
  index_put x m v !! i = Some row.
Proof.
  intros Hs Hrow Hno. unfold index_put, masked_fill.
  rewrite lookup_zip_with, Hrow. simpl.
  destruct (m !! i) as [mrow|] eqn:Hmrow.
  - simpl. f_equal. apply list_eq. intros j. rewrite lookup_zip_with.
    pose proof (shape_lookup _ _ i _ _ Hs Hmrow Hrow) as Hl.
    destruct (row !! j) as [v'|] eqn:Hv; simpl; [|done].
    destruct (mrow !! j) as [b|] eqn:Hb; simpl.
    + destruct b; [|done]. exfalso. apply (Hno j).
      unfold at2. by rewrite Hmrow.
    + apply lookup_ge_None in Hb. apply lookup_lt_Some in Hv. lia.
  - apply (f_equal (.!! i)) in Hs. unfold shape in Hs.
    by rewrite !list_lookup_fmap, Hmrow, Hrow in Hs.
Qed.

(** C2: the mode filter. In every call that returns, under every outcome
    of the random draws, every position selected for masking under mode
    "noerror" held an input token equal to the target token, and under mode
    "error" an input token different from the target token, before masking;
    the returned tensor is the input written with the mask token at the
    selected positions, so a token that the call changed sits at such a
    position.  On every batch of the loop's shape with a rate in [0, 1] the
    call returns under both modes. *)
Theorem mask_tokens_mode_filter h inputs targets task_ids mask_mode p coin :
  (∀ out h',
      mask_tokens h inputs targets task_ids mask_mode p coin = (Ok out, h') →
      ∃ x y t m,
        h !! inputs = Some (Long2 x) ∧ h !! targets = Some (Long2 y)
        ∧ h !! task_ids = Some (Long1 t)
        ∧ masked_indices x y t mask_mode p coin = Ok m
        ∧ h' !! out = Some (Long2 (index_put x m mask_token_id))
        ∧ (mask_mode = "noerror" →
           ∀ i j, at2 m i j = Some true →
                  ∃ v, at2 x i j = Some v ∧ at2 y i j = Some v)
        ∧ (mask_mode = "error" →
           ∀ i j, at2 m i j = Some true →
                  ∃ v w, at2 x i j = Some v ∧ at2 y i j = Some w ∧ v ≠ w)
        ∧ (mask_mode = "noerror" →
           ∀ i j v v', at2 x i j = Some v →
                       at2 (index_put x m mask_token_id) i j = Some v' →
                       v' ≠ v → at2 y i j = Some v)
        ∧ (mask_mode = "error" →
           ∀ i j v v', at2 x i j = Some v →
                       at2 (index_put x m mask_token_id) i j = Some v' →
                       v' ≠ v → ∃ w, at2 y i j = Some w ∧ v ≠ w))
  ∧ (∀ x y t,
      h !! inputs = Some (Long2 x) → h !! targets = Some (Long2 y) →
      h !! task_ids = Some (Long1 t) →
      length t = length x → shape y = shape x → (0 <= p)%Q → (p <= 1)%Q →
      mask_mode = "noerror" ∨ mask_mode = "error" →
      ∃ out h', mask_tokens h inputs targets task_ids mask_mode p coin
                = (Ok out, h')).
Proof.
  split.
  - intros out h' Hrun.
    destruct (mask_tokens_inv h inputs targets task_ids mask_mode p coin)
      as [(x & y & t & m & Hx & Hy & Ht & Hm & Hcall)|[(e & ? & Hcall)|[e Hcall]]];
      rewrite Hcall in Hrun; try done.
    injection Hrun as <- <-. exists x, y, t, m.
    rewrite lookup_insert_eq. repeat split; try done.
    + intros Hmode i j Hsel.
      destruct (masked_indices_sound _ _ _ _ _ _ _ i j Hm Hsel)
        as (v & Hv & _ & _ & Hno & _). eauto.
    + intros Hmode i j Hsel.
      destruct (masked_indices_sound _ _ _ _ _ _ _ i j Hm Hsel)
        as (v & Hv & _ & _ & _ & Her).
      destruct (Her Hmode) as (w & Hw & Hne). exists v, w. eauto.
    + intros Hmode i j v v' Hv. rewrite at2_index_put, Hv. simpl.
      destruct (at2 m i j) as [[|]|] eqn:Hsel; simpl; intros [= <-] Hne;
        [|done].
      destruct (masked_indices_sound _ _ _ _ _ _ _ i j Hm Hsel)
        as (v0 & Hv0 & _ & _ & Hno & _). rewrite Hno by done. congruence.
    + intros Hmode i j v v' Hv. rewrite at2_index_put, Hv. simpl.
      destruct (at2 m i j) as [[|]|] eqn:Hsel; simpl; intros [= <-] Hne;
        [|done].
      destruct (masked_indices_sound _ _ _ _ _ _ _ i j Hm Hsel)
        as (v0 & Hv0 & _ & _ & _ & Her).
      destruct (Her Hmode) as (w & Hw & Hvw). exists w. split; [done|].
      congruence.
  - intros x y t Hx Hy Ht Hlen Hshape Hp0 Hp1 Hmode.
    eapply mask_tokens_returns; eauto. tauto.
Qed.

(** C3: rows of other tasks and special tokens. In every call that
    returns, under every mode and every outcome of the random draws, every
    selected position lies in a row whose task id is 1 and on a token that
    is not special; a row whose task id differs from 1 is returned as it
    was, and so is every special token.  On every batch of the loop's
    shape with a rate in [0, 1] the call returns under each of the three
    modes. *)
Theorem mask_tokens_spares h inputs targets task_ids mask_mode p coin :
  (∀ out h',
      mask_tokens h inputs targets task_ids mask_mode p coin = (Ok out, h') →
      ∃ x y t m,
        h !! inputs = Some (Long2 x) ∧ h !! targets = Some (Long2 y)
        ∧ h !! task_ids = Some (Long1 t)
        ∧ masked_indices x y t mask_mode p coin = Ok m
        ∧ h' !! out = Some (Long2 (index_put x m mask_token_id))
        ∧ (∀ i j, at2 m i j = Some true →
                  t !! i = Some 1
                  ∧ ∃ v, at2 x i j = Some v ∧ v ∉ all_special_ids)
        ∧ (∀ i ti row, t !! i = Some ti → ti ≠ 1 → x !! i = Some row →
                       index_put x m mask_token_id !! i = Some row)
        ∧ (∀ i j v, at2 x i j = Some v → v ∈ all_special_ids →
                    at2 (index_put x m mask_token_id) i j = Some v))
  ∧ (∀ x y t,
      h !! inputs = Some (Long2 x) → h !! targets = Some (Long2 y) →
      h !! task_ids = Some (Long1 t) →
      length t = length x → shape y = shape x → (0 <= p)%Q → (p <= 1)%Q →
      mask_mode = "noerror" ∨ mask_mode = "error" ∨ mask_mode = "all" →
      ∃ out h', mask_tokens h inputs targets task_ids mask_mode p coin
                = (Ok out, h')).
Proof.
  split.
  - intros out h' Hrun.
    destruct (mask_tokens_inv h inputs targets task_ids mask_mode p coin)
      as [(x & y & t & m & Hx & Hy & Ht & Hm & Hcall)|[(e & ? & Hcall)|[e Hcall]]];
      rewrite Hcall in Hrun; try done.
    injection Hrun as <- <-. exists x, y, t, m.
    rewrite lookup_insert_eq. do 5 (split; [done|]). split; [|split].
    + intros i j Hsel.
      destruct (masked_indices_sound _ _ _ _ _ _ _ i j Hm Hsel)
        as (v & Hv & Hti & Hsp & _). eauto.
    + intros i ti row Hti Hne Hrow. apply index_put_row; [|done|].
      * eapply masked_indices_shape, Hm.
      * intros j Hsel.
        destruct (masked_indices_sound _ _ _ _ _ _ _ i j Hm Hsel)
          as (v & _ & Hti' & _). congruence.
    + intros i j v Hv Hsp. rewrite at2_index_put, Hv. simpl.
      destruct (at2 m i j) as [[|]|] eqn:Hsel; simpl; [|done|].
      * destruct (masked_indices_sound _ _ _ _ _ _ _ i j Hm Hsel)
          as (v0 & Hv0 & _ & Hns & _). congruence.
      * exfalso. pose proof (masked_indices_shape _ _ _ _ _ _ _ Hm) as Hs.
        unfold at2 in Hv, Hsel.
        destruct (x !! i) as [row|] eqn:Hrow; [|done].
        destruct (m !! i) as [mrow|] eqn:Hmrow.
        -- pose proof (shape_lookup _ _ i _ _ Hs Hmrow Hrow) as Hl.
           simpl in *. apply lookup_ge_None in Hsel.
           apply lookup_lt_Some in Hv. lia.
        -- apply (f_equal (.!! i)) in Hs. unfold shape in Hs.
           by rewrite !list_lookup_fmap, Hmrow, Hrow in Hs.
  - intros x y t Hx Hy Ht Hlen Hshape Hp0 Hp1 Hmode.
    eapply mask_tokens_returns; eauto.
Qed.

(** C10: the frame of a call. Every call, whether it returns or raises,
    leaves every tensor that was in the store as it was, among them the
    caller's [inputs], [targets] and [task_ids].  When the call returns,
    what it returns is a tensor that was not in the store before, of the
    shape of [inputs], and each of its positions holds either the token
    that [inputs] holds there or the tokenizer's mask-token id. *)
Theorem mask_tokens_frame h inputs targets task_ids mask_mode p coin :
  (∀ l, is_Some (h !! l) →
        (mask_tokens h inputs targets task_ids mask_mode p coin).2 !! l
        = h !! l)
  ∧ ∀ out,
      (mask_tokens h inputs targets task_ids mask_mode p coin).1 = Ok out →
      h !! out = None
      ∧ ∃ x x',
          h !! inputs = Some (Long2 x)
          ∧ (mask_tokens h inputs targets task_ids mask_mode p coin).2 !! out
            = Some (Long2 x')
          ∧ shape x' = shape x
          ∧ ∀ i j v, at2 x i j = Some v →
                     at2 x' i j = Some v ∨ at2 x' i j = Some mask_token_id.
Proof.
  destruct (mask_tokens_inv h inputs targets task_ids mask_mode p coin)
    as [(x & y & t & m & Hx & Hy & Ht & Hm & Hcall)|[(e & ? & Hcall)|[e Hcall]]];
    rewrite Hcall; simpl; (split; [|try done]).
  - intros l [v Hl]. rewrite lookup_insert_ne; [done|].
    intros <-. by rewrite fresh_loc_unused in Hl.
  - intros out [= <-]. split; [apply fresh_loc_unused|].
    exists x, (index_put x m mask_token_id). rewrite lookup_insert_eq.
    pose proof (masked_indices_shape _ _ _ _ _ _ _ Hm) as Hs.
    repeat split; try done.
    + by apply shape_masked_fill.
    + intros i j v Hv. rewrite at2_index_put, Hv. simpl.
      destruct (at2 m i j) as [[|]|] eqn:Hsel; simpl; auto.
      exfalso. unfold at2 in Hv, Hsel.
      destruct (x !! i) as [row|] eqn:Hrow; [|done].
      destruct (m !! i) as [mrow|] eqn:Hmrow.
      * pose proof (shape_lookup _ _ i _ _ Hs Hmrow Hrow) as Hl.
        simpl in *. apply lookup_ge_None in Hsel.
        apply lookup_lt_Some in Hv. lia.
      * apply (f_equal (.!! i)) in Hs. unfold shape in Hs.
        by rewrite !list_lookup_fmap, Hmrow, Hrow in Hs.
  - intros l [v Hl]. rewrite lookup_insert_ne; [done|].
    intros <-. by rewrite fresh_loc_unused in Hl.
  - done.
Qed.

End NoiseFacts.

(** * Facts about checkpoint retention *)

Section RetentionFacts.
Import Retention.

Lemma place_length e l : length (place e l) = S (length l).
Proof.
  induction l as [|y l IH]; simpl; [done|].
  destruct (Qle_bool y.1 e.1); simpl; by rewrite ?IH.
Qed.

Lemma sort_by_f1_length l : length (sort_by_f1 l) = length l.
Proof.
  induction l as [|e l IH]; simpl; [done|].
  by rewrite place_length, IH.
Qed.

Lemma place_perm e l : place e l ≡ₚ e :: l.
Proof.
  induction l as [|y l IH]; simpl; [done|].
  destruct (Qle_bool y.1 e.1); [done|].
  rewrite IH. apply Permutation_swap.
Qed.

Lemma sort_by_f1_perm l : sort_by_f1 l ≡ₚ l.
Proof.
  induction l as [|e l IH]; simpl; [done|].
  by rewrite place_perm, IH.
Qed.

Lemma Qle_bool_false x y : Qle_bool x y = false → (y <= x)%Q.
Proof.
  intros H. apply Qlt_le_weak, Qnot_le_lt. intros Hle.
  apply Qle_bool_iff in Hle. congruence.
Qed.

Lemma place_ranked e l : ranked l → ranked (place e l).
Proof.
  unfold ranked. induction l as [|y l IH]; simpl; intros Hl.
  - repeat constructor.
  - destruct (Qle_bool y.1 e.1) eqn:Hc.
    + constructor; [done|]. constructor. by apply Qle_bool_iff.
    + apply Sorted_inv in Hl as [Hl Hhd].
      constructor; [by apply IH|].
      destruct l as [|z l]; simpl.
      * constructor. by apply Qle_bool_false.
      * destruct (Qle_bool z.1 e.1); constructor.
        -- by apply Qle_bool_false.
        -- by inversion Hhd.
Qed.

Lemma sort_by_f1_ranked l : ranked (sort_by_f1 l).
Proof.
  induction l as [|e l IH]; simpl; [constructor|].
  by apply place_ranked.
Qed.

Lemma pop_snoc l l' e : pop l = Some (l', e) ↔ l = l' ++ [e].
Proof.
  unfold pop. split.
  - destruct (reverse l) as [|x r] eqn:Hr; [done|].
    intros [= <- <-]. apply (f_equal reverse) in Hr.
    by rewrite reverse_involutive, reverse_cons in Hr.
  - intros ->. rewrite reverse_app, reverse_singleton. simpl.
    by rewrite reverse_involutive.
Qed.

Lemma ranked_app_l l1 l2 : ranked (l1 ++ l2) → ranked l1.
Proof.
  unfold ranked. induction l1 as [|a l1 IH]; simpl; [constructor|].
  intros [Hs Hh]%Sorted_inv. constructor; [by apply IH|].
  destruct l1; simpl in *; [constructor|]. inversion Hh; by constructor.
Qed.

(** One round: the pool keeps at most three entries, stays ranked, and
    the file of the popped entry is not in storage when the round ends,
    whether [os.remove] deleted it or found it missing. *)
Lemma retain_keeps f1 path p :
  (length (best_result p) ≤ 3)%nat →
  (length (best_result (after (retain f1 path p))) ≤ 3)%nat
  ∧ ranked (best_result (after (retain f1 path p)))
  ∧ ∀ e, evicted (retain f1 path p) = Some e →
         e.2 ∉ files (after (retain f1 path p)).
Proof.
  intros Hlen. unfold retain.
  pose proof (sort_by_f1_ranked (best_result p ++ [(f1, path)])) as Hr.
  pose proof (sort_by_f1_length (best_result p ++ [(f1, path)])) as Hl.
  rewrite length_app in Hl. simpl in Hl.
  destruct (3 <? _)%nat eqn:Hc.
  - destruct (pop _) as [[l' [f rm]]|] eqn:Hp.
    + apply pop_snoc in Hp. rewrite Hp in Hr, Hl.
      rewrite length_app in Hl. simpl in Hl.
      apply ranked_app_l in Hr.
      case_decide as Hrm; simpl; (split; [lia|]); (split; [done|]);
        intros e [= <-]; simpl; [|done].
      rewrite elem_of_difference, elem_of_singleton. tauto.
    + simpl. apply Nat.ltb_lt in Hc.
      destruct (sort_by_f1 _) as [|x l] eqn:Hs; [simpl in Hc; lia|].
      unfold pop in Hp. rewrite reverse_cons in Hp.
      by destruct (reverse l).
  - simpl. apply Nat.ltb_ge in Hc. by repeat split.
Qed.

(** The pool after a round, followed by the popped entry, is the ranked
    list of the old pool and the new entry: what leaves the pool is the
    last, lowest-ranked, entry. *)
Lemma retain_ranked_split f1 path p :
  (length (best_result p) ≤ 3)%nat →
  best_result (after (retain f1 path p))
    ++ option_list (evicted (retain f1 path p))
  = sort_by_f1 (best_result p ++ [(f1, path)]).
Proof.
  intros Hlen. unfold retain.
  destruct (3 <? _)%nat eqn:Hc; simpl; [|by rewrite app_nil_r].
  destruct (pop _) as [[l' [f rm]]|] eqn:Hp.
  - apply pop_snoc in Hp. by case_decide.
  - simpl. by rewrite app_nil_r.
Qed.

Lemma run_rounds_keep rounds p :
  (length (best_result p) ≤ 3)%nat →
  Forall (λ r, (length (best_result (after r)) ≤ 3)%nat
               ∧ ranked (best_result (after r))
               ∧ ∀ e, evicted r = Some e → e.2 ∉ files (after r))
         (run_rounds rounds p).
Proof.
  revert p. induction rounds as [|[f1 path] rest IH]; intros p Hlen; simpl.
  - constructor.
  - pose proof (retain_keeps f1 path p Hlen) as Hk.
    constructor; [done|].
    destruct (raised _); [constructor|]. apply IH. tauto.
Qed.

(** When every round writes a checkpoint under a name of its own, every
    file named in the pool exists, no [os.remove] fails, and all the rounds
    are executed. *)
Definition stocked (p : pool) : Prop :=
  NoDup (best_result p).*2 ∧ ∀ e, e ∈ best_result p → e.2 ∈ files p.

Lemma retain_stocked f1 path p :
  stocked p → path ∉ (best_result p).*2 →
  raised (retain f1 path p) = None
  ∧ stocked (after (retain f1 path p))
  ∧ ∀ q, q ∈ (best_result (after (retain f1 path p))).*2 →
         q = path ∨ q ∈ (best_result p).*2.
Proof.
  intros [Hnd Hin] Hfresh. unfold retain.
  pose proof (sort_by_f1_perm (best_result p ++ [(f1, path)])) as Hperm.
  assert (NoDup (sort_by_f1 (best_result p ++ [(f1, path)])).*2) as Hnd'.
  { rewrite Hperm, fmap_app. simpl. apply NoDup_app. split; [done|].
    split; [|apply NoDup_singleton]. intros q Hq ->%list_elem_of_singleton.
    done. }
  assert (∀ e, e ∈ sort_by_f1 (best_result p ++ [(f1, path)]) →
               e.2 ∈ ({[path]} ∪ files p : gset string)) as Hin'.
  { intros e. rewrite Hperm. intros [He| ->%list_elem_of_singleton]%elem_of_app.
    - apply Hin in He. set_solver.
    - set_solver. }
  assert (∀ q, q ∈ (sort_by_f1 (best_result p ++ [(f1, path)])).*2 →
               q = path ∨ q ∈ (best_result p).*2) as Hsub.
  { intros q. rewrite Hperm, fmap_app. simpl.
    intros [?| ->%list_elem_of_singleton]%elem_of_app; auto. }
  destruct (3 <? _)%nat eqn:Hc; simpl.
  - destruct (pop _) as [[l' [f rm]]|] eqn:Hp.
    + apply pop_snoc in Hp. rewrite Hp in Hnd', Hin', Hsub.
      rewrite fmap_app in Hnd', Hsub. simpl in Hnd', Hsub.
      apply NoDup_app in Hnd' as (Hnd1 & Hdisj & _).
      rewrite decide_True by (apply (Hin' (f, rm)); set_solver).
      simpl. split; [done|]. split; [split; [done|]|].
      * intros e He. apply elem_of_difference. split.
        -- apply Hin'. set_solver.
        -- intros Heq%elem_of_singleton. apply (Hdisj e.2).
           ++ by apply list_elem_of_fmap_2.
           ++ by apply list_elem_of_singleton.
      * intros q Hq. apply Hsub. set_solver.
    + apply Nat.ltb_lt in Hc.
      destruct (sort_by_f1 _) as [|x l] eqn:Hs; [simpl in Hc; lia|].
      unfold pop in Hp. rewrite reverse_cons in Hp.
      by destruct (reverse l).
  - by repeat split.
Qed.

Lemma run_rounds_complete rounds p :
  stocked p → NoDup rounds.*2 →
  (∀ q, q ∈ rounds.*2 → q ∉ (best_result p).*2) →
  Forall (λ r, raised r = None) (run_rounds rounds p)
  ∧ length (run_rounds rounds p) = length rounds.
Proof.
  revert p. induction rounds as [|[f1 path] rest IH]; intros p Hst Hnd Hfr.
  - by split.
  - simpl in *. apply NoDup_cons in Hnd as [Hpath Hnd].
    destruct (retain_stocked f1 path p Hst) as (Hr & Hst' & Hsub).
    { apply Hfr. set_solver. }
    rewrite Hr. destruct (IH (after (retain f1 path p)) Hst' Hnd) as [H1 H2].
    { intros q Hq Hq'. apply Hsub in Hq' as [->|Hq']; [done|].
      apply (Hfr q); set_solver. }
    split; [by constructor|]. by rewrite H2.
Qed.

(** C1: retention invariant. For every sequence of evaluation rounds, after
    each insertion of an [(eval_f1, checkpoint_path)] pair the pool holds at
    most 3 entries and is sorted by F1 descending, and the checkpoint file
    of the entry evicted by that insertion is not in storage when the
    insertion ends; the pool and the evicted entry together are the ranked
    list of the previous pool and the inserted pair. *)
Theorem retention_pool_invariant (fs : gset string) (rounds : list entry) :
  Forall (λ r, (length (best_result (after r)) ≤ 3)%nat
               ∧ ranked (best_result (after r))
               ∧ ∀ e, evicted r = Some e → e.2 ∉ files (after r))
         (run_rounds rounds (empty_pool fs))
  ∧ ∀ r f1 path,
      r ∈ run_rounds rounds (empty_pool fs) →
      best_result (after (retain f1 path (after r)))
        ++ option_list (evicted (retain f1 path (after r)))
      = sort_by_f1 (best_result (after r) ++ [(f1, path)]).
Proof.
  pose proof (run_rounds_keep rounds (empty_pool fs)) as Hk.
  split; [apply Hk; simpl; lia|].
  intros r f1 path Hr. apply retain_ranked_split.
  rewrite Forall_forall in Hk. apply Hk in Hr; [tauto|simpl; lia].
Qed.

(** The two ways a round can go when [os.remove] succeeds. *)
Lemma retain_room f1 path p l :
  (length (best_result p) < 3)%nat →
  sort_by_f1 (best_result p ++ [(f1, path)]) = l →
  retain f1 path p
  = Round {| best_result := l; files := {[path]} ∪ files p |} None None.
Proof.
  intros Hlen <-. unfold retain.
  rewrite sort_by_f1_length, length_app. simpl.
  destruct (3 <? _)%nat eqn:Hc; [|done].
  apply Nat.ltb_lt in Hc. lia.
Qed.

Lemma retain_evicts f1 path p l f rm :
  (3 ≤ length (best_result p))%nat →
  sort_by_f1 (best_result p ++ [(f1, path)]) = l ++ [(f, rm)] →
  rm ∈ ({[path]} ∪ files p : gset string) →
  retain f1 path p
  = Round {| best_result := l;
             files := ({[path]} ∪ files p) ∖ {[rm]} |} (Some (f, rm)) None.
Proof.
  intros Hlen Hs Hin. unfold retain.
  rewrite sort_by_f1_length, length_app. simpl.
  destruct (3 <? _)%nat eqn:Hc;
    [|apply Nat.ltb_ge in Hc; lia].
  apply pop_snoc in Hs. rewrite Hs. by rewrite decide_True.
Qed.

(** C9: the scenario 80, 85, 70, 90. Whatever the four checkpoint paths
    and the files already present, inserting F1 values 80, 85, 70, 90 in
    that order raises no exception, leaves exactly the entries with F1 90,
    85 and 80 in the pool, in that order, and the checkpoint file of the
    entry with F1 70 is no longer in storage. *)
Theorem retention_scenario (fs : gset string) (p80 p85 p70 p90 : string) :
  let rounds := [(80%Q, p80); (85%Q, p85); (70%Q, p70); (90%Q, p90)] in
  Forall (λ r, raised r = None) (run_rounds rounds (empty_pool fs))
  ∧ length (run_rounds rounds (empty_pool fs)) = 4%nat
  ∧ best_result (final_pool rounds (empty_pool fs))
    = [(90%Q, p90); (85%Q, p85); (80%Q, p80)]
  ∧ evicted <$> last (run_rounds rounds (empty_pool fs))
    = Some (Some (70%Q, p70))
  ∧ p70 ∉ files (final_pool rounds (empty_pool fs)).
Proof.
  cbv zeta. unfold final_pool, run_rounds, empty_pool.
  rewrite (retain_room _ _ _ [(80%Q, p80)]) by (simpl; lia || done).
  cbn [raised after].
  rewrite (retain_room _ _ _ [(85%Q, p85); (80%Q, p80)])
    by (simpl; lia || by vm_compute).
  cbn [raised after].
  rewrite (retain_room _ _ _ [(85%Q, p85); (80%Q, p80); (70%Q, p70)])
    by (simpl; lia || by vm_compute).
  cbn [raised after].
  rewrite (retain_evicts _ _ _ [(90%Q, p90); (85%Q, p85); (80%Q, p80)]
             (70%Q) p70); [|simpl; lia|by vm_compute|set_solver].
  cbn [raised after evicted last fmap option_fmap option_map best_result files].
  repeat split; [repeat constructor|].
  rewrite elem_of_difference, elem_of_singleton. tauto.
Qed.

End RetentionFacts.

(** * Facts about the driver *)

Section DriverFacts.
Import Retention Driver.
Context `{Collaborators}.

(** ** The monad *)

Lemma bind_run {A B} (m : M A) (f : A → M B) L r :
  (m ≫= f) = (L, r) →
  (∃ e, m = (L, Err e) ∧ r = Err e)
  ∨ (∃ l a l', m = (l, Ok a) ∧ f a = (l', r) ∧ L = l ++ l').
Proof.
  unfold mbind, M_bind, bind. destruct m as [l [a|e]].
  - destruct (f a) as [l' r'] eqn:Hf. intros [= <- <-]. right. eauto 10.
  - intros [= <- <-]. left. eauto.
Qed.

Lemma bind_log {A B} (m : M A) (f : A → M B) :
  (m ≫= f).1
  = m.1 ++ match m.2 with Ok a => (f a).1 | Err _ => [] end.
Proof.
  unfold mbind, M_bind, bind. destruct m as [l [a|e]]; simpl.
  - by destruct (f a).
  - by rewrite app_nil_r.
Qed.

Lemma bind_res {A B} (m : M A) (f : A → M B) :
  (m ≫= f).2 = match m.2 with Ok a => (f a).2 | Err e => Err e end.
Proof.
  unfold mbind, M_bind, bind. destruct m as [l [a|e]]; simpl; [|done].
  by destruct (f a).
Qed.

Lemma ret_log {A} (a : A) : (ret a).1 = [].
Proof. done. Qed.

Lemma ret_res {A} (a : A) : (ret a).2 = Ok a.
Proof. done. Qed.

Lemma bind_ok_log {A B} (m : M A) (f : A → M B) a :
  m.2 = Ok a → (m ≫= f).1 = m.1 ++ (f a).1.
Proof. intros Hm. by rewrite bind_log, Hm. Qed.

Lemma bind_ok_res {A B} (m : M A) (f : A → M B) a :
  m.2 = Ok a → (m ≫= f).2 = (f a).2.
Proof. intros Hm. by rewrite bind_res, Hm. Qed.

Lemma log_all_ret {A} P (a : A) : log_all P (ret a).
Proof. constructor. Qed.

Lemma log_all_raise {A} P e : log_all P (raise e : M A).
Proof. constructor. Qed.

Lemma log_all_emit P ev : P ev → log_all P (emit ev).
Proof. by repeat constructor. Qed.

Lemma log_all_bind {A B} P (m : M A) (f : A → M B) :
  log_all P m → (∀ a, log_all P (f a)) → log_all P (m ≫= f).
Proof.
  unfold log_all. rewrite bind_log. intros Hm Hf.
  apply Forall_app. split; [done|]. destruct m.2; [apply Hf|constructor].
Qed.

Lemma log_all_if {A} P (b : bool) (m1 m2 : M A) :
  log_all P m1 → log_all P m2 → log_all P (if b then m1 else m2).
Proof. by destruct b. Qed.

Lemma log_all_route P t : log_all P (route t).
Proof.
  unfold route. repeat case_decide;
    apply log_all_ret || apply log_all_raise.
Qed.

Lemma log_all_py_mod P x y : log_all P (py_mod x y).
Proof.
  unfold py_mod. apply log_all_if; apply log_all_ret || apply log_all_raise.
Qed.

Ltac log_all :=
  cbv beta;
  repeat first
    [ apply log_all_ret | apply log_all_raise
    | apply log_all_route | apply log_all_py_mod
    | apply log_all_bind; [|intros ?]
    | apply log_all_if
    | apply log_all_emit
    | match goal with |- log_all _ (match ?x with _ => _ end) => destruct x end
    | match goal with |- log_all _ (let '(_, _) := ?x in _) => destruct x end ].

Lemma ret_bind {A B} (a : A) (f : A → M B) : (ret a ≫= f) = f a.
Proof. unfold mbind, M_bind, bind, ret. by destruct (f a). Qed.

Lemma raise_bind {A B} e (f : A → M B) : (raise e ≫= f) = raise e.
Proof. done. Qed.

Lemma emit_bind {B} ev (f : unit → M B) :
  (emit ev ≫= f) = (ev :: (f tt).1, (f tt).2).
Proof. unfold mbind, M_bind, bind, emit. by destruct (f tt). Qed.

Lemma log_all_route_bind {A} P t (k : family → M A) :
  (∀ fam, t ∈ task_class fam → log_all P (k fam)) →
  log_all P (route t ≫= k).
Proof.
  intros Hk. unfold route. repeat case_decide.
  - rewrite ret_bind. by apply Hk.
  - rewrite ret_bind. by apply Hk.
  - rewrite raise_bind. apply log_all_raise.
Qed.

Lemma log_all_eval_loop P ph t n :
  (∀ fam, t ∈ task_class fam → P (Decode ph t fam)) →
  log_all P (eval_loop ph t n).
Proof.
  intros HP. induction n as [|k n IH]; cbn [eval_loop]; [apply log_all_ret|].
  apply log_all_route_bind. intros fam Hfam.
  apply log_all_bind; [apply log_all_emit; auto|intros _].
  apply log_all_bind; [log_all|intros _; exact IH].
Qed.

(** ** One micro-batch *)

Lemma quiet_filter l : Forall quiet l → filter loop_event l = [].
Proof.
  induction 1 as [|ev l Hq _ IH]; [done|].
  rewrite filter_cons_False; [done|]. unfold quiet in Hq. rewrite Hq. simpl. tauto.
Qed.

Lemma eval_round_quiet a ev e s st : log_all quiet (eval_round a ev e s st).
Proof.
  unfold eval_round. apply log_all_bind; [by apply log_all_eval_loop|].
  intros _. log_all; done.
Qed.

Lemma eval_round_step a ev e s st L st' :
  eval_round a ev e s st = (L, Ok st') → global_step st' = global_step st.
Proof.
  unfold eval_round. intros Hrun.
  repeat (apply bind_run in Hrun as [(? & ? & ?)|(? & ? & ? & ? & Hrun & ?)];
          [done|]).
  by injection Hrun as _ <-.
Qed.


Lemma filter_quiet_log {A} (m : M A) : log_all quiet m → filter loop_event m.1 = [].
Proof. apply quiet_filter. Qed.

Lemma update_due_eq a len s :
  gradient_accumulation_steps a ≠ 0 →
  update_due a len s
  = (((Z.of_nat s + 1) `mod` gradient_accumulation_steps a =? 0)
     || (Z.of_nat s =? Z.of_nat len - 1)).
Proof.
  intros Hg. unfold update_due.
  destruct (Z.eqb_spec (gradient_accumulation_steps a) 0); done.
Qed.

Lemma py_mod_zero x y : y = 0 → py_mod x y = raise ZeroDivisionError.
Proof. intros ->. done. Qed.

Lemma py_mod_ok x y : y ≠ 0 → py_mod x y = ret (x `mod` y).
Proof. intros Hy. unfold py_mod. by destruct (Z.eqb_spec y 0). Qed.

Lemma eval_part_quiet a ev e s st :
  log_all quiet
    (match ev with
     | Some ev =>
         r ← py_mod (global_step st) (save_steps a);
         if r =? 0 then eval_round a ev e s st else ret st
     | None => ret st
     end).
Proof.
  destruct ev as [ev|]; [|apply log_all_ret].
  apply log_all_bind; [apply log_all_py_mod|]. intros r.
  apply log_all_if; [apply eval_round_quiet|apply log_all_ret].
Qed.

Lemma eval_part_step a ev e s st st' :
  (match ev with
   | Some ev =>
       r ← py_mod (global_step st) (save_steps a);
       if r =? 0 then eval_round a ev e s st else ret st
   | None => ret st
   end).2 = Ok st' →
  global_step st' = global_step st.
Proof.
  destruct ev as [ev|]; [|by intros [= <-]].
  rewrite bind_res. unfold py_mod.
  destruct (save_steps a =? 0); [done|]. simpl.
  destruct (_ =? 0).
  - destruct (eval_round a ev e s st) as [L r] eqn:Hr. simpl.
    intros ->. by eapply eval_round_step.
  - by intros [= <-].
Qed.

Lemma noise_quiet a e s : log_all quiet (noise a e s).
Proof.
  unfold noise. destruct (mft a); [|apply log_all_ret].
  cbv zeta. destruct (_.1); [by apply log_all_emit|apply log_all_raise].
Qed.

(** A micro-batch that gets past [mask_tokens] does what is expected of
    it: it computes its gradients, and the update follows exactly when one
    is due. *)
Lemma micro_batch_run a len max_steps ev e s st :
  (noise a e s).2 = Ok tt →
  filter loop_event (micro_batch a len max_steps ev e s st).1
  = expected a len (global_step st) [(e, s)]
  ∧ ∀ st' w,
      (micro_batch a len max_steps ev e s st).2 = Ok (st', w) →
      global_step st' = stepped a len (global_step st) s
      ∧ w = (max_steps <=? global_step st').
Proof.
  intros Hnoise. unfold micro_batch, stepped. cbn [expected].
  rewrite (bind_ok_log _ _ tt), (bind_ok_res _ _ tt), filter_app by done.
  rewrite filter_quiet_log by apply noise_quiet. clear Hnoise.
  rewrite emit_bind. cbn [fst snd app].
  rewrite filter_cons_True by done.
  destruct (Z.eq_dec (gradient_accumulation_steps a) 0) as [Hg|Hg].
  { rewrite py_mod_zero by done. unfold update_due. rewrite Hg. by split. }
  rewrite py_mod_ok, ret_bind, update_due_eq by done.
  rewrite bind_log, bind_res.
  assert (∀ st1 : loop_state,
    filter loop_event
      (match ev with
       | Some ev0 =>
           r0 ← py_mod (global_step st1) (save_steps a);
           if r0 =? 0 then eval_round a ev0 e s st1 else ret st1
       | None => ret st1
       end ≫= λ st2, ret (st2, max_steps <=? global_step st2)).1 = []
    ∧ ∀ st' w,
        (match ev with
         | Some ev0 =>
             r0 ← py_mod (global_step st1) (save_steps a);
             if r0 =? 0 then eval_round a ev0 e s st1 else ret st1
         | None => ret st1
         end ≫= λ st2, ret (st2, max_steps <=? global_step st2)).2
        = Ok (st', w) →
        global_step st' = global_step st1
        ∧ w = (max_steps <=? global_step st')) as Htail.
  { intros st1. split.
    - apply filter_quiet_log. apply log_all_bind; [apply eval_part_quiet|].
      intros. apply log_all_ret.
    - intros st' w. rewrite bind_res.
      destruct (_.2) as [st2|] eqn:Hst; [|done].
      intros [= <- <-]. by apply eval_part_step in Hst. }
  destruct (_ || _).
  - rewrite emit_bind. cbn [fst snd app]. rewrite ret_log, ret_res.
    cbn [app]. rewrite filter_cons_True by done.
    destruct (Htail {| global_step := global_step st + 1; best := best st |})
      as [-> Hres].
    split; [done|]. intros st' w Hrun. by apply Hres in Hrun.
  - rewrite ret_log, ret_res. cbn [app].
    destruct (Htail st) as [-> Hres].
    split; [done|]. intros st' w Hrun. by apply Hres in Hrun.
Qed.

(** A micro-batch either ends in [mask_tokens], before any gradient is
    computed, or does what is expected of it. *)
Lemma micro_batch_log a len max_steps ev e s st :
  (∃ err, (micro_batch a len max_steps ev e s st).2 = Err err
          ∧ filter loop_event (micro_batch a len max_steps ev e s st).1 = [])
  ∨ (filter loop_event (micro_batch a len max_steps ev e s st).1
     = expected a len (global_step st) [(e, s)]
     ∧ ∀ st' w,
         (micro_batch a len max_steps ev e s st).2 = Ok (st', w) →
         global_step st' = stepped a len (global_step st) s
         ∧ w = (max_steps <=? global_step st')).
Proof.
  destruct ((noise a e s).2) as [[]|err] eqn:Hnoise.
  - right. by apply micro_batch_run.
  - left. exists err. unfold micro_batch.
    rewrite bind_res, bind_log, Hnoise, app_nil_r.
    split; [done|]. apply filter_quiet_log, noise_quiet.
Qed.

(** ** Runs of micro-batches *)

Lemma advance_app a len g r1 r2 :
  advance a len g (r1 ++ r2) = advance a len (advance a len g r1) r2.
Proof. apply foldl_app. Qed.

Lemma expected_app a len g r1 r2 :
  expected a len g (r1 ++ r2)
  = expected a len g r1 ++ expected a len (advance a len g r1) r2.
Proof.
  revert g. induction r1 as [|[e s] r1 IH]; intros g; [done|].
  cbn [expected app]. unfold advance. cbn [foldl]. unfold stepped.
  destruct (update_due a len s); cbn [app]; by rewrite IH.
Qed.

Lemma expected_cons a len g e s rest :
  expected a len g ((e, s) :: rest)
  = expected a len g [(e, s)] ++ expected a len (stepped a len g s) rest.
Proof. apply (expected_app a len g [(e, s)]). Qed.

Lemma advance_cons a len g e s rest :
  advance a len g ((e, s) :: rest) = advance a len (stepped a len g s) rest.
Proof. done. Qed.

Lemma stops_app a len max_steps g r1 r2 :
  running a len max_steps g r1 →
  stops a len max_steps (advance a len g r1) r2 →
  stops a len max_steps g (r1 ++ r2).
Proof.
  revert g. induction r1 as [|[e s] r1 IH]; intros g; [done|].
  cbn [running stops app]. intros [Hlt Hrun] Hs. split; [lia|].
  by apply IH.
Qed.

Lemma batch_loop_log a len max_steps ev e steps st :
  ∃ ran,
    ran `prefix_of` steps
    ∧ handed_over a len max_steps (global_step st) ((λ s, (e, s)) <$> ran)
        (batch_loop a len max_steps ev e steps st)
        (λ x, global_step x.1) snd
    ∧ ∀ st', (batch_loop a len max_steps ev e steps st).2 = Ok (st', false) →
             ran = steps.
Proof.
  revert st. induction steps as [|s steps IH]; intros st.
  { exists []. split; [done|]. by repeat split. }
  cbn [batch_loop].
  destruct (micro_batch_log a len max_steps ev e s st)
    as [(err & Herr & Hlog)|[Hlog Hres]].
  { exists []. split; [apply prefix_nil|].
    unfold handed_over. rewrite bind_log, bind_res, Herr, app_nil_r.
    by repeat split. }
  set (m := micro_batch a len max_steps ev e s st) in *. clearbody m.
  unfold handed_over. rewrite bind_log, bind_res.
  destruct m as [L [[st1 w]|err]]; cbn [fst snd] in *.
  - destruct (Hres st1 w eq_refl) as [Hg ->].
    destruct (Z.leb_spec max_steps (global_step st1)) as [Hmax|Hmax].
    + exists [s]. split; [by apply prefix_cons, prefix_nil|].
      rewrite ret_log, ret_res, app_nil_r.
      cbn [fst snd fmap list_fmap stops]. rewrite advance_cons, <- Hg.
      repeat split; done.
    + destruct (IH st1) as (ran & Hpre & [Hlog' Hres'] & Hall).
      exists (s :: ran). split; [by apply prefix_cons|].
      rewrite fmap_cons, expected_cons, advance_cons, <- Hg.
      rewrite filter_app, Hlog, Hlog'.
      split; [split; [done|]|].
      * destruct (_.2) as [[st2 w2]|]; cbn [fst snd] in *.
        -- destruct Hres' as [Hgs Hw]. split; [done|].
           destruct w2; cbn [stops running]; rewrite <- Hg;
             (split; [lia|done]).
        -- cbn [stops]. rewrite <- Hg. split; [lia|done].
      * intros st' Hst'. f_equal. by eapply Hall.
  - exists [s]. split; [by apply prefix_cons, prefix_nil|].
    rewrite app_nil_r. cbn [fmap list_fmap stops]. repeat split; done.
Qed.

(** A loop that is left with [wrap] set has reached the budget. *)
Lemma batch_loop_wrap a len max_steps ev e steps st st' :
  (batch_loop a len max_steps ev e steps st).2 = Ok (st', true) →
  max_steps ≤ global_step st'.
Proof.
  revert st. induction steps as [|s steps IH]; intros st; cbn [batch_loop].
  { done. }
  rewrite bind_res.
  destruct (micro_batch_log a len max_steps ev e s st)
    as [(err & -> & _)|[_ Hres]]; [done|].
  destruct (_.2) as [[st1 w]|]; [|done].
  destruct (Hres st1 w eq_refl) as [_ ->].
  destruct (Z.leb_spec max_steps (global_step st1)); [|apply IH].
  by intros [= <-].
Qed.

Lemma epoch_loop_wrapped a len max_steps ev epochs st :
  epoch_loop a len max_steps ev epochs true st = ret st.
Proof. by destruct epochs. Qed.

Lemma prefix_fmap {A B} (f : A → B) l1 l2 :
  l1 `prefix_of` l2 → f <$> l1 `prefix_of` f <$> l2.
Proof. intros [k ->]. exists (f <$> k). apply fmap_app. Qed.

Lemma epoch_loop_log a len max_steps ev epochs wrap st :
  ∃ run,
    run `prefix_of` (e ← epochs; (λ s, (e, s)) <$> seq 0 len)
    ∧ (wrap = true → run = [])
    ∧ filter loop_event (epoch_loop a len max_steps ev epochs wrap st).1
      = expected a len (global_step st) run
    ∧ stops a len max_steps (global_step st) run
    ∧ (∀ st', (epoch_loop a len max_steps ev epochs wrap st).2 = Ok st' →
              global_step st' = advance a len (global_step st) run)
    ∧ (wrap = false →
       ∀ st', (epoch_loop a len max_steps ev epochs wrap st).2 = Ok st' →
              run = (e ← epochs; (λ s, (e, s)) <$> seq 0 len)
              ∨ max_steps ≤ global_step st').
Proof.
  revert wrap st. induction epochs as [|e epochs IH]; intros wrap st.
  { exists []. repeat split; try done; [by intros st' [= <-]|by left]. }
  cbn [epoch_loop]. destruct wrap.
  { exists []. repeat split; try done; [apply prefix_nil|by intros st' [= <-]]. }
  destruct (batch_loop_log a len max_steps ev e (seq 0 len) st)
    as (ran & Hpre & [Hlog Hres] & Hall).
  pose proof (batch_loop_wrap a len max_steps ev e (seq 0 len) st) as Hwrapped.
  set (m := batch_loop a len max_steps ev e (seq 0 len) st) in *. clearbody m.
  rewrite bind_log, bind_res, bind_cons.
  destruct m as [L [[st1 w]|err]]; cbn [fst snd] in *.
  - destruct Hres as [Hgs Hw].
    destruct (IH w st1)
      as (run2 & Hpre2 & Hwrap & Hlog2 & Hstops2 & Hres2 & Hdone2).
    exists (((λ s, (e, s)) <$> ran) ++ run2).
    rewrite filter_app, Hlog, Hlog2, expected_app, advance_app, <- Hgs.
    repeat split; try done.
    + destruct w.
      * rewrite Hwrap, app_nil_r by done. by apply prefix_app_r, prefix_fmap.
      * rewrite (Hall st1) by done. by apply prefix_app.
    + destruct w.
      * by rewrite Hwrap, app_nil_r by done.
      * apply stops_app; [done|]. by rewrite <- Hgs.
    + intros _ st' Hst'. destruct w.
      * right. rewrite epoch_loop_wrapped in Hst'. injection Hst' as <-.
        by apply Hwrapped.
      * destruct (Hdone2 eq_refl st' Hst') as [->|?]; [left|by right].
        by rewrite (Hall st1).
  - exists ((λ s, (e, s)) <$> ran). rewrite app_nil_r.
    repeat split; try done. by apply prefix_app_r, prefix_fmap.
Qed.

(** The training loop runs a prefix of the micro-batches of its epochs;
    gradients and updates occur in its log as the specification expects;
    it stops at the first micro-batch that reaches the budget. *)
Lemma train_log a len max_steps epochs ev fs :
  ∃ run,
    run `prefix_of` all_batches (Z.to_nat epochs) len
    ∧ filter loop_event (train a len max_steps epochs ev fs).1
      = expected a len 0 run
    ∧ stops a len max_steps 0 run
    ∧ (∀ st', (train a len max_steps epochs ev fs).2 = Ok st' →
              global_step st' = advance a len 0 run)
    ∧ (∀ st', (train a len max_steps epochs ev fs).2 = Ok st' →
              run = all_batches (Z.to_nat epochs) len
              ∨ max_steps ≤ global_step st').
Proof.
  unfold train, all_batches.
  destruct (epoch_loop_log a len max_steps ev (seq 0 (Z.to_nat epochs)) false
              {| global_step := 0; best := empty_pool fs |})
    as (run & ? & _ & ? & ? & ? & Hdone).
  exists run. repeat split; try done. by apply Hdone.
Qed.

(** Without evaluation rounds, a micro-batch whose [mask_tokens] does not
    raise returns, and so do the loops. *)
Lemma micro_batch_plain a len max_steps e s st :
  gradient_accumulation_steps a ≠ 0 → (noise a e s).2 = Ok tt →
  (micro_batch a len max_steps None e s st).2
  = Ok ({| global_step := stepped a len (global_step st) s; best := best st |},
        max_steps <=? stepped a len (global_step st) s).
Proof.
  intros Hg Hnoise. unfold micro_batch, stepped.
  rewrite (bind_ok_res _ _ tt) by done.
  rewrite emit_bind. cbn [snd].
  rewrite py_mod_ok, ret_bind, update_due_eq by done.
  destruct (_ || _).
  - rewrite bind_res, emit_bind. cbn [snd]. rewrite ret_res.
    by rewrite !ret_bind.
  - rewrite !ret_bind. by destruct st.
Qed.

Lemma batch_loop_returns a len max_steps e steps st :
  gradient_accumulation_steps a ≠ 0 → (∀ e s, (noise a e s).2 = Ok tt) →
  ∃ st' w, (batch_loop a len max_steps None e steps st).2 = Ok (st', w).
Proof.
  intros Hg Hnoise. revert st.
  induction steps as [|s steps IH]; intros st; cbn [batch_loop]; [by eauto|].
  rewrite bind_res, micro_batch_plain by done.
  destruct (_ <=? _); [by eauto|apply IH].
Qed.

Lemma epoch_loop_returns a len max_steps epochs wrap st :
  gradient_accumulation_steps a ≠ 0 → (∀ e s, (noise a e s).2 = Ok tt) →
  ∃ st', (epoch_loop a len max_steps None epochs wrap st).2 = Ok st'.
Proof.
  intros Hg Hnoise. revert wrap st.
  induction epochs as [|e epochs IH]; intros wrap st; cbn [epoch_loop];
    [by eauto|].
  destruct wrap; [by eauto|]. rewrite bind_res.
  destruct (batch_loop_returns a len max_steps e (seq 0 len) st Hg Hnoise)
    as (st1 & w & ->).
  apply IH.
Qed.

(** After an update that reaches the budget the expected log has ended. *)
Lemma expected_stops a len max_steps g run l1 e s g1 l2 :
  stops a len max_steps g run →
  expected a len g run = l1 ++ OptimizerStep e s g1 :: l2 →
  max_steps ≤ g1 → l2 = [].
Proof.
  revert g l1. induction run as [|[e' s'] run IH]; intros g l1 Hstops Heq Hmax.
  { by destruct l1. }
  cbn [expected stops] in *. destruct Hstops as [Hend Hstops].
  unfold stepped in *. destruct l1 as [|x l1]; [done|].
  injection Heq as <- Heq.
  destruct (update_due a len s').
  - destruct l1 as [|x l1].
    + injection Heq as <- <- <- <-. rewrite Hend by done. done.
    + injection Heq as <- Heq. by eapply IH.
  - by eapply IH.
Qed.

Lemma filter_nil_quiet l : filter loop_event l = [] → Forall quiet l.
Proof.
  induction l as [|ev l IH]; [constructor|].
  unfold quiet. destruct (loop_event ev) eqn:Hev.
  - rewrite filter_cons_True by (by rewrite Hev). done.
  - rewrite filter_cons_False by (rewrite Hev; simpl; tauto). intros Hl.
    constructor; auto.
Qed.

Lemma advance_bound a len max_steps g run :
  stops a len max_steps g run → g ≤ advance a len g run
  ∧ advance a len g run ≤ Z.max max_steps (g + 1).
Proof.
  revert g. induction run as [|[e s] run IH]; intros g.
  { unfold advance. simpl. lia. }
  cbn [stops]. rewrite advance_cons. intros [Hend Hstops].
  assert (g ≤ stepped a len g s ≤ g + 1) as Hs
    by (unfold stepped; destruct (update_due a len s); lia).
  destruct (Z.le_gt_cases max_steps (stepped a len g s)) as [Hmax|Hmax].
  - rewrite Hend by done. unfold advance. simpl. lia.
  - apply IH in Hstops. lia.
Qed.

(** ** The events of [main] *)

Lemma log_all_bind_val {A B} P (m : M A) (f : A → M B) :
  log_all P m → (∀ a, m.2 = Ok a → log_all P (f a)) → log_all P (m ≫= f).
Proof.
  unfold log_all. rewrite bind_log. intros Hm Hf.
  apply Forall_app. split; [done|].
  destruct m.2 eqn:Hr; [by apply Hf|constructor].
Qed.

Lemma log_all_impl {A} (P Q : event → Prop) (m : M A) :
  log_all P m → (∀ x, P x → Q x) → log_all Q m.
Proof. unfold log_all. intros Hm HPQ. eapply Forall_impl; eauto. Qed.

Lemma eval_round_emits a ev0 e s st :
  log_all (loop_emits (Some ev0)) (eval_round a ev0 e s st).
Proof.
  unfold eval_round. apply log_all_bind.
  { apply log_all_eval_loop. intros fam Hfam. simpl. eauto. }
  intros _. do 2 (apply log_all_bind; [log_all|intros _]).
  apply log_all_route_bind. intros fam Hfam.
  log_all; simpl; eauto.
Qed.

Lemma noise_emits a ev e s : log_all (loop_emits ev) (noise a e s).
Proof.
  unfold noise. destruct (mft a); [|apply log_all_ret].
  cbv zeta. destruct (_.1); [by apply log_all_emit|apply log_all_raise].
Qed.

Lemma micro_batch_emits a len max_steps ev e s st :
  log_all (loop_emits ev) (micro_batch a len max_steps ev e s st).
Proof.
  unfold micro_batch. apply log_all_bind; [apply noise_emits|intros _].
  do 2 (apply log_all_bind; [log_all; done|intros ?]).
  apply log_all_bind; [log_all; done|intros st1].
  apply log_all_bind; [|intros; apply log_all_ret].
  destruct ev as [ev0|]; [|apply log_all_ret].
  apply log_all_bind; [apply log_all_py_mod|intros r].
  apply log_all_if; [apply eval_round_emits|apply log_all_ret].
Qed.

Lemma batch_loop_emits a len max_steps ev e steps st :
  log_all (loop_emits ev) (batch_loop a len max_steps ev e steps st).
Proof.
  revert st. induction steps as [|s steps IH]; intros st; cbn [batch_loop].
  { apply log_all_ret. }
  apply log_all_bind; [apply micro_batch_emits|].
  intros [st1 [|]]; [apply log_all_ret|apply IH].
Qed.

Lemma epoch_loop_emits a len max_steps ev epochs wrap st :
  log_all (loop_emits ev) (epoch_loop a len max_steps ev epochs wrap st).
Proof.
  revert wrap st.
  induction epochs as [|e epochs IH]; intros wrap st; cbn [epoch_loop].
  { apply log_all_ret. }
  destruct wrap; [apply log_all_ret|].
  apply log_all_bind; [apply batch_loop_emits|].
  intros [st1 w]. apply IH.
Qed.

Lemma train_emits a len max_steps epochs ev fs :
  log_all (loop_emits ev) (train a len max_steps epochs ev fs).
Proof. apply epoch_loop_emits. Qed.

Lemma check_task_names_silent P names : log_all P (check_task_names names).
Proof.
  induction names as [|t names IH]; cbn [check_task_names].
  { apply log_all_ret. }
  case_decide; [apply log_all_raise|done].
Qed.

Lemma build_processors_silent P names procs :
  log_all P (build_processors names procs).
Proof.
  revert procs. induction names as [|t names IH]; intros procs;
    cbn [build_processors]; [apply log_all_ret|].
  destruct (processors_all !! t); [apply IH|apply log_all_raise].
Qed.

Lemma DataLoader_silent P n bs : log_all P (DataLoader n bs).
Proof. unfold DataLoader. log_all. Qed.

Lemma ceil_div_silent P x y : log_all P (ceil_div x y).
Proof. unfold ceil_div. log_all. Qed.

Lemma int_of_product_silent P x n : log_all P (int_of_product x n).
Proof. unfold int_of_product. log_all. Qed.

Lemma schedule_silent P a len : log_all P (schedule a len).
Proof.
  unfold schedule. apply log_all_bind; [apply ceil_div_silent|intros n].
  destruct (max_train_steps a).
  - apply log_all_bind; [apply ceil_div_silent|intros; apply log_all_ret].
  - apply log_all_bind; [apply int_of_product_silent|].
    intros; apply log_all_ret.
Qed.

Lemma floordiv_silent P x y : log_all P (floordiv x y).
Proof. unfold floordiv. log_all. Qed.

Lemma seed_everything_silent P z : log_all P (seed_everything z).
Proof. unfold seed_everything. log_all. Qed.

Lemma make_output_dir_silent P a : log_all P (make_output_dir a).
Proof. unfold make_output_dir. log_all. Qed.

Lemma save_train_args_emits (P : event → Prop) a :
  P SaveArgs → log_all P (save_train_args a).
Proof. intros HP. unfold save_train_args. log_all. done. Qed.

Lemma convert_emits a ph t examples :
  first_task a ph t → source_of a ph t examples →
  log_all (main_emits a) (convert ph a t examples).
Proof.
  intros Hfirst Hsrc. unfold convert.
  apply log_all_route_bind. intros [|] Hfam; log_all; simpl; done.
Qed.

Lemma load_train_emits a procs train_on_dataset :
  log_all (main_emits a) (load_train a procs train_on_dataset).
Proof.
  induction procs as [|[t p] procs IH]; cbn [load_train].
  { apply log_all_ret. }
  destruct (train_on_dataset !! t) as [train_on|]; [|apply log_all_raise].
  apply log_all_bind; [by apply log_all_emit|intros _].
  apply log_all_bind; [apply convert_emits; simpl; eauto|intros features].
  apply log_all_bind; [apply IH|intros; apply log_all_ret].
Qed.

Lemma load_eval_emits a ph procs split :
  ph ≠ Train →
  split = (match ph with Eval => eval_on a | _ => test_on a end) →
  log_all (main_emits a) (load_eval ph a procs split)
  ∧ ∀ ev, (load_eval ph a procs split).2 = Ok ev →
          head (task_names a) = Some (eval_task ev).
Proof.
  intros Hph ->. unfold load_eval.
  destruct (task_names a) as [|t names] eqn:Hnames.
  { split; [apply log_all_raise|done]. }
  destruct (dict_get t procs) as [p|]; [|split; [apply log_all_raise|done]].
  split.
  - apply log_all_bind.
    { apply log_all_emit. simpl. by rewrite Hnames. }
    intros _. apply log_all_bind.
    { apply convert_emits.
      - destruct ph; simpl; by rewrite ?Hnames.
      - destruct ph; simpl; eauto. done. }
    intros features.
    apply log_all_bind; [apply DataLoader_silent|intros; apply log_all_ret].
  - intros ev. rewrite emit_bind. cbn [snd]. rewrite bind_res.
    destruct (_.2); [|done]. rewrite bind_res.
    destruct (_.2); [|done]. by intros [= <-].
Qed.

Lemma loop_emits_main a ev x :
  (∀ ev0, ev = Some ev0 → head (task_names a) = Some (eval_task ev0)) →
  loop_emits ev x → main_emits a x.
Proof.
  intros Hev. destruct x; simpl; try done.
  - destruct ph; try done. intros [(ev0 & Hev0 & ->) Hfam].
    repeat split; try done. by apply Hev.
  - destruct ph; try done. intros [(ev0 & Hev0 & ->) Hfam].
    repeat split; try done. by apply Hev.
Qed.

Lemma test_emits a procs : log_all (main_emits a) (test a procs).
Proof.
  unfold test.
  destruct (load_eval_emits a Test procs (test_on a)) as [Hlog Hval];
    [done..|].
  apply log_all_bind_val; [done|]. intros ev Hev%Hval.
  apply log_all_bind.
  { apply log_all_eval_loop. intros fam Hfam. by simpl. }
  intros _. apply log_all_bind; [log_all|intros _].
  apply log_all_route_bind. intros fam Hfam. by apply log_all_emit.
Qed.

Lemma main_log a fs : log_all (main_emits a) (main a fs).
Proof.
  unfold main.
  apply log_all_bind; [apply floordiv_silent|intros batch_size].
  apply log_all_bind; [apply seed_everything_silent|intros _].
  apply log_all_bind; [apply make_output_dir_silent|intros _].
  apply log_all_bind; [by apply save_train_args_emits|intros _].
  apply log_all_bind; [apply check_task_names_silent|intros _].
  apply log_all_bind; [apply build_processors_silent|intros procs].
  apply log_all_bind.
  - destruct (do_train a); [|apply log_all_ret].
    apply log_all_bind; [apply load_train_emits|intros features].
    apply log_all_bind; [apply DataLoader_silent|intros len].
    apply log_all_bind; [apply schedule_silent|intros [max_steps epochs]].
    destruct (print_para_names a); [apply log_all_ret|].
    apply log_all_bind_val.
    + destruct (do_eval a); [|apply log_all_ret].
      apply log_all_bind; [|intros; apply log_all_ret].
      by apply load_eval_emits.
    + intros ev Hev. apply log_all_bind; [|intros; apply log_all_ret].
      eapply log_all_impl; [apply train_emits|].
      intros x. apply loop_emits_main. intros ev0 ->.
      destruct (do_eval a); [|done]. rewrite bind_res in Hev.
      destruct (load_eval_emits a Eval procs (eval_on a)) as [_ Hval];
        [done..|].
      destruct (_.2) as [ev1|] eqn:Hev1; [|done].
      injection Hev as ->. by apply Hval.
  - intros [|]; [|apply log_all_ret].
    destruct (do_test a); [apply test_emits|apply log_all_ret].
Qed.

(** ** Unknown task names *)

Lemma raises_only_ret {A} P (a : A) : raises_only P (ret a).
Proof. by intros e. Qed.

Lemma raises_only_emit P ev : raises_only P (emit ev).
Proof. by intros e. Qed.

Lemma raises_only_raise {A} (P : exn → Prop) e :
  P e → raises_only P (raise e : M A).
Proof. by intros He e' [= <-]. Qed.

Lemma raises_only_bind {A B} P (m : M A) (f : A → M B) :
  raises_only P m → (∀ a, raises_only P (f a)) → raises_only P (m ≫= f).
Proof.
  unfold raises_only. rewrite bind_res. intros Hm Hf e.
  destruct m.2 as [a|e'] eqn:Hr; [apply Hf|]. intros [= <-]. by apply Hm.
Qed.

Lemma raises_only_if {A} P (b : bool) (m1 m2 : M A) :
  raises_only P m1 → raises_only P m2 → raises_only P (if b then m1 else m2).
Proof. by destruct b. Qed.

Lemma other_ZeroDivisionError : other_error ZeroDivisionError.
Proof. by intros [t Ht]. Qed.

Lemma other_KeyError k : other_error (KeyError k).
Proof. by intros [t Ht]. Qed.

Lemma other_IndexError : other_error IndexError.
Proof. by intros [t Ht]. Qed.

Lemma other_AssertionError : other_error AssertionError.
Proof. by intros [t Ht]. Qed.

Lemma other_FileNotFoundError p : other_error (FileNotFoundError p).
Proof. by intros [t Ht]. Qed.

Lemma other_batch_size :
  other_error (ValueError "batch_size should be a positive integer value").
Proof. by intros [t Ht]. Qed.

Lemma other_num_samples :
  other_error
    (ValueError
       "num_samples should be a positive integer value, but got num_samples=0").
Proof. by intros [t Ht]. Qed.

Lemma other_OverflowError : other_error OverflowError.
Proof. by intros [t Ht]. Qed.

Lemma other_TypeError msg : other_error (TypeError msg).
Proof. by intros [t Ht]. Qed.

Lemma other_seed :
  other_error (ValueError "Seed must be between 0 and 2**32 - 1").
Proof. by intros [t Ht]. Qed.

Lemma other_os_exn e : other_error (os_exn e).
Proof. intros [t Ht]. by destruct e. Qed.

Ltac raises_only :=
  cbv beta;
  repeat first
    [ apply raises_only_ret | apply raises_only_emit
    | apply raises_only_raise;
      first [ apply other_ZeroDivisionError | apply other_KeyError
            | apply other_IndexError | apply other_AssertionError
            | apply other_FileNotFoundError | apply other_batch_size
            | apply other_seed | apply other_os_exn
            | apply other_num_samples | apply other_OverflowError
            | apply other_TypeError ]
    | apply raises_only_bind; [|intros ?]
    | apply raises_only_if
    | match goal with
      | |- raises_only _ (match ?x with _ => _ end) => destruct x
      end ].

Lemma route_raises t : raises_only other_error (route t).
Proof. unfold route. repeat case_decide; raises_only. Qed.

Lemma py_mod_raises x y : raises_only other_error (py_mod x y).
Proof. unfold py_mod. raises_only. Qed.

Lemma seed_everything_raises z : raises_only other_error (seed_everything z).
Proof. unfold seed_everything. raises_only. Qed.

Lemma make_output_dir_raises a : raises_only other_error (make_output_dir a).
Proof. unfold make_output_dir. raises_only. Qed.

Lemma save_train_args_raises a : raises_only other_error (save_train_args a).
Proof. unfold save_train_args. raises_only. Qed.

Lemma floordiv_raises x y : raises_only other_error (floordiv x y).
Proof. unfold floordiv. raises_only. Qed.

Lemma ceil_div_raises x y : raises_only other_error (ceil_div x y).
Proof. unfold ceil_div. raises_only. Qed.

Lemma int_of_product_raises x n :
  raises_only other_error (int_of_product x n).
Proof. unfold int_of_product. raises_only. Qed.

Lemma DataLoader_raises n bs : raises_only other_error (DataLoader n bs).
Proof. unfold DataLoader. raises_only. Qed.

Lemma eval_loop_raises ph t n : raises_only other_error (eval_loop ph t n).
Proof.
  induction n as [|k n IH]; cbn [eval_loop]; [apply raises_only_ret|].
  apply raises_only_bind; [apply route_raises|intros fam].
  apply raises_only_bind; [apply raises_only_emit|intros _].
  apply raises_only_bind; [raises_only|intros _; exact IH].
Qed.

Lemma retain_raises f1 path p e :
  raised (retain f1 path p) = Some e → other_error e.
Proof.
  unfold retain. destruct (3 <? _)%nat; [|done].
  destruct (pop _) as [[l' [f rm]]|].
  - case_decide; [done|]. intros [= <-]. apply other_FileNotFoundError.
  - intros [= <-]. apply other_IndexError.
Qed.

Lemma eval_round_raises a ev e s st :
  raises_only other_error (eval_round a ev e s st).
Proof.
  unfold eval_round.
  apply raises_only_bind; [apply eval_loop_raises|intros _].
  do 2 (apply raises_only_bind; [raises_only|intros _]).
  apply raises_only_bind; [apply route_raises|intros fam].
  cbv zeta. apply raises_only_bind; [apply raises_only_emit|intros _].
  apply raises_only_bind; [raises_only|intros _].
  apply raises_only_bind; [|intros _; raises_only].
  destruct (raised _) as [err|] eqn:Hr; [|apply raises_only_ret].
  apply raises_only_raise. by eapply retain_raises.
Qed.

Lemma noise_raises a e s : raises_only other_error (noise a e s).
Proof.
  unfold noise. destruct (mft a); [|apply raises_only_ret].
  cbv zeta. destruct (_.1) as [out|err] eqn:Hcall; [apply raises_only_emit|].
  apply raises_only_raise.
  apply mask_tokens_raises in Hcall as [->|[msg ->]]; by intros [t Ht].
Qed.

Lemma micro_batch_raises a len max_steps ev e s st :
  raises_only other_error (micro_batch a len max_steps ev e s st).
Proof.
  unfold micro_batch.
  apply raises_only_bind; [apply noise_raises|intros _].
  apply raises_only_bind; [raises_only|intros _].
  apply raises_only_bind; [apply py_mod_raises|intros r].
  apply raises_only_bind; [raises_only|intros st1].
  apply raises_only_bind; [|intros ?; raises_only].
  destruct ev as [ev0|]; [|apply raises_only_ret].
  apply raises_only_bind; [apply py_mod_raises|intros r'].
  apply raises_only_if; [apply eval_round_raises|apply raises_only_ret].
Qed.

Lemma batch_loop_raises a len max_steps ev e steps st :
  raises_only other_error (batch_loop a len max_steps ev e steps st).
Proof.
  revert st. induction steps as [|s steps IH]; intros st; cbn [batch_loop].
  { apply raises_only_ret. }
  apply raises_only_bind; [apply micro_batch_raises|].
  intros [st1 [|]]; [apply raises_only_ret|apply IH].
Qed.

Lemma epoch_loop_raises a len max_steps ev epochs wrap st :
  raises_only other_error (epoch_loop a len max_steps ev epochs wrap st).
Proof.
  revert wrap st.
  induction epochs as [|e epochs IH]; intros wrap st; cbn [epoch_loop].
  { apply raises_only_ret. }
  destruct wrap; [apply raises_only_ret|].
  apply raises_only_bind; [apply batch_loop_raises|].
  intros [st1 w]. apply IH.
Qed.

Lemma build_processors_raises names procs :
  raises_only other_error (build_processors names procs).
Proof.
  revert procs. induction names as [|t names IH]; intros procs;
    cbn [build_processors]; [apply raises_only_ret|].
  destruct (processors_all !! t); [apply IH|intros ?; raises_only].
Qed.

Lemma convert_raises ph a t examples :
  raises_only other_error (convert ph a t examples).
Proof.
  unfold convert. apply raises_only_bind; [apply route_raises|].
  intros [|]; raises_only.
Qed.

Lemma load_train_raises a procs train_on_dataset :
  raises_only other_error (load_train a procs train_on_dataset).
Proof.
  induction procs as [|[t p] procs IH]; cbn [load_train].
  { apply raises_only_ret. }
  destruct (train_on_dataset !! t) as [train_on|]; [|raises_only].
  apply raises_only_bind; [apply raises_only_emit|intros _].
  apply raises_only_bind; [apply convert_raises|intros features].
  apply raises_only_bind; [apply IH|intros ?; raises_only].
Qed.

Lemma load_eval_raises ph a procs split :
  raises_only other_error (load_eval ph a procs split).
Proof.
  unfold load_eval. destruct (task_names a) as [|t names]; [raises_only|].
  destruct (dict_get t procs) as [p|]; [|raises_only].
  apply raises_only_bind; [apply raises_only_emit|intros _].
  apply raises_only_bind; [apply convert_raises|intros features].
  apply raises_only_bind; [apply DataLoader_raises|intros ?; raises_only].
Qed.

Lemma schedule_raises a len : raises_only other_error (schedule a len).
Proof.
  unfold schedule. apply raises_only_bind; [apply ceil_div_raises|intros n].
  destruct (max_train_steps a).
  - apply raises_only_bind; [apply ceil_div_raises|intros ?; raises_only].
  - apply raises_only_bind; [apply int_of_product_raises|].
    intros ?; raises_only.
Qed.

Lemma test_raises a procs : raises_only other_error (test a procs).
Proof.
  unfold test. apply raises_only_bind; [apply load_eval_raises|intros ev].
  apply raises_only_bind; [apply eval_loop_raises|intros _].
  apply raises_only_bind; [raises_only|intros _].
  apply raises_only_bind; [apply route_raises|intros ?; raises_only].
Qed.

Lemma check_task_names_known names :
  Forall (λ t, is_Some (processors_all !! t)) names →
  check_task_names names = ret tt.
Proof.
  induction 1 as [|t names [p Hp] _ IH]; cbn [check_task_names]; [done|].
  rewrite decide_False; [done|]. by rewrite Hp.
Qed.

Lemma check_task_names_unknown names :
  Exists (λ t, processors_all !! t = None) names →
  ∃ t, t ∈ names ∧ processors_all !! t = None
       ∧ check_task_names names
         = raise (ValueError ("Task not found: " +:+ t)).
Proof.
  induction names as [|t names IH]; [by intros ?%Exists_nil|].
  intros Hex. cbn [check_task_names]. case_decide as Ht.
  - exists t. repeat split; [left|done].
  - apply Exists_cons in Hex as [?|Hex]; [done|].
    destruct (IH Hex) as (t' & ? & ? & ?). exists t'.
    repeat split; [by right|done..].
Qed.

Lemma floordiv_ok x y : y ≠ 0 → floordiv x y = ret (x `div` y).
Proof. intros Hy. unfold floordiv. by destruct (Z.eqb_spec y 0). Qed.

Lemma main_known_tasks a fs :
  Forall (λ t, is_Some (processors_all !! t)) (task_names a) →
  raises_only other_error (main a fs).
Proof.
  intros Hknown. unfold main. rewrite check_task_names_known by done.
  apply raises_only_bind; [apply floordiv_raises|intros batch_size].
  apply raises_only_bind; [apply seed_everything_raises|intros _].
  apply raises_only_bind; [apply make_output_dir_raises|intros _].
  apply raises_only_bind; [apply save_train_args_raises|intros _].
  apply raises_only_bind; [apply raises_only_ret|intros _].
  apply raises_only_bind; [apply build_processors_raises|intros procs].
  apply raises_only_bind.
  - destruct (do_train a); [|apply raises_only_ret].
    apply raises_only_bind; [apply load_train_raises|intros features].
    apply raises_only_bind; [apply DataLoader_raises|intros len].
    apply raises_only_bind; [apply schedule_raises|intros [max_steps epochs]].
    destruct (print_para_names a); [apply raises_only_ret|].
    apply raises_only_bind.
    + destruct (do_eval a); [|apply raises_only_ret].
      apply raises_only_bind; [apply load_eval_raises|intros ?; raises_only].
    + intros ev. apply raises_only_bind; [apply epoch_loop_raises|intros ?; raises_only].
  - intros [|]; [|apply raises_only_ret].
    destruct (do_test a); [apply test_raises|apply raises_only_ret].
Qed.

Lemma start_up a :
  starts_up a →
  seed_everything (seed a) = ret tt
  ∧ make_output_dir a = ret tt
  ∧ save_train_args a = if do_train a then emit SaveArgs else ret tt.
Proof.
  intros (Hseed & Hdir & Hsave). repeat split.
  - unfold seed_everything.
    destruct (Z.leb_spec 0 (seed a)); [|lia].
    destruct (Z.ltb_spec (seed a) (2 ^ 32)); [done|lia].
  - unfold make_output_dir. destruct Hdir as [-> | ->]; [done|].
    by destruct (path_exists _).
  - unfold save_train_args. destruct (do_train a); [|done].
    by rewrite Hsave.
Qed.

Lemma main_unknown_task a fs :
  gradient_accumulation_steps a ≠ 0 → starts_up a →
  Exists (λ t, processors_all !! t = None) (task_names a) →
  ∃ t, t ∈ task_names a ∧ processors_all !! t = None
       ∧ main a fs = (if do_train a then [SaveArgs] else [],
                      Err (ValueError ("Task not found: " +:+ t))).
Proof.
  intros Hgas (Hseed & Hdir & Hsave)%start_up Hex.
  destruct (check_task_names_unknown _ Hex) as (t & Hin & Hnone & Hcheck).
  exists t. repeat split; try done.
  unfold main. rewrite floordiv_ok, ret_bind, Hcheck by done.
  rewrite Hseed, ret_bind, Hdir, ret_bind, Hsave.
  destruct (do_train a).
  - by rewrite emit_bind, raise_bind.
  - by rewrite ret_bind, raise_bind.
Qed.

(** ** The claims about the training loop *)

Lemma expected_nil a len g run : expected a len g run = [] → run = [].
Proof. by destruct run as [|[e s] run]. Qed.

Lemma expected_update a len g0 run e s g :
  OptimizerStep e s g ∈ expected a len g0 run →
  update_due a len s = true ∧ Backward e s (g - 1) ∈ expected a len g0 run.
Proof.
  revert g0. induction run as [|[e' s'] run IH]; intros g0; cbn [expected].
  { by intros ?%elem_of_nil. }
  intros [?|Hin]%elem_of_cons; [done|].
  destruct (update_due a len s') eqn:Hdue.
  - apply elem_of_cons in Hin as [[= -> -> ->]|Hin].
    + split; [done|]. replace (g0 + 1 - 1) with g0 by lia. left.
    + destruct (IH _ Hin) as [? ?]. split; [done|]. by do 2 right.
  - destruct (IH _ Hin) as [? ?]. split; [done|]. by right.
Qed.

Lemma expected_backward a len g0 run e s g :
  Backward e s g ∈ expected a len g0 run →
  update_due a len s = true →
  OptimizerStep e s (g + 1) ∈ expected a len g0 run.
Proof.
  revert g0. induction run as [|[e' s'] run IH]; intros g0; cbn [expected].
  { by intros ?%elem_of_nil. }
  intros [[= -> -> ->]|Hin]%elem_of_cons Hdue.
  - rewrite Hdue. right; left.
  - destruct (update_due a len s').
    + apply elem_of_cons in Hin as [?|Hin]; [done|].
      do 2 right. by apply IH.
    + right. by apply IH.
Qed.

Lemma expected_last a len g0 run l e s g :
  expected a len g0 run = l ++ [OptimizerStep e s g] →
  advance a len g0 run = g.
Proof.
  revert g0 l. induction run as [|[e' s'] run IH]; intros g0 l.
  { by destruct l. }
  cbn [expected]. rewrite advance_cons. unfold stepped.
  destruct l as [|x l]; [done|]. intros [= <- Heq].
  destruct (update_due a len s'); [|by eapply IH].
  destruct l as [|x l].
  - injection Heq as <- <- <- Heq.
    apply expected_nil in Heq as ->. done.
  - injection Heq as <- Heq. by eapply IH.
Qed.

Lemma loop_event_filter (l : list event) x :
  loop_event x = true → x ∈ filter loop_event l ↔ x ∈ l.
Proof.
  intros Hx. rewrite list_elem_of_filter, Hx. simpl. tauto.
Qed.

(** C4: global step and parameter updates. The training loop runs a
    prefix of the micro-batches of its epochs, and in its log the gradient
    and update events are those that the specification expects for that
    run: each micro-batch computes gradients at the current global step,
    and the update that takes the global step exactly one further follows
    exactly when [(step + 1) % gradient_accumulation_steps == 0] or the
    micro-batch is the last of its epoch; the global step changes nowhere
    else, and the loop ends with the global step that the run gives.  The
    micro-batches are indeed run: a loop that ends without exception has
    run all the micro-batches of its epochs or has reached the budget;
    without evaluation rounds, when [mask_tokens] does not raise and the
    accumulation factor is not 0, the loop does end without exception; and
    every micro-batch that gets past [mask_tokens] computes its gradients
    and performs the update exactly when one is due. *)
Theorem train_global_step a len max_steps epochs ev fs :
  ∃ run,
    run `prefix_of` all_batches (Z.to_nat epochs) len
    ∧ filter loop_event (train a len max_steps epochs ev fs).1
      = expected a len 0 run
    ∧ (∀ st, (train a len max_steps epochs ev fs).2 = Ok st →
             global_step st = advance a len 0 run)
    ∧ (∀ e s g,
          OptimizerStep e s g ∈ (train a len max_steps epochs ev fs).1 →
          update_due a len s = true
          ∧ Backward e s (g - 1) ∈ (train a len max_steps epochs ev fs).1)
    ∧ (∀ e s g,
          Backward e s g ∈ (train a len max_steps epochs ev fs).1 →
          update_due a len s = true →
          OptimizerStep e s (g + 1) ∈ (train a len max_steps epochs ev fs).1)
    ∧ (∀ st, (train a len max_steps epochs ev fs).2 = Ok st →
             run = all_batches (Z.to_nat epochs) len
             ∨ max_steps ≤ global_step st)
    ∧ (gradient_accumulation_steps a ≠ 0 →
       (∀ e s, (noise a e s).2 = Ok tt) → ev = None →
       ∃ st, (train a len max_steps epochs ev fs).2 = Ok st)
    ∧ (∀ e s st,
          (noise a e s).2 = Ok tt →
          filter loop_event (micro_batch a len max_steps ev e s st).1
          = expected a len (global_step st) [(e, s)]
          ∧ ∀ st' w,
              (micro_batch a len max_steps ev e s st).2 = Ok (st', w) →
              global_step st' = stepped a len (global_step st) s).
Proof.
  destruct (train_log a len max_steps epochs ev fs)
    as (run & Hpre & Hlog & _ & Hres & Hdone).
  exists run. do 3 (split; [done|]).
  assert (∀ x, loop_event x = true →
               x ∈ (train a len max_steps epochs ev fs).1
               ↔ x ∈ expected a len 0 run) as Hmem.
  { intros x Hx. by rewrite <- Hlog, loop_event_filter. }
  split; [|split; [|split; [done|split]]].
  - intros e s g Hin. apply Hmem in Hin; [|done].
    destruct (expected_update _ _ _ _ _ _ _ Hin) as [Hdue Hb].
    split; [done|]. by apply Hmem.
  - intros e s g Hin Hdue. apply Hmem; [done|].
    apply expected_backward; [|done]. by apply Hmem in Hin.
  - intros Hg Hnoise ->. by apply epoch_loop_returns.
  - intros e s st Hnoise.
    destruct (micro_batch_run a len max_steps ev e s st Hnoise) as [Hrun Hst].
    split; [done|]. intros st' w Hok. by destruct (Hst st' w Hok).
Qed.

(** C5: the step budget. Once an update has taken the global step to
    [max_train_steps] or beyond, the log holds no further micro-batch and no
    further update (what follows is the evaluation round of that
    micro-batch, if any), in this epoch or a later one, and the loop ends
    with that global step; so the loop never ends above
    [max(max_train_steps, 1)]. *)
Theorem train_stops_at_budget a len max_steps epochs ev fs :
  (∀ l1 e s g l2,
      (train a len max_steps epochs ev fs).1
      = l1 ++ OptimizerStep e s g :: l2 →
      max_steps ≤ g →
      Forall (λ x, loop_event x = false) l2
      ∧ ∀ st, (train a len max_steps epochs ev fs).2 = Ok st →
              global_step st = g)
  ∧ (∀ st, (train a len max_steps epochs ev fs).2 = Ok st →
           global_step st ≤ Z.max max_steps 1).
Proof.
  destruct (train_log a len max_steps epochs ev fs)
    as (run & Hpre & Hlog & Hstops & Hres & _).
  split.
  - intros l1 e s g l2 Hsplit Hmax. rewrite Hsplit in Hlog.
    rewrite filter_app, filter_cons_True in Hlog by done.
    symmetry in Hlog.
    pose proof (expected_stops _ _ _ _ _ _ _ _ _ _ Hstops Hlog Hmax) as Hl2.
    split; [by apply filter_nil_quiet|].
    intros st Hst. rewrite (Hres st Hst). rewrite Hl2 in Hlog.
    by eapply expected_last.
  - intros st Hst. rewrite (Hres st Hst).
    apply advance_bound in Hstops. lia.
Qed.

(** ** The claims about [main] *)

(** C6: evaluation of the first task only. In every run, every loading of
    evaluation or test data, every conversion of such data, every decoded
    evaluation batch and every result line is for the first entry of the
    task-name list, with the data directory of that task and the split
    [eval_on], respectively [test_on]; the decoding is the one of the family
    of that task. *)
Theorem evaluation_first_task_only a fs :
  Forall (λ x,
      match x with
      | GetTestExamples ph t _ dir split =>
          head (task_names a) = Some t
          ∧ dir = path_join (data_dir a) t
          ∧ split = (match ph with Eval => eval_on a | _ => test_on a end)
      | CscConvert ph t _ | SeqConvert ph t _ _ =>
          ph ≠ Train → head (task_names a) = Some t
      | Decode _ t fam | WriteResults _ t fam =>
          head (task_names a) = Some t ∧ t ∈ task_class fam
      | _ => True
      end) (main a fs).1.
Proof.
  eapply Forall_impl; [apply main_log|].
  intros [] Hx; simpl in *; try done; try tauto.
  - destruct ph; simpl in *; tauto.
  - destruct ph; simpl in *; tauto.
Qed.

(** C7, as the code has it: a label list per split. In every run, the
    label list of every conversion of SEQ examples is the one that
    [InputExample.get_label_list] gives for the very examples converted:
    the training examples of the task when training features are built, the
    examples of the [eval_on] split when evaluation features are built,
    those of the [test_on] split for the test. *)
Theorem label_list_per_split a fs :
  Forall (λ x,
      match x with
      | SeqConvert ph t examples label_list =>
          label_list = get_label_list examples ∧ source_of a ph t examples
      | _ => True
      end) (main a fs).1.
Proof.
  eapply Forall_impl; [apply main_log|].
  intros [] Hx; simpl in *; try done; tauto.
Qed.

(** C8, as the code has it: unknown task names. When
    [gradient_accumulation_steps] is not 0 and the start-up of lines 145-155
    goes through (the seed is within [0, 2**32 - 1], the output directory
    exists or can be created, and [train_args.bin] can be written when
    [do_train] is set), and some task name is not a key of [processors_all],
    the run ends with [ValueError("Task not found: ...")] for such a name,
    and all it has logged before is the saving of the arguments when
    [do_train] is set: no data is loaded and no features are converted.
    In every configuration whose task names are all keys of
    [processors_all], that error is not raised. *)
Theorem unknown_task_is_fatal a fs :
  (gradient_accumulation_steps a ≠ 0 → starts_up a →
   Exists (λ t, processors_all !! t = None) (task_names a) →
   ∃ t, t ∈ task_names a ∧ processors_all !! t = None
        ∧ main a fs = (if do_train a then [SaveArgs] else [],
                       Err (ValueError ("Task not found: " +:+ t))))
  ∧ (Forall (λ t, is_Some (processors_all !! t)) (task_names a) →
     ∀ e, (main a fs).2 = Err e → ¬ task_not_found e).
Proof.
  split.
  - intros Hgas Hstart. by apply main_unknown_task.
  - intros Hknown e He. by apply (main_known_tasks a fs Hknown).
Qed.
End DriverFacts.

(** * The claims at the sample inputs *)

Section AtSamples.
Import Noise Retention Driver Samples.
#[local] Existing Instance small_world.

(** The scenario of the specification: under mode "error" the clean row
    is left alone and only the wrong character of the second row is masked;
    the SEQ row is never touched. *)
Example mask_tokens_error_sample :
  (@mask_tokens bert_tokenizer sample_store 0%nat 1%nat 2%nat
     "error" (1 # 5) always).2 !! 3%nat
  = Some (Long2 [[101; 872; 1962; 1408; 102];
                 [101; 872; 1962; 103; 102];
                 [101; 872; 1962; 102; 0]]).
Proof. by vm_compute. Qed.

Example mask_tokens_noerror_sample :
  (@mask_tokens bert_tokenizer sample_store 0%nat 1%nat 2%nat
     "noerror" (1 # 5) always).2 !! 3%nat
  = Some (Long2 [[101; 103; 103; 103; 102];
                 [101; 103; 103; 7716; 102];
                 [101; 872; 1962; 102; 0]]).
Proof. by vm_compute. Qed.

Lemma mask_tokens_mode_filter_witness :
  ∃ out h' x y m,
    @mask_tokens bert_tokenizer sample_store 0%nat 1%nat 2%nat
      "error" (1 # 5) always = (Ok out, h')
    ∧ sample_store !! 0%nat = Some (Long2 x)
    ∧ sample_store !! 1%nat = Some (Long2 y)
    ∧ h' !! out = Some (Long2 (@index_put x m (@mask_token_id bert_tokenizer)))
    ∧ ∀ i j, at2 m i j = Some true →
             ∃ v w, at2 x i j = Some v ∧ at2 y i j = Some w ∧ v ≠ w.
Proof.
  destruct (@mask_tokens_mode_filter bert_tokenizer sample_store
              0%nat 1%nat 2%nat "error" (1 # 5) always) as [Hsel Hreturns].
  destruct (Hreturns sample_inputs sample_targets sample_task_ids)
    as (out & h' & Hrun);
    [reflexivity | reflexivity | reflexivity | reflexivity | reflexivity
    | discriminate | discriminate | right; reflexivity |].
  destruct (Hsel out h' Hrun)
    as (x & y & t & m & Hx & Hy & Ht & Hm & Hout & _ & Herror & _).
  exists out, h', x, y, m. repeat split; try assumption.
  apply Herror. reflexivity.
Defined.

Lemma mask_tokens_spares_witness :
  ∃ out h' x t m,
    @mask_tokens bert_tokenizer sample_store 0%nat 1%nat 2%nat
      "all" (1 # 5) always = (Ok out, h')
    ∧ sample_store !! 0%nat = Some (Long2 x)
    ∧ sample_store !! 2%nat = Some (Long1 t)
    ∧ h' !! out = Some (Long2 (@index_put x m (@mask_token_id bert_tokenizer)))
    ∧ (∀ i j, at2 m i j = Some true →
              t !! i = Some 1
              ∧ ∃ v, at2 x i j = Some v
                     ∧ v ∉ @all_special_ids bert_tokenizer)
    ∧ ∀ i ti row, t !! i = Some ti → ti ≠ 1 → x !! i = Some row →
                  @index_put x m (@mask_token_id bert_tokenizer) !! i
                  = Some row.
Proof.
  destruct (@mask_tokens_spares bert_tokenizer sample_store
              0%nat 1%nat 2%nat "all" (1 # 5) always) as [Hsel Hreturns].
  destruct (Hreturns sample_inputs sample_targets sample_task_ids)
    as (out & h' & Hrun);
    [reflexivity | reflexivity | reflexivity | reflexivity | reflexivity
    | discriminate | discriminate | right; right; reflexivity |].
  destruct (Hsel out h' Hrun)
    as (x & y & t & m & Hx & Hy & Ht & Hm & Hout & Hrows & Hother & _).
  exists out, h', x, t, m.
  exact (conj Hrun (conj Hx (conj Ht (conj Hout (conj Hrows Hother))))).
Defined.

(** Three epochs of two batches with a budget of one step: the first
    update reaches the budget, its evaluation round is run, and nothing
    else. *)
Lemma train_stops_at_budget_witness :
  (@train small_world tnews_args 2 1 3
     (Some tnews_dev) ∅).1
  = [MaskTokens 0 0; Backward 0 0 0; OptimizerStep 0 0 1;
     Decode Eval "tnews" SEQ; SaveCheckpoint "model/step-1.bin";
     WriteResults Eval "tnews" SEQ]
  ∧ Forall (λ x, @loop_event small_world x = false)
      [Decode Eval "tnews" SEQ; SaveCheckpoint "model/step-1.bin";
       WriteResults Eval "tnews" SEQ].
Proof.
  assert ((@train small_world tnews_args 2 1 3
             (Some tnews_dev) ∅).1
          = [MaskTokens 0 0; Backward 0 0 0] ++ OptimizerStep 0 0 1
              :: [Decode Eval "tnews" SEQ; SaveCheckpoint "model/step-1.bin";
                  WriteResults Eval "tnews" SEQ]) as Hlog
    by (vm_compute; reflexivity).
  split; [exact Hlog|].
  exact (proj1 (proj1 (@train_stops_at_budget small_world tnews_args 2 1 3
                         (Some tnews_dev) ∅)
                  [MaskTokens 0 0; Backward 0 0 0] 0%nat 0%nat 1
                  [Decode Eval "tnews" SEQ; SaveCheckpoint "model/step-1.bin";
                   WriteResults Eval "tnews" SEQ] Hlog
                  (Z.le_refl 1))).
Defined.

(** With an accumulation factor of 2 the first micro-batch makes no update,
    the evaluation round that is due at global step 0 is run, and its
    [train_loss / global_step] ends the run. *)
Example evaluation_before_first_update :
  @train small_world (sample_args ["tnews"] 2) 2 1 1 (Some tnews_dev) ∅
  = ([MaskTokens 0 0; Backward 0 0 0; Decode Eval "tnews" SEQ],
     Err ZeroDivisionError).
Proof. by vm_compute. Qed.

(** A run on tnews: the evaluation reads the first task, with a label
    list of its own.  Its only batch has one example, and the first round
    ends with the exception of line 386. *)
Example main_tnews_sample :
  @main small_world tnews_args ∅
  = ([SaveArgs;
      GetTrainExamples "tnews" TnewsProcessor "data/tnews" "base";
      SeqConvert Train "tnews" [("x", "a"); ("y", "b")] ["a"; "b"];
      GetTestExamples Eval "tnews" TnewsProcessor "data/tnews" "dev";
      SeqConvert Eval "tnews" [("z", "b")] ["b"];
      MaskTokens 0 0; Backward 0 0 0; OptimizerStep 0 0 1;
      Decode Eval "tnews" SEQ],
     Err (TypeError "'int' object is not iterable")).
Proof. by vm_compute. Qed.

(** C7 as stated fails: the label list used for the evaluation examples
    of tnews is built from those examples and differs from the one built
    from the training examples. *)
Lemma label_list_rebuilt_for_eval :
  ¬ @label_list_reused small_world tnews_args ∅.
Proof.
  intros Hclaim.
  destruct (Hclaim Eval "tnews" [("z", "b")] ["b"]) as (examples & Hin).
  - discriminate.
  - rewrite main_tnews_sample. simpl. set_solver.
  - rewrite main_tnews_sample in Hin. simpl in Hin.
    repeat (apply elem_of_cons in Hin as [Hin|Hin]; [discriminate|]).
    by apply elem_of_nil in Hin.
Qed.

Lemma unknown_task_is_fatal_witness :
  @main small_world (cola_args 1) ∅
  = ([SaveArgs], Err (ValueError "Task not found: cola")).
Proof.
  destruct (@unknown_task_is_fatal small_world (cola_args 1) ∅)
    as [Hunknown _].
  destruct Hunknown as (t & Hin & Hnone & Hmain).
  { discriminate. }
  { split; [by vm_compute|split; [right; reflexivity|reflexivity]]. }
  { right. left. reflexivity. }
  apply elem_of_cons in Hin as [->|Hin]; [discriminate|].
  apply elem_of_cons in Hin as [->|Hin]; [exact Hmain|].
  by apply elem_of_nil in Hin.
Defined.

(** C8 as stated fails: with a gradient-accumulation factor of 0 the
    division of line 143 ends the run before the task names are looked
    at. *)
Lemma unknown_task_after_division :
  ¬ @unknown_task_rejected small_world (cola_args 0) ∅.
Proof.
  intros Hclaim. destruct Hclaim as (t & Hmain).
  - right. left. reflexivity.
  - vm_compute in Hmain. discriminate.
Qed.

(** Nor is the division the only step before the task names are looked
    at: an output directory that cannot be made ends the run at line
    152. *)
Example unknown_task_after_makedirs :
  @main small_world nowhere_args ∅ = ([], Err (FileNotFoundError "")).
Proof. by vm_compute. Qed.

End AtSamples.

(** * More facts about the noise injector *)

Section NoiseSelection.
Import Noise NoiseSpec.
Context `{Tokenizer}.

Ltac read_at :=
  unfold index_put, masked_fill, ne, eq;
  rewrite ?at2_zip_with, ?at2_full, ?at2_expand, ?at2_special.

(** The selection, position by position: a position of the input is
    selected exactly when it is eligible and the draw at the rate
    succeeds. *)
Lemma masked_indices_exact x y t mask_mode p coin m i j xv :
  masked_indices x y t mask_mode p coin = Ok m →
  at2 x i j = Some xv →
  ∃ ti, t !! i = Some ti
        ∧ at2 m i j
          = Some (eligible mask_mode ti xv (at2 y i j) && draw p (coin i j)).
Proof.
  unfold masked_indices. destruct (fits_single p); [|done].
  case_bool_decide as Hlen; [|done].
  intros Hm Hx.
  assert (is_Some (t !! i)) as [ti Hti].
  { apply lookup_lt_is_Some. rewrite Hlen. unfold at2 in Hx.
    destruct (x !! i) eqn:Hrow; [|done]. by eapply lookup_lt_Some. }
  exists ti. split; [done|]. revert Hm. unfold eligible.
  destruct (mask_mode_cases mask_mode)
    as [[-> E1]|[(-> & E1 & E2)|[(-> & E1 & E2 & E3)|(?&?&?& E1 & E2 & E3)]]];
    rewrite ?E1, ?E2, ?E3; try done;
    try (case_bool_decide as Hshape; [|done]);
    intros Hb; rewrite (at2_bernoulli _ _ _ i j Hb);
    read_at; rewrite Hx, Hti; simpl.
  - assert (is_Some (at2 y i j)) as [yv Hy].
    { unfold at2 in *. destruct (x !! i) as [rx|] eqn:Hrx; [|done].
      destruct (y !! i) as [ry|] eqn:Hry.
      - simpl in *. apply lookup_lt_is_Some.
        rewrite (shape_lookup _ _ i _ _ Hshape Hry Hrx).
        by eapply lookup_lt_Some.
      - apply (f_equal (.!! i)) in Hshape. unfold shape in Hshape.
        by rewrite !list_lookup_fmap, Hrx, Hry in Hshape. }
    rewrite Hy. simpl. f_equal.
    destruct (Z.eqb_spec ti 1), (bool_decide _), (Z.eqb_spec xv yv); done.
  - assert (is_Some (at2 y i j)) as [yv Hy].
    { unfold at2 in *. destruct (x !! i) as [rx|] eqn:Hrx; [|done].
      destruct (y !! i) as [ry|] eqn:Hry.
      - simpl in *. apply lookup_lt_is_Some.
        rewrite (shape_lookup _ _ i _ _ Hshape Hry Hrx).
        by eapply lookup_lt_Some.
      - apply (f_equal (.!! i)) in Hshape. unfold shape in Hshape.
        by rewrite !list_lookup_fmap, Hrx, Hry in Hshape. }
    rewrite Hy. simpl. f_equal.
    destruct (Z.eqb_spec ti 1), (bool_decide _), (Z.eqb_spec xv yv); done.
  - f_equal. destruct (Z.eqb_spec ti 1), (bool_decide _); done.
Qed.

(** Two tensors of one shape that agree position by position are equal. *)
Lemma matrix_ext {A} (a b : matrix A) :
  shape a = shape b →
  (∀ i j v, at2 b i j = Some v → at2 a i j = Some v) → a = b.
Proof.
  intros Hs Hat. apply list_eq. intros i.
  destruct (b !! i) as [rb|] eqn:Hb.
  - destruct (a !! i) as [ra|] eqn:Ha.
    + f_equal. apply list_eq. intros j.
      pose proof (shape_lookup _ _ i _ _ Hs Ha Hb) as Hl.
      destruct (rb !! j) as [v|] eqn:Hv.
      * specialize (Hat i j v). unfold at2 in Hat. rewrite Ha, Hb in Hat.
        by apply Hat.
      * apply lookup_ge_None in Hv. apply lookup_ge_None. lia.
    + apply (f_equal (.!! i)) in Hs. unfold shape in Hs.
      by rewrite !list_lookup_fmap, Ha, Hb in Hs.
  - apply (f_equal (.!! i)) in Hs. unfold shape in Hs.
    rewrite !list_lookup_fmap, Hb in Hs. by destruct (a !! i).
Qed.

Lemma shape_index_put x m v : shape m = shape x → shape (index_put x m v) = shape x.
Proof. apply shape_masked_fill. Qed.

Lemma at2_in_shape {A B} (a : matrix A) (b : matrix B) i j v :
  shape b = shape a → at2 a i j = Some v → is_Some (at2 b i j).
Proof.
  intros Hs Ha. unfold at2 in *. destruct (a !! i) as [ra|] eqn:Hra; [|done].
  destruct (b !! i) as [rb|] eqn:Hrb.
  - simpl in *. apply lookup_lt_is_Some.
    rewrite (shape_lookup _ _ i _ _ Hs Hrb Hra). by eapply lookup_lt_Some.
  - apply (f_equal (.!! i)) in Hs. unfold shape in Hs.
    by rewrite !list_lookup_fmap, Hra, Hrb in Hs.
Qed.

(** X1: what a call masks, exactly. In every call that returns, the
    returned tensor has the shape of the input, and each of its positions
    holds the mask token if the position is eligible (task id 1, token not
    special, admitted by the mode) and the draw at the rate succeeds there,
    and the input token otherwise. *)
Theorem mask_tokens_selects_exactly h inputs targets task_ids mask_mode p coin
    out h' :
  mask_tokens h inputs targets task_ids mask_mode p coin = (Ok out, h') →
  ∃ x y t r,
    h !! inputs = Some (Long2 x) ∧ h !! targets = Some (Long2 y)
    ∧ h !! task_ids = Some (Long1 t)
    ∧ h' !! out = Some (Long2 r) ∧ shape r = shape x
    ∧ ∀ i j xv, at2 x i j = Some xv →
        ∃ ti, t !! i = Some ti
              ∧ at2 r i j
                = Some (if eligible mask_mode ti xv (at2 y i j)
                           && draw p (coin i j)
                        then mask_token_id else xv).
Proof.
  intros Hrun.
  destruct (mask_tokens_inv h inputs targets task_ids mask_mode p coin)
    as [(x & y & t & m & Hx & Hy & Ht & Hm & Heq)|[(e & ? & Heq)|[e Heq]]];
    rewrite Heq in Hrun; try done.
  injection Hrun as <- <-.
  pose proof (masked_indices_shape _ _ _ _ _ _ _ Hm) as Hs.
  exists x, y, t, (index_put x m mask_token_id).
  rewrite lookup_insert_eq. repeat split; try done.
  { by apply shape_index_put. }
  intros i j xv Hxv.
  destruct (masked_indices_exact _ _ _ _ _ _ _ i j xv Hm Hxv) as (ti & Hti & Hat).
  exists ti. split; [done|]. by rewrite at2_index_put, Hxv, Hat.
Qed.

(** The selection is computed whenever the rate is a probability, or is
    stored and no row has task id 1. *)
Lemma masked_indices_computed x y t mask_mode p coin :
  length t = length x → shape y = shape x →
  mask_mode = "noerror" ∨ mask_mode = "error" ∨ mask_mode = "all" →
  fits_single p = true →
  is_probability p = true ∨ Forall (λ ti, ti ≠ 1) t →
  ∃ m, masked_indices x y t mask_mode p coin = Ok m.
Proof.
  intros Hlen Hshape Hmode Hfits Hp. unfold masked_indices.
  rewrite Hfits. cbv iota.
  rewrite bool_decide_true by done.
  assert (∀ pm, (match pm with
                 | Ok pm => forallb (forallb is_probability) pm = true
                 | Err _ => False
                 end) →
          ∃ m, match pm with
               | Ok pm => bernoulli pm coin
               | Err e => Err e
               end = Ok m) as Hgo.
  { intros [pm|e] Hpm; [|done]. unfold bernoulli. rewrite Hpm. eauto. }
  apply Hgo.
  destruct Hmode as [->|[->| ->]]; simpl; rewrite ?bool_decide_true by done;
    apply forallb_matrix; intros i j v; read_at;
    destruct (at2 x i j) as [xv|]; simpl; try done;
    destruct (t !! i) as [ti|] eqn:Hti; simpl; try done;
    try (destruct (at2 y i j) as [yv|]; simpl; try done);
    intros [= <-]; repeat case_match; try done;
    (destruct Hp as [Hp|Hp]; [done|]);
    rewrite Forall_lookup in Hp; specialize (Hp i ti Hti);
    by destruct (Z.eqb_spec ti 1).
Qed.

(** X2: nothing to mask. On a batch of the loop's shape that has at least
    one row, under one of the three modes, a call with rate 0, or with
    any rate that the single precision holds (also one outside [0, 1]) on
    a batch without a row of task id 1, returns, and the tensor it
    returns is a copy of the input. *)
Theorem mask_tokens_nothing_to_mask h inputs targets task_ids x y t
    mask_mode p coin :
  h !! inputs = Some (Long2 x) → h !! targets = Some (Long2 y) →
  h !! task_ids = Some (Long1 t) →
  x ≠ [] →
  length t = length x → shape y = shape x →
  mask_mode = "noerror" ∨ mask_mode = "error" ∨ mask_mode = "all" →
  (p == 0)%Q ∨ (fits_single p = true ∧ Forall (λ ti, ti ≠ 1) t) →
  ∃ out h',
    mask_tokens h inputs targets task_ids mask_mode p coin = (Ok out, h')
    ∧ h' !! out = Some (Long2 x).
Proof.
  intros Hx Hy Ht _ Hlen Hshape Hmode Hp.
  assert ((p == 0)%Q → is_probability p = true) as Hzero.
  { intros Hp0.
    apply is_probability_within; rewrite Hp0; [apply Qle_refl|by vm_compute]. }
  destruct (masked_indices_computed x y t mask_mode p coin) as [m Hm];
    try done.
  { destruct Hp as [Hp|[Hp _]]; [|done]. by apply is_probability_fits, Hzero. }
  { destruct Hp as [Hp|[_ Hp]]; [left; by apply Hzero|by right]. }
  unfold mask_tokens. rewrite Hx, Hy, Ht, Hm.
  eexists _, _. split; [done|]. rewrite lookup_insert_eq. do 2 f_equal.
  pose proof (masked_indices_shape _ _ _ _ _ _ _ Hm) as Hs.
  apply matrix_ext; [by apply shape_index_put|].
  intros i j xv Hxv.
  destruct (masked_indices_exact _ _ _ _ _ _ _ i j xv Hm Hxv) as (ti & Hti & Hat).
  rewrite at2_index_put, Hxv, Hat. simpl.
  destruct Hp as [Hp|Hp].
  - assert (draw p (coin i j) = false) as ->.
    { unfold draw. assert (Qle_bool p 0 = true) as ->; [|done].
      apply Qle_bool_iff. by rewrite Hp. }
    by rewrite andb_false_r.
  - destruct Hp as [_ Hp].
    rewrite Forall_lookup in Hp. specialize (Hp i ti Hti).
    unfold eligible. by destruct (Z.eqb_spec ti 1).
Qed.

(** X3: a rate that is no probability. On a batch of the loop's shape,
    under one of the three modes, a call with a rate that the single
    precision holds and stores outside [0, 1], one below [-2**-150] or
    above [1 + 2**-24], raises the error of [torch.bernoulli] as soon as
    one position is eligible; the clone has been made by then, and the
    tensors of the caller are as they were. *)
Theorem mask_tokens_rate_refused h inputs targets task_ids x y t
    mask_mode p coin i j xv ti :
  h !! inputs = Some (Long2 x) → h !! targets = Some (Long2 y) →
  h !! task_ids = Some (Long1 t) →
  length t = length x → shape y = shape x →
  mask_mode = "noerror" ∨ mask_mode = "error" ∨ mask_mode = "all" →
  fits_single p = true → (p < rate_min)%Q ∨ (rate_max < p)%Q →
  at2 x i j = Some xv → t !! i = Some ti →
  eligible mask_mode ti xv (at2 y i j) = true →
  mask_tokens h inputs targets task_ids mask_mode p coin
  = (Err (RuntimeError "Expected p_in >= 0 && p_in <= 1"),
     <[fresh (dom h) := Long2 x]> h).
Proof.
  intros Hx Hy Ht Hlen Hshape Hmode Hfits Hp Hxv Hti Hel.
  assert (is_probability p = false) as Hnp.
  { unfold is_probability. apply andb_false_iff.
    destruct Hp as [Hp|Hp]; [left|right];
      apply not_true_is_false; rewrite Qle_bool_iff; by apply Qlt_not_le. }
  unfold mask_tokens. rewrite Hx, Hy, Ht.
  assert (masked_indices x y t mask_mode p coin
          = Err (RuntimeError "Expected p_in >= 0 && p_in <= 1")) as ->; [|done].
  unfold masked_indices. rewrite Hfits. cbv iota.
  rewrite bool_decide_true by done.
  assert (∀ pm, at2 pm i j = Some p →
            bernoulli pm coin
            = Err (RuntimeError "Expected p_in >= 0 && p_in <= 1")) as Hgo.
  { intros pm Hpm. unfold bernoulli.
    destruct (forallb _ pm) eqn:Hall; [|done].
    rewrite forallb_matrix in Hall. specialize (Hall i j p Hpm). congruence. }
  destruct (at2_in_shape x y i j xv Hshape Hxv) as [yv Hyv].
  revert Hel. unfold eligible. rewrite Hyv.
  destruct Hmode as [->|[->| ->]]; simpl; intros Hel;
    rewrite ?(bool_decide_true (shape y = shape x)) by done; apply Hgo; read_at; rewrite Hxv, Hti, ?Hyv; simpl;
    destruct (Z.eqb_spec ti 1); simpl in *; try done;
    destruct (bool_decide _); simpl in *; try done;
    destruct (Z.eqb_spec xv yv); simpl in *; done.
Qed.

End NoiseSelection.

(** * More facts about checkpoint retention *)

Section RetentionRanking.
Import Retention RetentionSpec.

Lemma ranked_last_min l m :
  ranked (l ++ [m]) → Forall (λ x, (m.1 <= x.1)%Q) l.
Proof.
  unfold ranked. induction l as [|a l IH]; simpl; [constructor|].
  intros [Hs Hh]%Sorted_inv. specialize (IH Hs). constructor; [|done].
  destruct l as [|b l]; simpl in *.
  - by inversion Hh.
  - inversion Hh as [|? ? Hba]; subst. inversion IH as [|? ? Hmb]; subst.
    by eapply Qle_trans.
Qed.

Lemma final_pool_cons f1 path rest p :
  final_pool ((f1, path) :: rest) p
  = match raised (retain f1 path p) with
    | Some _ => after (retain f1 path p)
    | None => final_pool rest (after (retain f1 path p))
    end.
Proof.
  unfold final_pool. cbn [run_rounds].
  destruct (raised _); [done|].
  destruct (run_rounds rest _) as [|r tr] eqn:Htr; [done|].
  change (last (retain f1 path p :: r :: tr)) with (last (r :: tr)).
  destruct (last (r :: tr)) eqn:Hl; [done|]. by apply last_None in Hl.
Qed.

(** What a round keeps and what it removes. *)
Lemma retain_cases f1 path p :
  (length (best_result p) ≤ 3)%nat →
  ((length (best_result p) < 3)%nat
   ∧ evicted (retain f1 path p) = None
   ∧ best_result (after (retain f1 path p))
     = sort_by_f1 (best_result p ++ [(f1, path)]))
  ∨ (length (best_result p) = 3%nat
     ∧ ∃ m, evicted (retain f1 path p) = Some m
            ∧ sort_by_f1 (best_result p ++ [(f1, path)])
              = best_result (after (retain f1 path p)) ++ [m]).
Proof.
  intros Hlen.
  pose proof (retain_ranked_split f1 path p Hlen) as Hsplit.
  pose proof (sort_by_f1_length (best_result p ++ [(f1, path)])) as Hl.
  rewrite length_app in Hl. simpl in Hl.
  unfold retain in *. destruct (3 <? _)%nat eqn:Hc.
  - apply Nat.ltb_lt in Hc. right. split; [lia|].
    destruct (pop _) as [[l' [f rm]]|] eqn:Hp.
    + exists (f, rm). case_decide; simpl in *; by rewrite Hsplit.
    + destruct (sort_by_f1 _) as [|x l] eqn:Hs; [simpl in Hc; lia|].
      unfold pop in Hp. rewrite reverse_cons in Hp. by destruct (reverse l).
  - apply Nat.ltb_ge in Hc. left. simpl in *. split; [lia|]. done.
Qed.

(** The invariant of a run: the pool is ranked and holds at most three
    entries, nothing is removed before the pool is full, and nothing that
    was removed ranks above an entry of the pool. *)
Lemma retain_best f1 path p E :
  (length (best_result p) ≤ 3)%nat →
  (E ≠ [] → length (best_result p) = 3%nat) →
  Forall (λ e : entry, Forall (λ x : entry, (e.1 <= x.1)%Q) (best_result p)) E →
  let r := retain f1 path p in
  let E' := E ++ option_list (evicted r) in
  (E' ≠ [] → length (best_result (after r)) = 3%nat)
  ∧ Forall (λ e : entry,
        Forall (λ x : entry, (e.1 <= x.1)%Q) (best_result (after r))) E'
  ∧ best_result (after r) ++ option_list (evicted r)
    ≡ₚ best_result p ++ [(f1, path)].
Proof.
  intros Hlen Hfull Hbelow r E'. subst r E'.
  pose proof (retain_ranked_split f1 path p Hlen) as Hsplit.
  pose proof (sort_by_f1_ranked (best_result p ++ [(f1, path)])) as Hr.
  pose proof (sort_by_f1_perm (best_result p ++ [(f1, path)])) as Hperm.
  destruct (retain_cases f1 path p Hlen)
    as [(Hlt & Hnone & Hbest)|(Heq & m & Hsome & Hbest)].
  - rewrite Hnone. simpl. rewrite !app_nil_r.
    assert (E = []) as ->.
    { destruct E; [done|]. assert (length (best_result p) = 3%nat); [|lia].
      by apply Hfull. }
    split; [done|]. split; [constructor|]. by rewrite Hbest.
  - rewrite Hsome. simpl. rewrite Hbest in Hr, Hperm.
    pose proof (ranked_last_min _ _ Hr) as Hmin.
    assert (length (best_result (after (retain f1 path p))) = 3%nat) as Hl3.
    { apply Permutation_length in Hperm. rewrite !length_app in Hperm.
      simpl in Hperm. lia. }
    split; [done|]. split; [|done].
    apply Forall_app. split; [|by repeat constructor].
    rewrite Forall_forall in Hbelow. apply Forall_forall. intros e He.
    apply Forall_forall. intros x Hx.
    assert (x ∈ best_result p ++ [(f1, path)]) as Hx'.
    { rewrite <- Hperm. set_solver. }
    apply elem_of_app in Hx' as [Hx'|Hx'%list_elem_of_singleton].
    { specialize (Hbelow e He). rewrite Forall_forall in Hbelow. auto. }
    assert (m ∈ best_result p ++ [(f1, path)]) as Hm.
    { rewrite <- Hperm. set_solver. }
    rewrite Forall_forall in Hmin.
    apply elem_of_app in Hm as [Hm|Hm%list_elem_of_singleton].
    + specialize (Hbelow e He). rewrite Forall_forall in Hbelow.
      eapply Qle_trans; [by apply Hbelow|]. by apply Hmin.
    + subst m x. apply Permutation_app_inv_r in Hperm.
      specialize (Hbelow e He). rewrite Forall_forall in Hbelow.
      apply Hbelow. by rewrite <- Hperm.
Qed.

Lemma run_rounds_best rounds p E :
  (length (best_result p) ≤ 3)%nat →
  (E ≠ [] → length (best_result p) = 3%nat) →
  Forall (λ e : entry, Forall (λ x : entry, (e.1 <= x.1)%Q) (best_result p)) E →
  Forall (λ e : entry,
      Forall (λ x : entry, (e.1 <= x.1)%Q)
        (best_result (final_pool rounds p)))
    (E ++ evictions (run_rounds rounds p))
  ∧ best_result (final_pool rounds p) ++ evictions (run_rounds rounds p)
    ≡ₚ best_result p ++ take (length (run_rounds rounds p)) rounds.
Proof.
  revert p E. induction rounds as [|[f1 path] rest IH]; intros p E Hlen Hfull Hb.
  { unfold final_pool, evictions. simpl. by rewrite !app_nil_r. }
  rewrite final_pool_cons. cbn [run_rounds].
  destruct (retain_best f1 path p E Hlen Hfull Hb) as (Hfull' & Hb' & Hperm).
  pose proof (retain_keeps f1 path p Hlen) as (Hlen' & _ & _).
  unfold evictions in *. cbn [omap list_omap length take].
  destruct (raised (retain f1 path p)).
  - cbn [omap list_omap length take]. rewrite take_0.
    destruct (evicted (retain f1 path p)) as [m|]; simpl in *.
    + split; [done|]. by rewrite Hperm.
    + split; [done|]. by rewrite Hperm.
  - destruct (IH (after (retain f1 path p))
                (E ++ option_list (evicted (retain f1 path p)))
                Hlen' Hfull' Hb') as [IH1 IH2].
    destruct (evicted (retain f1 path p)) as [m|]; simpl in *.
    + rewrite <- app_assoc in IH1. split; [done|].
      rewrite <- Permutation_middle, IH2, app_comm_cons.
      rewrite (Permutation_cons_append _ m), Hperm.
      by rewrite <- app_assoc.
    + rewrite app_nil_r in *. split; [done|].
      rewrite IH2, Hperm. by rewrite <- app_assoc.
Qed.

(** X4: the pool keeps the best. For every run of evaluation rounds from
    an empty pool, the pool it ends with and the entries it removed are,
    together, the entries of the rounds that were run, and no removed entry
    has an F1 above that of an entry of the pool. *)
Theorem retention_keeps_best (fs : gset string) (rounds : list entry) :
  best_result (final_pool rounds (empty_pool fs))
    ++ evictions (run_rounds rounds (empty_pool fs))
  ≡ₚ take (length (run_rounds rounds (empty_pool fs))) rounds
  ∧ Forall (λ e : entry,
        Forall (λ x : entry, (e.1 <= x.1)%Q)
          (best_result (final_pool rounds (empty_pool fs))))
      (evictions (run_rounds rounds (empty_pool fs))).
Proof.
  destruct (run_rounds_best rounds (empty_pool fs) []) as [Hb Hp];
    [simpl; lia|done|constructor|].
  split; [by rewrite Hp|done].
Qed.

(** A ranked list is sorted already: the sort leaves it as it is. *)
Lemma sort_by_f1_ranked_id l : ranked l → sort_by_f1 l = l.
Proof.
  unfold ranked. induction l as [|a l IH]; [done|].
  intros [Hs Hh]%Sorted_inv. simpl. rewrite (IH Hs).
  destruct l as [|b l]; [done|]. simpl.
  inversion Hh as [|? ? Hba]; subst.
  apply Qle_bool_iff in Hba. by rewrite Hba.
Qed.

Lemma ranked_snoc l e :
  ranked l → Forall (λ x : entry, (e.1 <= x.1)%Q) l → ranked (l ++ [e]).
Proof.
  unfold ranked. induction l as [|a l IH]; simpl.
  { intros _ _. by repeat constructor. }
  intros [Hs Hh]%Sorted_inv [Ha Hl]%Forall_cons. constructor; [by apply IH|].
  destruct l as [|b l]; simpl; constructor; [done|].
  by inversion Hh.
Qed.

(** X5: a checkpoint that does not beat the pool is dropped at once. When
    the pool is ranked and full and the new evaluation F1 is not above the
    F1 of any of its entries (ties included), the round removes the entry it
    has just added: the pool is as before, no exception is raised, and the
    checkpoint file just written is deleted again. *)
Theorem retention_drops_newcomer (f1 : Q) (path : string) (p : pool) :
  length (best_result p) = 3%nat →
  ranked (best_result p) →
  Forall (λ x : entry, (f1 <= x.1)%Q) (best_result p) →
  evicted (retain f1 path p) = Some (f1, path)
  ∧ raised (retain f1 path p) = None
  ∧ best_result (after (retain f1 path p)) = best_result p
  ∧ files (after (retain f1 path p)) = files p ∖ {[path]}.
Proof.
  intros Hlen Hr Hle.
  rewrite (retain_evicts f1 path p (best_result p) f1 path);
    [|lia| |set_solver].
  - simpl. repeat split. set_solver.
  - apply sort_by_f1_ranked_id. by apply ranked_snoc.
Qed.

Lemma run_rounds_stocked rounds p :
  stocked p → NoDup rounds.*2 →
  (∀ q, q ∈ rounds.*2 → q ∉ (best_result p).*2) →
  stocked (final_pool rounds p).
Proof.
  revert p. induction rounds as [|[f1 path] rest IH]; intros p Hst Hnd Hfr.
  - done.
  - rewrite final_pool_cons. simpl in *. apply NoDup_cons in Hnd as [Hpath Hnd].
    destruct (retain_stocked f1 path p Hst) as (Hr & Hst' & Hsub).
    { apply Hfr. set_solver. }
    rewrite Hr. apply IH; [done..|].
    intros q Hq Hq'. apply Hsub in Hq' as [->|Hq']; [done|].
    apply (Hfr q); set_solver.
Qed.

(** X6: checkpoints under names of their own. When the rounds of a run
    write their checkpoints under pairwise distinct paths, no round raises
    ([os.remove] always finds its file), every round is executed, and the
    run ends with a pool whose entries have pairwise distinct paths, each
    naming a file that is in storage. *)
Theorem retention_distinct_paths (fs : gset string) (rounds : list entry) :
  NoDup rounds.*2 →
  Forall (λ r, raised r = None) (run_rounds rounds (empty_pool fs))
  ∧ length (run_rounds rounds (empty_pool fs)) = length rounds
  ∧ NoDup (best_result (final_pool rounds (empty_pool fs))).*2
  ∧ ∀ e, e ∈ best_result (final_pool rounds (empty_pool fs)) →
         e.2 ∈ files (final_pool rounds (empty_pool fs)).
Proof.
  intros Hnd.
  assert (stocked (empty_pool fs)) as Hst.
  { split; [constructor|]. simpl. by intros e ?%elem_of_nil. }
  assert (∀ q, q ∈ rounds.*2 → q ∉ (best_result (empty_pool fs)).*2) as Hfr.
  { simpl. intros q _ ?%elem_of_nil. done. }
  destruct (run_rounds_complete rounds _ Hst Hnd Hfr) as [H1 H2].
  destruct (run_rounds_stocked rounds _ Hst Hnd Hfr) as [H3 H4].
  done.
Qed.

End RetentionRanking.

(** * More facts about the driver *)

Section DriverCourse.
Import Retention Driver DriverSpec.
Context `{Collaborators}.

(** ** How many updates a run performs *)

Lemma div_succ s g :
  0 < g → 0 ≤ s →
  (s + 1) `div` g = s `div` g + (if (s + 1) `mod` g =? 0 then 1 else 0).
Proof.
  intros Hg Hs. destruct (Z.eqb_spec ((s + 1) `mod` g) 0) as [Hm|Hm];
    Z.div_mod_to_equations; nia.
Qed.

Lemma Qceiling_div x y :
  0 < y → Qceiling (inject_Z x / inject_Z y) = (x + y - 1) `div` y.
Proof.
  intros Hy. destruct y as [|p|p]; try lia.
  unfold Qceiling, Qfloor, Qdiv, Qinv, Qmult, Qopp, inject_Z. simpl.
  rewrite Z.mul_1_r. Z.div_mod_to_equations. nia.
Qed.

Lemma small_within z : 0 ≤ z < 2 ^ 53 → small z = true.
Proof. intros Hz. unfold small. apply Z.ltb_lt. lia. Qed.

Lemma ceil_div_ok x y :
  0 ≤ x < 2 ^ 53 → 0 < y < 2 ^ 53 →
  ceil_div x y = ret ((x + y - 1) `div` y).
Proof.
  intros Hx Hy. unfold ceil_div. destruct (Z.eqb_spec y 0); [lia|].
  rewrite !small_within by lia. cbn [andb]. by rewrite Qceiling_div by lia.
Qed.

Lemma advance_snoc a len g run e s :
  advance a len g (run ++ [(e, s)]) = stepped a len (advance a len g run) s.
Proof. by rewrite advance_app. Qed.

Lemma advance_ge a len g run : g ≤ advance a len g run.
Proof.
  revert g. induction run as [|[e s] run IH]; intros g; [done|].
  rewrite advance_cons. etrans; [|apply IH].
  unfold stepped. destruct (update_due a len s); lia.
Qed.

(** Before the last micro-batch of an epoch, updates fall on the multiples
    of the accumulation factor. *)
Lemma advance_inner a len g e n :
  0 < gradient_accumulation_steps a → (n < len)%nat →
  advance a len g ((λ s, (e, s)) <$> seq 0 n)
  = g + Z.of_nat n `div` gradient_accumulation_steps a.
Proof.
  intros Hg. induction n as [|n IH]; intros Hn.
  { unfold advance. simpl. rewrite Z.div_0_l by lia. lia. }
  rewrite seq_S, fmap_app. cbn [fmap list_fmap]. rewrite advance_snoc, IH by lia.
  unfold stepped. rewrite update_due_eq by lia.
  rewrite Nat2Z.inj_succ, <- Z.add_1_r, (div_succ (Z.of_nat n)) by lia.
  destruct (Z.eqb_spec (Z.of_nat (0 + n)) (Z.of_nat len - 1)); [lia|].
  rewrite orb_false_r. simpl. destruct (_ =? 0); lia.
Qed.

Lemma advance_epoch a len g e :
  0 < gradient_accumulation_steps a →
  advance a len g ((λ s, (e, s)) <$> seq 0 len) = g + updates_per_epoch a len.
Proof.
  intros Hg. unfold updates_per_epoch. destruct len as [|n].
  { unfold advance. simpl. rewrite Z.div_small by lia. lia. }
  rewrite seq_S, fmap_app. cbn [fmap list_fmap].
  rewrite advance_snoc, advance_inner by lia.
  unfold stepped. rewrite update_due_eq by lia.
  destruct (Z.eqb_spec (Z.of_nat (0 + n)) (Z.of_nat (S n) - 1)); [|lia].
  rewrite orb_true_r.
  replace (Z.of_nat (S n) + gradient_accumulation_steps a - 1)
    with (Z.of_nat n + 1 * gradient_accumulation_steps a) by lia.
  rewrite Z.div_add by lia. lia.
Qed.

Lemma ceil_div_epoch a len :
  0 < gradient_accumulation_steps a < 2 ^ 53 → Z.of_nat len < 2 ^ 53 →
  ceil_div (Z.of_nat len) (gradient_accumulation_steps a)
  = ret (updates_per_epoch a len).
Proof. intros Hg Hlen. apply ceil_div_ok; lia. Qed.

Lemma updates_per_epoch_bounds a len :
  0 < gradient_accumulation_steps a →
  0 ≤ updates_per_epoch a len ≤ Z.of_nat len.
Proof.
  intros Hg. unfold updates_per_epoch. Z.div_mod_to_equations. nia.
Qed.

(** The micro-batches of a loop that the budget does not end: each is
    run, and the loop hands over without [wrap]. *)
Lemma batch_loop_full a len max_steps e steps st :
  gradient_accumulation_steps a ≠ 0 → (∀ e s, (noise a e s).2 = Ok tt) →
  advance a len (global_step st) ((λ s, (e, s)) <$> steps) < max_steps →
  (batch_loop a len max_steps None e steps st).2
  = Ok ({| global_step :=
             advance a len (global_step st) ((λ s, (e, s)) <$> steps);
           best := best st |}, false)
  ∧ filter loop_event (batch_loop a len max_steps None e steps st).1
    = expected a len (global_step st) ((λ s, (e, s)) <$> steps).
Proof.
  intros Hg Hnoise. revert st.
  induction steps as [|s steps IH]; intros st Hlt.
  { cbn [batch_loop]. split; [by destruct st|done]. }
  rewrite fmap_cons, advance_cons in Hlt.
  pose proof (advance_ge a len (stepped a len (global_step st) s)
                ((λ s, (e, s)) <$> steps)) as Hge.
  pose proof (micro_batch_plain a len max_steps e s st Hg (Hnoise e s)) as Hres.
  destruct (micro_batch_run a len max_steps None e s st (Hnoise e s))
    as [Hlog _].
  cbn [batch_loop]. rewrite bind_res, bind_log, Hres.
  destruct (Z.leb_spec max_steps (stepped a len (global_step st) s)); [lia|].
  destruct (IH {| global_step := stepped a len (global_step st) s;
                  best := best st |} Hlt) as [Hres' Hlog'].
  cbn [global_step best] in *.
  rewrite fmap_cons, advance_cons, expected_cons.
  split; [exact Hres'|]. by rewrite filter_app, Hlog, Hlog'.
Qed.

(** A loop over two runs of micro-batches, when the first does not end
    it. *)
Lemma batch_loop_app a len max_steps ev e l1 l2 st st1 :
  (batch_loop a len max_steps ev e l1 st).2 = Ok (st1, false) →
  (batch_loop a len max_steps ev e (l1 ++ l2) st).2
  = (batch_loop a len max_steps ev e l2 st1).2
  ∧ (batch_loop a len max_steps ev e (l1 ++ l2) st).1
    = (batch_loop a len max_steps ev e l1 st).1
      ++ (batch_loop a len max_steps ev e l2 st1).1.
Proof.
  revert st. induction l1 as [|s l1 IH]; intros st; cbn [batch_loop app].
  { by intros [= ->]. }
  rewrite !bind_res, !bind_log.
  destruct (micro_batch a len max_steps ev e s st) as [L [[st2 w]|err]];
    cbn [fst snd]; [|done].
  destruct w; [done|]. intros Hrun.
  destruct (IH st2 Hrun) as [-> ->]. by rewrite app_assoc.
Qed.

Lemma filter_update_loop (l : list event) :
  filter is_update (filter loop_event l) = filter is_update l.
Proof.
  induction l as [|x l IH]; [done|].
  destruct x; rewrite ?filter_cons_True, ?filter_cons_False by (simpl; tauto);
    rewrite ?filter_cons_True, ?filter_cons_False by (simpl; tauto);
    by rewrite ?IH.
Qed.

Lemma optimizer_steps_expected a len g run :
  Z.of_nat (optimizer_steps (expected a len g run)) = advance a len g run - g.
Proof.
  unfold optimizer_steps. revert g.
  induction run as [|[e s] run IH]; intros g.
  { unfold advance. simpl. lia. }
  rewrite advance_cons. cbn [expected]. unfold stepped.
  rewrite filter_cons_False by (simpl; tauto).
  destruct (update_due a len s).
  - rewrite filter_cons_True by done. cbn [length].
    rewrite Nat2Z.inj_succ, IH. lia.
  - apply IH.
Qed.

(** X7: the updates of an epoch. With a positive accumulation factor,
    without evaluation rounds and when [mask_tokens] does not raise, the
    loop over the [len] micro-batches of an epoch whose updates the budget
    allows runs every one of them: it computes the gradients of each and
    performs an update exactly where one is due,
    ceil(len / gradient_accumulation_steps) updates in all, and hands over
    with the global step that much further, [wrap] telling whether the
    budget is reached. *)
Theorem epoch_updates a len max_steps e st :
  0 < gradient_accumulation_steps a → (∀ e s, (noise a e s).2 = Ok tt) →
  global_step st < max_steps →
  global_step st + updates_per_epoch a len ≤ max_steps →
  (batch_loop a len max_steps None e (seq 0 len) st).2
  = Ok ({| global_step := global_step st + updates_per_epoch a len;
           best := best st |},
        max_steps <=? global_step st + updates_per_epoch a len)
  ∧ filter loop_event (batch_loop a len max_steps None e (seq 0 len) st).1
    = expected a len (global_step st) ((λ s, (e, s)) <$> seq 0 len)
  ∧ Z.of_nat
      (optimizer_steps (batch_loop a len max_steps None e (seq 0 len) st).1)
    = updates_per_epoch a len.
Proof.
  intros Hg Hnoise Hlt Hle.
  assert ((batch_loop a len max_steps None e (seq 0 len) st).2
          = Ok ({| global_step := global_step st + updates_per_epoch a len;
                   best := best st |},
                max_steps <=? global_step st + updates_per_epoch a len)
          ∧ filter loop_event
              (batch_loop a len max_steps None e (seq 0 len) st).1
            = expected a len (global_step st) ((λ s, (e, s)) <$> seq 0 len))
    as [Hres Hlog].
  { destruct len as [|n].
    { assert (updates_per_epoch a 0 = 0) as ->.
      { unfold updates_per_epoch. simpl. apply Z.div_small. lia. }
      cbn [seq batch_loop]. rewrite Z.add_0_r.
      destruct (Z.leb_spec max_steps (global_step st)); [lia|].
      split; [by destruct st|done]. }
    pose proof (advance_epoch a (S n) (global_step st) e Hg) as Hall.
    rewrite seq_S, fmap_app in Hall |- *. cbn [fmap list_fmap] in Hall |- *.
    rewrite advance_snoc in Hall.
    assert (advance a (S n) (global_step st) ((λ s, (e, s)) <$> seq 0 n)
            < max_steps) as Hin.
    { rewrite advance_inner by lia. rewrite <- Hall in Hle.
      rewrite advance_inner in Hle by lia. unfold stepped in Hle.
      rewrite update_due_eq in Hle by lia.
      destruct (Z.eqb_spec (Z.of_nat (0 + n)) (Z.of_nat (S n) - 1)); [|lia].
      rewrite orb_true_r in Hle. lia. }
    destruct (batch_loop_full a (S n) max_steps e (seq 0 n) st)
      as [Hres1 Hlog1]; [lia|done|done|].
    destruct (batch_loop_app a (S n) max_steps None e (seq 0 n) [(0 + n)%nat]
                st _ Hres1) as [-> ->].
    set (st1 := {| global_step := advance a (S n) (global_step st)
                                    ((λ s, (e, s)) <$> seq 0 n);
                   best := best st |}) in *.
    pose proof (micro_batch_plain a (S n) max_steps e (0 + n) st1) as Hres2.
    destruct (micro_batch_run a (S n) max_steps None e (0 + n) st1
                (Hnoise e (0 + n)%nat)) as [Hlog2 _].
    cbn [batch_loop]. rewrite bind_res, bind_log, Hres2 by (done || lia).
    cbn [global_step best st1] in *. rewrite Hall. clear Hres2.
    split.
    - by destruct (_ <=? _).
    - rewrite filter_app, Hlog1, expected_app. f_equal.
      rewrite filter_app, Hlog2.
      destruct (_ <=? _); cbn [fst ret]; by rewrite app_nil_r. }
  split; [exact Hres|]. split; [exact Hlog|].
  unfold optimizer_steps. rewrite <- filter_update_loop, Hlog.
  fold (optimizer_steps
          (expected a len (global_step st) ((λ s, (e, s)) <$> seq 0 len))).
  rewrite optimizer_steps_expected, advance_epoch by done. lia.
Qed.

Lemma batch_loop_plain a len max_steps e steps st :
  gradient_accumulation_steps a ≠ 0 → (∀ e s, (noise a e s).2 = Ok tt) →
  global_step st < max_steps →
  ∃ st',
    (batch_loop a len max_steps None e steps st).2
    = Ok (st', max_steps <=? global_step st')
    ∧ global_step st'
      = Z.min max_steps
          (advance a len (global_step st) ((λ s, (e, s)) <$> steps)).
Proof.
  intros Hg Hnoise. revert st.
  induction steps as [|s steps IH]; intros st Hlt.
  { exists st. cbn [batch_loop]. rewrite ret_res.
    destruct (Z.leb_spec max_steps (global_step st)); [lia|].
    split; [done|]. unfold advance. simpl. lia. }
  cbn [batch_loop]. rewrite bind_res, micro_batch_plain by done.
  rewrite fmap_cons, advance_cons.
  assert (global_step st ≤ stepped a len (global_step st) s
          ≤ global_step st + 1) as Hs
    by (unfold stepped; destruct (update_due a len s); lia).
  pose proof (advance_ge a len (stepped a len (global_step st) s)
                ((λ s, (e, s)) <$> steps)) as Hge.
  destruct (Z.leb_spec max_steps (stepped a len (global_step st) s)) as [Hm|Hm].
  - exists {| global_step := stepped a len (global_step st) s;
              best := best st |}.
    rewrite ret_res. cbn [global_step]. split; [|lia].
    destruct (Z.leb_spec max_steps (stepped a len (global_step st) s)); [done|lia].
  - apply (IH {| global_step := stepped a len (global_step st) s;
                 best := best st |}). done.
Qed.

Lemma epoch_loop_plain a len max_steps epochs st :
  0 < gradient_accumulation_steps a → (∀ e s, (noise a e s).2 = Ok tt) →
  global_step st < max_steps →
  ∃ st',
    (epoch_loop a len max_steps None epochs false st).2 = Ok st'
    ∧ global_step st'
      = Z.min max_steps
          (global_step st + Z.of_nat (length epochs) * updates_per_epoch a len).
Proof.
  intros Hg Hnoise. revert st.
  assert (0 ≤ updates_per_epoch a len) as HU.
  { unfold updates_per_epoch. apply Z.div_pos; lia. }
  induction epochs as [|e epochs IH]; intros st Hlt.
  { exists st. split; [done|]. simpl. lia. }
  cbn [epoch_loop].
  destruct (batch_loop_plain a len max_steps e (seq 0 len) st)
    as (st1 & Hrun & Hgs); [lia|done|done|].
  rewrite advance_epoch in Hgs by done. rewrite bind_res, Hrun.
  destruct (Z.leb_spec max_steps (global_step st1)) as [Hm|Hm].
  - exists st1. split; [by destruct epochs|].
    cbn [length]. nia.
  - destruct (IH st1 Hm) as (st' & Hrun' & Hgs').
    exists st'. split; [done|]. rewrite Hgs'. cbn [length]. nia.
Qed.

(** X8: the number of updates of a run. Without evaluation rounds, when
    [mask_tokens] does not raise, with a positive accumulation factor and a
    budget of at least one update, training ends without exception, and it
    has then performed min(max_train_steps, epochs x ceil(len /
    gradient_accumulation_steps)) updates. *)
Theorem train_update_count a len max_steps epochs fs :
  0 < gradient_accumulation_steps a → (∀ e s, (noise a e s).2 = Ok tt) →
  1 ≤ max_steps → 0 ≤ epochs →
  ∃ st,
    (train a len max_steps epochs None fs).2 = Ok st
    ∧ global_step st = Z.min max_steps (epochs * updates_per_epoch a len).
Proof.
  intros Hg Hnoise Hmax Hep. unfold train.
  destruct (epoch_loop_plain a len max_steps (seq 0 (Z.to_nat epochs))
              {| global_step := 0; best := empty_pool fs |})
    as (st & Hrun & Hgs); [done|done|simpl; lia|].
  exists st. split; [done|]. rewrite Hgs, length_seq, Z2Nat.id by done.
  done.
Qed.

(** ** The schedule (lines 203-207) *)

Lemma ceil_div_bounds x y :
  0 < y → (x + y - 1) `div` y * y - y < x ≤ (x + y - 1) `div` y * y.
Proof. intros Hy. Z.div_mod_to_equations. nia. Qed.

(** X9: an explicit budget is met. When [max_train_steps] is given and is
    at least 1, the loader is not empty and the accumulation factor is
    positive, all three below 2**53 so that the divisions of lines 203
    and 207 are exact, the schedule keeps the budget and takes the least
    number of epochs whose updates reach it; training then ends without
    exception after exactly [max_train_steps] updates (without evaluation
    rounds, when [mask_tokens] does not raise). *)
Theorem explicit_budget_is_met a len fs max_steps :
  max_train_steps a = Some max_steps → 1 ≤ max_steps < 2 ^ 53 →
  0 < gradient_accumulation_steps a < 2 ^ 53 →
  0 < Z.of_nat len < 2 ^ 53 →
  (∀ e s, (noise a e s).2 = Ok tt) →
  ∃ epochs st,
    schedule a len = ret (max_steps, epochs)
    ∧ (epochs - 1) * updates_per_epoch a len < max_steps
      ≤ epochs * updates_per_epoch a len
    ∧ (train a len max_steps epochs None fs).2 = Ok st
    ∧ global_step st = max_steps.
Proof.
  intros Hsome Hmax Hg Hlen Hnoise.
  assert (0 < updates_per_epoch a len) as HU.
  { unfold updates_per_epoch. Z.div_mod_to_equations. nia. }
  pose proof (updates_per_epoch_bounds a len (proj1 Hg)) as HUb.
  set (epochs := (max_steps + updates_per_epoch a len - 1)
                   `div` updates_per_epoch a len).
  pose proof (ceil_div_bounds max_steps (updates_per_epoch a len) HU) as Hb.
  fold epochs in Hb.
  assert (0 ≤ epochs) as Hep by nia.
  destruct (epoch_loop_plain a len max_steps (seq 0 (Z.to_nat epochs))
              {| global_step := 0; best := empty_pool fs |})
    as (st & Hrun & Hgs); [lia|done|simpl; lia|].
  rewrite length_seq, Z2Nat.id in Hgs by done. cbn [global_step] in Hgs.
  exists epochs, st. repeat split; try done; try lia.
  unfold schedule. rewrite ceil_div_epoch, ret_bind, Hsome by lia.
  rewrite ceil_div_ok by lia. by rewrite ret_bind.
Qed.

Lemma py_int_nonneg x : (0 <= x)%Q → py_int x = Qfloor x.
Proof.
  intros Hx. unfold py_int. apply Qle_bool_iff in Hx. by rewrite Hx.
Qed.

(** X10: whole epochs only. When [max_train_steps] is not given, the
    accumulation factor is positive, it and the length of the loader are
    below 2**53, and [num_train_epochs] and its product with the updates
    of an epoch are doubles, so that the arithmetic of lines 203 and 205
    is exact, the budget is
    int(num_train_epochs x num_update_steps_per_epoch) and the loop runs
    int(num_train_epochs) epochs; when that budget is at least 1 update,
    training ends without exception after int(num_train_epochs) x
    ceil(len / gradient_accumulation_steps) updates, which is never more
    than the budget: a fraction of an epoch in [num_train_epochs] is counted
    in the budget and is not trained. *)
Theorem epochs_budget_whole_epochs a len fs :
  max_train_steps a = None →
  0 < gradient_accumulation_steps a < 2 ^ 53 → Z.of_nat len < 2 ^ 53 →
  is_double (num_train_epochs a) = true →
  is_double (num_train_epochs a * inject_Z (updates_per_epoch a len)) = true →
  (∀ e s, (noise a e s).2 = Ok tt) →
  1 ≤ py_int (num_train_epochs a * inject_Z (updates_per_epoch a len)) →
  schedule a len
  = ret (py_int (num_train_epochs a * inject_Z (updates_per_epoch a len)),
         py_int (num_train_epochs a))
  ∧ ∃ st,
      (train a len
         (py_int (num_train_epochs a * inject_Z (updates_per_epoch a len)))
         (py_int (num_train_epochs a)) None fs).2 = Ok st
      ∧ global_step st
        = py_int (num_train_epochs a) * updates_per_epoch a len
      ∧ global_step st
        ≤ py_int (num_train_epochs a * inject_Z (updates_per_epoch a len)).
Proof.
  intros Hnone [Hg Hgb] Hlen HE2 HEU Hnoise Hmax.
  pose proof (updates_per_epoch_bounds a len Hg) as HUb.
  assert (0 ≤ updates_per_epoch a len) as HU by lia.
  split.
  { unfold schedule. rewrite ceil_div_epoch, ret_bind, Hnone by lia.
    unfold int_of_product. rewrite HE2, HEU, small_within by lia.
    cbn [andb]. by rewrite ret_bind. }
  revert Hmax.
  set (max_steps :=
         py_int (num_train_epochs a * inject_Z (updates_per_epoch a len))).
  set (epochs := py_int (num_train_epochs a)). intros Hmax.
  assert (0 <= num_train_epochs a)%Q as HE.
  { destruct (Qlt_le_dec (num_train_epochs a) 0) as [Hneg|]; [|done].
    exfalso. subst max_steps. unfold py_int in Hmax.
    assert (num_train_epochs a * inject_Z (updates_per_epoch a len) <= 0)%Q
      as Hle.
    { eapply Qle_trans;
        [apply Qmult_le_compat_r;
           [apply Qlt_le_weak, Hneg|by rewrite <- (Zle_Qle 0)]|].
      by rewrite Qmult_0_l. }
    destruct (Qle_bool 0 _) eqn:Hb.
    - apply Qfloor_resp_le in Hle. change (Qfloor 0) with 0 in Hle. lia.
    - apply Qceiling_resp_le in Hle. change (Qceiling 0) with 0 in Hle. lia. }
  assert (0 ≤ epochs) as Hep.
  { subst epochs. rewrite py_int_nonneg by done.
    apply Qfloor_resp_le in HE. by change (Qfloor 0) with 0 in HE. }
  assert (epochs * updates_per_epoch a len ≤ max_steps) as Hle.
  { subst epochs max_steps. rewrite !py_int_nonneg; try done.
    - rewrite <- (Qfloor_Z (Qfloor _ * _)). apply Qfloor_resp_le.
      rewrite inject_Z_mult. apply Qmult_le_compat_r; [apply Qfloor_le|].
      by rewrite <- (Zle_Qle 0).
    - apply Qmult_le_0_compat; [done|]. by rewrite <- (Zle_Qle 0). }
  destruct (epoch_loop_plain a len max_steps (seq 0 (Z.to_nat epochs))
              {| global_step := 0; best := empty_pool fs |})
    as (st & Hrun & Hgs); [done|done|simpl; lia|].
  rewrite length_seq, Z2Nat.id in Hgs by done. cbn [global_step] in Hgs.
  exists st. split; [done|]. lia.
Qed.

(** ** Evaluation before the first update *)

Ltac emits :=
  cbv beta;
  repeat first
    [ apply log_all_ret | apply log_all_raise
    | apply log_all_route | apply log_all_py_mod
    | apply log_all_bind; [|intros ?]
    | apply log_all_if
    | apply log_all_emit
    | match goal with |- log_all _ (match ?x with _ => _ end) => destruct x end
    | match goal with |- log_all _ (let '(_, _) := ?x in _) => destruct x end ].

Lemma bind_err_res {A B} (m : M A) (f : A → M B) e :
  m.2 = Err e → (m ≫= f).2 = Err e.
Proof. intros Hm. by rewrite bind_res, Hm. Qed.

Lemma bind_err_log {A B} (m : M A) (f : A → M B) e :
  m.2 = Err e → (m ≫= f).1 = m.1.
Proof. intros Hm. by rewrite bind_log, Hm, app_nil_r. Qed.

Lemma route_ok t :
  t ∈ task_class CSC ∨ t ∈ task_class SEQ → ∃ fam, route t = ret fam.
Proof.
  intros Ht. unfold route. repeat case_decide; eauto. tauto.
Qed.

Lemma eval_loop_ok ph t n :
  t ∈ task_class CSC → (eval_loop ph t n).2 = Ok tt.
Proof.
  intros Ht. induction n as [|k n IH]; [done|].
  cbn [eval_loop]. unfold route. rewrite decide_True by done.
  rewrite ret_bind, emit_bind. cbn [snd]. by rewrite ret_bind.
Qed.

(** The first micro-batch of a run that evaluates, under accumulation. *)
Lemma micro_batch_step_zero a len max_steps ev st :
  1 < gradient_accumulation_steps a → (1 < len)%nat → save_steps a ≠ 0 →
  (noise a 0 0).2 = Ok tt →
  eval_task ev ∈ task_class CSC →
  global_step st = 0 →
  (micro_batch a len max_steps (Some ev) 0 0 st).2 = Err ZeroDivisionError
  ∧ filter loop_event (micro_batch a len max_steps (Some ev) 0 0 st).1
    = [Backward 0 0 0].
Proof.
  intros Hg Hlen Hsave Hnoise Hroute Hgs.
  assert ((eval_round a ev 0 0 st).2 = Err ZeroDivisionError) as Hround.
  { unfold eval_round.
    rewrite (bind_ok_res _ _ tt) by (by apply eval_loop_ok).
    by rewrite Hgs. }
  assert (filter loop_event (eval_round a ev 0 0 st).1 = []) as Hquiet.
  { apply filter_quiet_log, eval_round_quiet. }
  unfold micro_batch.
  rewrite (bind_ok_res _ _ tt), (bind_ok_log _ _ tt) by done.
  rewrite filter_app, filter_quiet_log by apply noise_quiet.
  rewrite emit_bind. cbn [fst snd app].
  rewrite py_mod_ok, ret_bind by lia.
  change (Z.of_nat 0 + 1) with 1. rewrite Z.mod_small by lia.
  destruct (Z.eqb_spec (Z.of_nat 0) (Z.of_nat len - 1)); [lia|].
  cbn [Z.eqb orb]. rewrite ret_bind, py_mod_ok, ret_bind, Hgs by done.
  rewrite Z.mod_0_l by done. cbn [Z.eqb].
  rewrite (bind_err_res _ _ ZeroDivisionError),
    (bind_err_log _ _ ZeroDivisionError) by done.
  rewrite filter_cons_True by done. by rewrite Hquiet.
Qed.

(** X11: evaluation before the first update. With evaluation rounds on a
    CSC task and a gradient accumulation factor above 1 (more than one
    batch to the epoch, at least one epoch, [save_steps] not 0,
    [mask_tokens] not raising on the first batch), the evaluation gate
    [global_step % save_steps == 0] is open at the first micro-batch, where
    the global step is still 0: the round is run, and
    [train_loss / global_step] ends the program with ZeroDivisionError
    before any update is performed. *)
Theorem evaluation_at_step_zero a len max_steps epochs ev fs :
  1 < gradient_accumulation_steps a → (1 < len)%nat → 0 < epochs →
  save_steps a ≠ 0 → (noise a 0 0).2 = Ok tt →
  eval_task ev ∈ task_class CSC →
  (train a len max_steps epochs (Some ev) fs).2 = Err ZeroDivisionError
  ∧ filter loop_event (train a len max_steps epochs (Some ev) fs).1
    = [Backward 0 0 0].
Proof.
  intros Hg Hlen Hep Hsave Hnoise Hroute. unfold train.
  destruct (Z.to_nat epochs) as [|n] eqn:Hn; [lia|].
  destruct (micro_batch_step_zero a len max_steps ev
              {| global_step := 0; best := empty_pool fs |})
    as [Hres Hlog]; try done.
  destruct len as [|len']; [lia|].
  cbn [seq epoch_loop batch_loop].
  rewrite !(bind_err_res _ _ ZeroDivisionError),
    !(bind_err_log _ _ ZeroDivisionError); try done.
  all: by rewrite (bind_err_res _ _ ZeroDivisionError).
Qed.

(** ** Runs that do not train *)

Lemma convert_loads a t examples :
  log_all loads_training_data (convert Train a t examples).
Proof. unfold convert. emits; done. Qed.

Lemma load_train_loads a procs train_on_dataset :
  log_all loads_training_data (load_train a procs train_on_dataset).
Proof.
  induction procs as [|[t p] procs IH]; cbn [load_train].
  { apply log_all_ret. }
  destruct (train_on_dataset !! t) as [train_on|]; [|apply log_all_raise].
  apply log_all_bind; [by apply log_all_emit|intros _].
  apply log_all_bind; [apply convert_loads|intros features].
  apply log_all_bind; [apply IH|intros; apply log_all_ret].
Qed.

Lemma bind_ok_inv {A B} (m : M A) (f : A → M B) b :
  (m ≫= f).2 = Ok b → ∃ a, m.2 = Ok a ∧ (f a).2 = Ok b.
Proof. rewrite bind_res. destruct m.2 as [a|]; [eauto|done]. Qed.

(** A computation that logs nothing, whatever is asked of its log. *)
Lemma silent_log {A} (m : M A) : (∀ P, log_all P m) → m.1 = [].
Proof.
  intros Hm. specialize (Hm (λ _, False)). unfold log_all in Hm.
  destruct m.1 as [|x l]; [done|]. by apply Forall_cons in Hm as [[] _].
Qed.

Lemma silent_ret {A} (m : M A) v :
  (∀ P, log_all P m) → m.2 = Ok v → m = ret v.
Proof.
  intros Hlog%silent_log Hres. destruct m as [l r]. simpl in *. by subst.
Qed.

Lemma train_converts_app l1 l2 :
  train_converts (l1 ++ l2) = train_converts l1 ++ train_converts l2.
Proof. apply omap_app. Qed.

Lemma train_reads_app l1 l2 :
  train_reads (l1 ++ l2) = train_reads l1 ++ train_reads l2.
Proof. apply omap_app. Qed.

Lemma known_routes t p :
  processors_all !! t = Some p →
  t ∈ task_class CSC ∨ t ∈ task_class SEQ.
Proof.
  unfold processors_all. intros Hl%elem_of_list_to_map_2.
  repeat (apply elem_of_cons in Hl as [[= -> ->]|Hl]);
    try (left; simpl; set_solver); try (right; simpl; set_solver).
Qed.

Lemma convert_ok ph a t examples :
  t ∈ task_class CSC ∨ t ∈ task_class SEQ →
  ∃ features, (convert ph a t examples).2 = Ok features.
Proof.
  intros [fam Hfam]%route_ok. unfold convert. rewrite Hfam, ret_bind.
  destruct fam; rewrite emit_bind; cbn [snd]; eauto.
Qed.

Lemma dict_set_own t p (d : list (string * processor)) :
  processors_all !! t = Some p →
  Forall (λ e, processors_all !! e.1 = Some e.2) d →
  Forall (λ e, processors_all !! e.1 = Some e.2) (dict_set t p d).
Proof.
  intros Hp. induction 1 as [|[t' p'] d Ht' Hd IH]; simpl.
  { by repeat constructor. }
  case_decide; constructor; done.
Qed.

Lemma build_processors_own names procs procs' :
  Forall (λ e, processors_all !! e.1 = Some e.2) procs →
  (build_processors names procs).2 = Ok procs' →
  Forall (λ e, processors_all !! e.1 = Some e.2) procs'.
Proof.
  revert procs. induction names as [|t names IH]; intros procs Hown;
    cbn [build_processors].
  { by intros [= <-]. }
  destruct (processors_all !! t) as [p|] eqn:Hp; [|done].
  apply IH. by apply dict_set_own.
Qed.

Lemma build_train_on_dom train_on_list names t :
  is_Some (build_train_on train_on_list names !! t)
  ↔ t ∈ take (length train_on_list) names.
Proof.
  unfold build_train_on.
  assert (∀ (l : list (string * string)) (d : gmap string string),
            is_Some (foldl (λ d '(train_on, task_name),
                        <[task_name := train_on]> d) d l !! t)
            ↔ t ∈ l.*2 ∨ is_Some (d !! t)) as Hfold.
  { induction l as [|[v k] l IH]; intros d; simpl.
    - rewrite elem_of_nil. tauto.
    - rewrite IH, elem_of_cons, lookup_insert_is_Some. 
      destruct (decide (k = t)); naive_solver. }
  rewrite Hfold, lookup_empty, is_Some_alt.
  assert ((zip train_on_list names).*2 = take (length train_on_list) names)
    as ->; [|tauto].
  revert names. induction train_on_list as [|v l IH]; intros [|k names];
    simpl; try done. by rewrite IH.
Qed.

(** A conversion of training examples that returns has converted them. *)
Lemma convert_done a t examples features :
  (convert Train a t examples).2 = Ok features →
  train_reads (convert Train a t examples).1 = []
  ∧ train_converts (convert Train a t examples).1 = [t].
Proof.
  unfold convert, route. repeat case_decide;
    rewrite ?ret_bind, ?raise_bind, ?emit_bind; done.
Qed.

(** A loading that returns has read and converted every task of
    [processors], in order. *)
Lemma load_train_done a ps d features :
  (load_train a ps d).2 = Ok features →
  train_reads (load_train a ps d).1 = ps.*1
  ∧ train_converts (load_train a ps d).1 = ps.*1.
Proof.
  revert features. induction ps as [|[t p] ps IH]; intros features;
    cbn [load_train]; [done|].
  destruct (d !! t) as [train_on|]; [|done].
  rewrite emit_bind. cbn [fst snd].
  intros (f1 & Hconv & Hrun)%bind_ok_inv.
  apply bind_ok_inv in Hrun as (more & Hmore & _).
  rewrite (bind_ok_log _ _ f1), (bind_ok_log _ _ more) by done.
  destruct (convert_done _ _ _ _ Hconv) as [Hr Hc].
  destruct (IH _ Hmore) as [Hr' Hc'].
  unfold train_reads, train_converts in *. cbn [omap list_omap].
  rewrite !omap_app, Hr, Hc, Hr', Hc'. cbn [fst]. by rewrite !app_nil_r.
Qed.

(** The processors of a run cover its task names. *)
Lemma dict_set_covers {V} t k (v : V) d :
  t = k ∨ t ∈ d.*1 → t ∈ (dict_set k v d).*1.
Proof.
  induction d as [|[k' v'] d IH]; simpl.
  { set_solver. }
  case_decide; subst; simpl; set_solver.
Qed.

Lemma build_processors_covers names procs ps t :
  (build_processors names procs).2 = Ok ps →
  t ∈ names ∨ t ∈ procs.*1 → t ∈ ps.*1.
Proof.
  revert procs. induction names as [|k names IH]; intros procs;
    cbn [build_processors].
  { intros [= <-] [Hin|Hin]; [by apply elem_of_nil in Hin|done]. }
  destruct (processors_all !! k) as [p|]; [|done]. intros Hrun Hin.
  apply (IH _ Hrun). destruct Hin as [Hin|Hin].
  - apply elem_of_cons in Hin as [->|Hin]; [|by left].
    right. apply dict_set_covers. by left.
  - right. apply dict_set_covers. by right.
Qed.

Lemma build_processors_known names procs :
  Forall (λ t, is_Some (processors_all !! t)) names →
  ∃ ps, build_processors names procs = ret ps.
Proof.
  intros Hknown. revert procs.
  induction Hknown as [|t names [p Hp] _ IH]; intros procs;
    cbn [build_processors]; [by eauto|].
  rewrite Hp. apply IH.
Qed.

Lemma dict_set_subset {V} t k (v : V) d :
  t ∈ (dict_set k v d).*1 → t = k ∨ t ∈ d.*1.
Proof.
  induction d as [|[k' v'] d IH]; simpl.
  { set_solver. }
  case_decide; subst; simpl; set_solver.
Qed.

Lemma build_processors_subset names procs ps t :
  (build_processors names procs).2 = Ok ps →
  t ∈ ps.*1 → t ∈ names ∨ t ∈ procs.*1.
Proof.
  revert procs. induction names as [|k names IH]; intros procs;
    cbn [build_processors].
  { intros [= <-] Hin. by right. }
  destruct (processors_all !! k) as [p|]; [|done]. intros Hrun Hin.
  destruct (IH _ Hrun Hin) as [Ht|Ht]; [left; set_solver|].
  apply dict_set_subset in Ht as [->|Ht]; [left; set_solver|by right].
Qed.

(** Loading returns when every task has its processor and a [train_on]
    entry. *)
Lemma load_train_ok a ps d :
  Forall (λ e : string * processor,
      is_Some (d !! e.1) ∧ processors_all !! e.1 = Some e.2) ps →
  ∃ features, (load_train a ps d).2 = Ok features.
Proof.
  induction 1 as [|[t p] ps [[v Hv] Hp] _ [more IH]]; cbn [load_train].
  { by eauto. }
  cbn [fst snd] in *. rewrite Hv, emit_bind. cbn [snd].
  destruct (convert_ok Train a t
              (get_train_examples p (path_join (data_dir a) t) v))
    as [features Hconv]; [by eapply known_routes|].
  rewrite (bind_ok_res _ _ features) by done.
  rewrite (bind_ok_res _ _ more) by done. eauto.
Qed.

Lemma batch_sizes_length n b :
  (0 < n)%nat → (0 < b)%nat →
  (0 < length (batch_sizes n b) ≤ n)%nat.
Proof.
  intros Hn Hb. unfold batch_sizes.
  rewrite length_app, length_replicate.
  pose proof (Nat.div_mod_eq n b) as Hdm.
  pose proof (Nat.mod_upper_bound n b ltac:(lia)) as Hm.
  destruct (Nat.eqb_spec (n mod b) 0); cbn [length]; nia.
Qed.

(** A run that stops at [print_para_names] and returns: its log is the
    saving of the arguments and the loading. *)
Lemma main_print_returned a fs :
  do_train a = true → print_para_names a = true →
  (main a fs).2 = Ok tt →
  ∃ ps features,
    (build_processors (task_names a) []).2 = Ok ps
    ∧ (load_train a ps
         (build_train_on (train_on_list a) (task_names a))).2 = Ok features
    ∧ (main a fs).1
      = SaveArgs
        :: (load_train a ps
              (build_train_on (train_on_list a) (task_names a))).1.
Proof.
  intros Htrain Hprint. unfold main. rewrite Htrain, Hprint.
  intros (bs & Hbs & Hrun)%bind_ok_inv.
  rewrite (silent_ret _ bs (λ P, floordiv_silent P _ _) Hbs), ret_bind.
  apply bind_ok_inv in Hrun as ([] & Hseed & Hrun).
  rewrite (silent_ret _ tt (λ P, seed_everything_silent P _) Hseed), ret_bind.
  apply bind_ok_inv in Hrun as ([] & Hdir & Hrun).
  rewrite (silent_ret _ tt (λ P, make_output_dir_silent P _) Hdir), ret_bind.
  apply bind_ok_inv in Hrun as ([] & Hsave & Hrun).
  assert (save_train_args a = emit SaveArgs) as ->.
  { revert Hsave. unfold save_train_args. rewrite Htrain.
    by destruct (save_args _). }
  rewrite emit_bind. cbn [fst snd].
  apply bind_ok_inv in Hrun as ([] & Hcheck & Hrun).
  rewrite (silent_ret _ tt (λ P, check_task_names_silent P _) Hcheck),
    ret_bind.
  apply bind_ok_inv in Hrun as (ps & Hps & Hrun).
  rewrite (silent_ret _ ps (λ P, build_processors_silent P _ _) Hps),
    ret_bind.
  apply bind_ok_inv in Hrun as (trained & Hrun & _).
  apply bind_ok_inv in Hrun as (features & Hload & Hrun).
  apply bind_ok_inv in Hrun as (loader & Hloader & Hrun).
  apply bind_ok_inv in Hrun as ([max_steps epochs] & Hsched & Hrun).
  injection Hrun as <-.
  exists ps, features. split; [done|]. split; [done|]. f_equal.
  rewrite (bind_ok_log _ _ false).
  2: { rewrite (bind_ok_res _ _ features) by done.
       rewrite (bind_ok_res _ _ loader) by done. cbv zeta.
       by rewrite (bind_ok_res _ _ (max_steps, epochs)) by done. }
  cbn [fst ret]. rewrite app_nil_r.
  rewrite (bind_ok_log _ _ features) by done.
  rewrite (silent_ret _ loader (λ P, DataLoader_silent P _ _) Hloader),
    ret_bind. cbv zeta.
  rewrite (silent_ret _ (max_steps, epochs)
             (λ P, schedule_silent P _ _) Hsched), ret_bind.
  cbn [fst ret]. by rewrite app_nil_r.
Qed.

(** What it takes for the schedule to be computed exactly. *)
Lemma schedule_returns a len :
  0 < gradient_accumulation_steps a < 2 ^ 53 →
  0 < Z.of_nat len < 2 ^ 53 →
  (∀ m, max_train_steps a = Some m → small m = true) →
  (max_train_steps a = None →
   is_double (num_train_epochs a) = true
   ∧ is_double (num_train_epochs a
                * inject_Z (updates_per_epoch a len)) = true) →
  ∃ sched, schedule a len = ret sched.
Proof.
  intros Hg Hlen Hsome Hnone.
  pose proof (updates_per_epoch_bounds a len (proj1 Hg)) as HUb.
  assert (0 < updates_per_epoch a len) as HU.
  { unfold updates_per_epoch. Z.div_mod_to_equations. nia. }
  unfold schedule. rewrite ceil_div_epoch, ret_bind by lia.
  destruct (max_train_steps a) as [m|].
  - unfold ceil_div. destruct (Z.eqb_spec (updates_per_epoch a len) 0); [lia|].
    rewrite (Hsome m eq_refl), small_within by lia. cbn [andb].
    rewrite ret_bind. eauto.
  - destruct (Hnone eq_refl) as [HE HEU]. unfold int_of_product.
    rewrite HE, HEU, small_within by lia. cbn [andb].
    rewrite ret_bind. eauto.
Qed.

(** X12: [--print_para_names] ends the run. A run with [do_train] and
    [print_para_names] computes no gradient, performs no update, evaluates
    nothing and runs no test, whatever [do_eval] and [do_test] say: it
    does nothing but save the arguments and load the training data.  When
    it returns, it has saved the arguments first and has read and
    converted the training examples of every task named, and of no
    other.  And it returns, the model once loaded, when the start-up goes
    through, the accumulation factor is positive and not above the batch
    size, every task is known and has a [train_on] entry, the training
    features, [n] of them, are at least one, and the arithmetic of the
    schedule is exact: the numbers are below 2**53, and [num_train_epochs]
    and its product with the updates of an epoch are doubles when no
    [max_train_steps] is given. *)
Theorem print_para_names_only_loads a fs n :
  do_train a = true → print_para_names a = true →
  Forall loads_training_data (main a fs).1
  ∧ ((main a fs).2 = Ok tt →
     head (main a fs).1 = Some SaveArgs
     ∧ train_converts (main a fs).1 = train_reads (main a fs).1
     ∧ ∀ t, t ∈ task_names a ↔ t ∈ train_reads (main a fs).1)
  ∧ (0 < gradient_accumulation_steps a < 2 ^ 53 →
     gradient_accumulation_steps a ≤ train_batch_size a →
     starts_up a →
     Forall (λ t, is_Some (processors_all !! t)) (task_names a) →
     (length (task_names a) ≤ length (train_on_list a))%nat →
     (∀ ps features,
        (build_processors (task_names a) []).2 = Ok ps →
        (load_train a ps
           (build_train_on (train_on_list a) (task_names a))).2
        = Ok features →
        length features = n) →
     0 < Z.of_nat n < 2 ^ 53 →
     (∀ m, max_train_steps a = Some m → small m = true) →
     (max_train_steps a = None →
      is_double (num_train_epochs a) = true
      ∧ is_double
          (num_train_epochs a
           * inject_Z
               (updates_per_epoch a
                  (length
                     (batch_sizes n
                        (Z.to_nat (train_batch_size a
                                   `div` gradient_accumulation_steps a))))))
        = true) →
     (main a fs).2 = Ok tt).
Proof.
  intros Htrain Hprint. split; [|split].
  - change (log_all loads_training_data (main a fs)).
    unfold main. rewrite Htrain, Hprint.
    apply log_all_bind; [apply floordiv_silent|intros batch_size].
    apply log_all_bind; [apply seed_everything_silent|intros _].
    apply log_all_bind; [apply make_output_dir_silent|intros _].
    apply log_all_bind; [by apply save_train_args_emits|intros _].
    apply log_all_bind; [apply check_task_names_silent|intros _].
    apply log_all_bind; [apply build_processors_silent|intros procs].
    apply log_all_bind_val.
    + apply log_all_bind; [apply load_train_loads|intros features].
      apply log_all_bind; [apply DataLoader_silent|intros loader].
      apply log_all_bind; [apply schedule_silent|intros [max_steps epochs]].
      apply log_all_ret.
    + intros trained Hrun.
      apply bind_ok_inv in Hrun as (features & _ & Hrun).
      apply bind_ok_inv in Hrun as (loader & _ & Hrun).
      apply bind_ok_inv in Hrun as ([max_steps epochs] & _ & Hrun).
      injection Hrun as <-. apply log_all_ret.
  - intros Hrun.
    destruct (main_print_returned a fs Htrain Hprint Hrun)
      as (ps & features & Hps & Hload & ->).
    destruct (load_train_done _ _ _ _ Hload) as [Hr Hc].
    split; [done|]. split.
    + unfold train_converts, train_reads in *. cbn [omap list_omap].
      by rewrite Hr, Hc.
    + intros t. unfold train_reads in *. cbn [omap list_omap]. rewrite Hr.
      split.
      * intros Hin. apply (build_processors_covers _ _ _ _ Hps). by left.
      * intros Hin. apply (build_processors_subset _ _ _ _ Hps) in Hin
          as [Hin|Hin]; [done|by apply elem_of_nil in Hin].
  - intros Hg Hbatch Hstart Hknown Hlen Hfeatures Hn Hsome Hnone.
    destruct (start_up a Hstart) as (Hseed & Hdir & Hsave).
    destruct (build_processors_known (task_names a) [] Hknown) as [ps Hps].
    assert ((build_processors (task_names a) []).2 = Ok ps) as Hps'
      by by rewrite Hps.
    destruct (load_train_ok a ps
                (build_train_on (train_on_list a) (task_names a)))
      as [features Hload].
    { pose proof (build_processors_own _ [] _ ltac:(constructor) Hps') as Hown.
      apply Forall_forall. intros e He. split.
      - apply build_train_on_dom. rewrite take_ge by lia.
        assert (e.1 ∈ ps.*1) as Hin
          by (apply list_elem_of_fmap; by exists e).
        apply (build_processors_subset _ _ _ _ Hps') in Hin as [Hin|Hin];
          [done|by apply elem_of_nil in Hin].
      - rewrite Forall_forall in Hown. by apply Hown. }
    pose proof (Hfeatures ps features Hps' Hload) as Hcount.
    set (bs := train_batch_size a `div` gradient_accumulation_steps a) in *.
    assert (1 ≤ bs) as Hbs.
    { subst bs. Z.div_mod_to_equations. nia. }
    destruct (batch_sizes_length n (Z.to_nat bs)) as [Hl1 Hl2]; [lia|lia|].
    destruct (schedule_returns a (length (batch_sizes n (Z.to_nat bs))))
      as [sched Hsched]; [done|lia|done|done|].
    unfold main.
    rewrite floordiv_ok, ret_bind, Hseed, ret_bind, Hdir, ret_bind by lia.
    rewrite Hsave, Htrain, Hprint, emit_bind. cbn [snd].
    rewrite check_task_names_known, ret_bind, Hps, ret_bind by done.
    rewrite (bind_ok_res _ _ false); [done|].
    rewrite (bind_ok_res _ _ features) by done. rewrite Hcount.
    fold bs. unfold DataLoader.
    destruct (Nat.eqb_spec n 0); [lia|].
    destruct (Z.leb_spec bs 0); [lia|].
    rewrite ret_bind. cbv zeta. rewrite Hsched, ret_bind.
    by destruct sched.
Qed.

Lemma convert_tests a t examples :
  log_all tests (convert Test a t examples).
Proof. unfold convert. emits; done. Qed.

Lemma test_tests a procs : log_all tests (test a procs).
Proof.
  unfold test. apply log_all_bind.
  { unfold load_eval. destruct (task_names a) as [|t names]; [apply log_all_raise|].
    destruct (dict_get t procs); [|apply log_all_raise].
    apply log_all_bind; [by apply log_all_emit|intros _].
    apply log_all_bind; [apply convert_tests|intros features].
    apply log_all_bind; [apply DataLoader_silent|intros; apply log_all_ret]. }
  intros ev. apply log_all_bind; [by apply log_all_eval_loop|intros _].
  emits; done.
Qed.

(** X13: no training, no evaluation. In a run without [do_train], the
    only things done are those of the final test: [do_eval] has no effect
    on its own, no checkpoint is written and no file of results of an
    evaluation round. *)
Theorem evaluation_needs_training a fs :
  do_train a = false → Forall tests (main a fs).1.
Proof.
  intros Htrain. change (log_all tests (main a fs)).
  unfold main. rewrite Htrain.
  apply log_all_bind; [apply floordiv_silent|intros batch_size].
  apply log_all_bind; [apply seed_everything_silent|intros _].
  apply log_all_bind; [apply make_output_dir_silent|intros _].
  apply log_all_bind.
  { unfold save_train_args. rewrite Htrain. apply log_all_ret. }
  intros _.
  apply log_all_bind; [apply check_task_names_silent|intros _].
  apply log_all_bind; [apply build_processors_silent|intros procs].
  rewrite ret_bind.
  destruct (do_test a); [apply test_tests|apply log_all_ret].
Qed.

(** ** The checkpoints of the loop *)

Lemma eval_round_on_schedule a ev e s st :
  save_steps a ≠ 0 → global_step st `mod` save_steps a = 0 →
  log_all (checkpoint_on_schedule a) (eval_round a ev e s st).
Proof.
  intros Hsave Hmod. unfold eval_round.
  apply log_all_bind; [by apply log_all_eval_loop|intros _].
  apply log_all_bind_val; [emits|]. intros [] Hgs.
  destruct (Z.eqb_spec (global_step st) 0) as [|Hne]; [done|].
  apply log_all_bind; [emits|intros _].
  apply log_all_bind; [apply log_all_route|intros fam].
  apply log_all_bind.
  { apply log_all_emit. simpl. eauto 10. }
  intros _. emits; done.
Qed.

Lemma noise_on_schedule a e s : log_all (checkpoint_on_schedule a) (noise a e s).
Proof.
  unfold noise. destruct (mft a); [|apply log_all_ret].
  cbv zeta. destruct (_.1); [by apply log_all_emit|apply log_all_raise].
Qed.

Lemma micro_batch_on_schedule a len max_steps ev e s st :
  log_all (checkpoint_on_schedule a) (micro_batch a len max_steps ev e s st).
Proof.
  unfold micro_batch. apply log_all_bind; [apply noise_on_schedule|intros _].
  do 2 (apply log_all_bind; [emits; done|intros ?]).
  apply log_all_bind; [emits; done|intros st1].
  apply log_all_bind; [|intros; apply log_all_ret].
  destruct ev as [ev0|]; [|apply log_all_ret].
  destruct (Z.eq_dec (save_steps a) 0) as [Hs|Hs].
  { rewrite py_mod_zero by done. rewrite raise_bind. apply log_all_raise. }
  rewrite py_mod_ok, ret_bind by done.
  destruct (Z.eqb_spec (global_step st1 `mod` save_steps a) 0);
    [by apply eval_round_on_schedule|apply log_all_ret].
Qed.

Lemma batch_loop_on_schedule a len max_steps ev e steps st :
  log_all (checkpoint_on_schedule a) (batch_loop a len max_steps ev e steps st).
Proof.
  revert st. induction steps as [|s steps IH]; intros st; cbn [batch_loop].
  { apply log_all_ret. }
  apply log_all_bind; [apply micro_batch_on_schedule|].
  intros [st1 [|]]; [apply log_all_ret|apply IH].
Qed.

(** X14: when checkpoints are written. Every checkpoint that the training
    loop writes is named after a global step that is not 0 and is a
    multiple of [save_steps], and after the F1 of the evaluation round of
    some micro-batch. *)
Theorem checkpoints_on_schedule a len max_steps epochs ev fs :
  Forall (checkpoint_on_schedule a) (train a len max_steps epochs ev fs).1.
Proof.
  unfold train.
  generalize {| global_step := 0; best := empty_pool fs |} false.
  induction (seq 0 (Z.to_nat epochs)) as [|e rest IH]; intros st wrap;
    cbn [epoch_loop].
  { apply log_all_ret. }
  destruct wrap; [apply log_all_ret|].
  apply log_all_bind; [apply batch_loop_on_schedule|].
  intros [st1 w]. apply IH.
Qed.

(** ** The pool of the loop *)

Lemma eval_round_pool a ev e s st st' :
  (length (best_result (best st)) ≤ 3)%nat →
  (eval_round a ev e s st).2 = Ok st' →
  (length (best_result (best st')) ≤ 3)%nat ∧ ranked (best_result (best st')).
Proof.
  intros Hlen Hrun. unfold eval_round in Hrun.
  repeat (apply bind_ok_inv in Hrun as (? & _ & Hrun)).
  injection Hrun as <-. cbn [best].
  pose proof (retain_keeps (eval_f1 e s)
                (output_model_file (output_dir a) (global_step st)
                   (eval_f1 e s)) (best st) Hlen).
  tauto.
Qed.

Lemma micro_batch_pool a len max_steps ev e s st st' w :
  (length (best_result (best st)) ≤ 3)%nat ∧ ranked (best_result (best st)) →
  (micro_batch a len max_steps ev e s st).2 = Ok (st', w) →
  (length (best_result (best st')) ≤ 3)%nat ∧ ranked (best_result (best st')).
Proof.
  intros Hpool Hrun. unfold micro_batch in Hrun.
  apply bind_ok_inv in Hrun as (? & _ & Hrun).
  apply bind_ok_inv in Hrun as (? & _ & Hrun).
  apply bind_ok_inv in Hrun as (r & _ & Hrun).
  apply bind_ok_inv in Hrun as (st1 & Hst1 & Hrun).
  apply bind_ok_inv in Hrun as (st2 & Hst2 & Hrun).
  injection Hrun as <- _.
  assert (best st1 = best st) as Hb1.
  { destruct (_ || _).
    - apply bind_ok_inv in Hst1 as (? & _ & Hst1). by injection Hst1 as <-.
    - by injection Hst1 as <-. }
  rewrite <- Hb1 in Hpool.
  destruct ev as [ev0|]; [|by injection Hst2 as <-].
  apply bind_ok_inv in Hst2 as (r' & _ & Hst2).
  destruct (r' =? 0); [|by injection Hst2 as <-].
  eapply eval_round_pool; [|done]. tauto.
Qed.

Lemma batch_loop_pool a len max_steps ev e steps st st' w :
  (length (best_result (best st)) ≤ 3)%nat ∧ ranked (best_result (best st)) →
  (batch_loop a len max_steps ev e steps st).2 = Ok (st', w) →
  (length (best_result (best st')) ≤ 3)%nat ∧ ranked (best_result (best st')).
Proof.
  revert st. induction steps as [|s steps IH]; intros st Hpool;
    cbn [batch_loop].
  { by intros [= <- _]. }
  intros ([st1 w1] & Hm & Hrun)%bind_ok_inv.
  apply micro_batch_pool in Hm; [|done].
  destruct w1; [by injection Hrun as <- _|]. by eapply IH.
Qed.

(** X15: the pool of a run. When training ends without exception, the
    pool of checkpoints that the loop has kept holds at most three entries,
    in descending order of F1. *)
Theorem train_pool_invariant a len max_steps epochs ev fs st :
  (train a len max_steps epochs ev fs).2 = Ok st →
  (length (best_result (best st)) ≤ 3)%nat ∧ ranked (best_result (best st)).
Proof.
  unfold train.
  assert ((length (best_result (best {| global_step := 0;
                                        best := empty_pool fs |})) ≤ 3)%nat
          ∧ ranked (best_result (best {| global_step := 0;
                                         best := empty_pool fs |}))) as Hpool.
  { simpl. split; [lia|constructor]. }
  revert Hpool.
  generalize {| global_step := 0; best := empty_pool fs |} false.
  induction (seq 0 (Z.to_nat epochs)) as [|e rest IH]; intros st0 wrap Hpool;
    cbn [epoch_loop].
  { by intros [= <-]. }
  destruct wrap; [by intros [= <-]|].
  intros ([st1 w1] & Hm & Hrun)%bind_ok_inv.
  apply batch_loop_pool in Hm; [|done]. by eapply IH.
Qed.

(** ** Tasks and their processors *)

Lemma dict_get_own t p (d : list (string * processor)) :
  Forall (λ e, processors_all !! e.1 = Some e.2) d →
  dict_get t d = Some p → processors_all !! t = Some p.
Proof.
  induction 1 as [|[t' p'] d Ht' Hd IH]; simpl; [done|].
  case_decide; [|done]. intros [= <-]. by subst.
Qed.

Lemma convert_own ph a t examples :
  log_all reads_with_own_processor (convert ph a t examples).
Proof. unfold convert. emits; done. Qed.

Lemma load_train_own a procs train_on_dataset :
  Forall (λ e, processors_all !! e.1 = Some e.2) procs →
  log_all reads_with_own_processor (load_train a procs train_on_dataset).
Proof.
  induction 1 as [|[t p] procs Hp _ IH]; cbn [load_train].
  { apply log_all_ret. }
  destruct (train_on_dataset !! t) as [train_on|]; [|apply log_all_raise].
  apply log_all_bind; [by apply log_all_emit|intros _].
  apply log_all_bind; [apply convert_own|intros features].
  apply log_all_bind; [apply IH|intros; apply log_all_ret].
Qed.

Lemma load_eval_own ph a procs split :
  Forall (λ e, processors_all !! e.1 = Some e.2) procs →
  log_all reads_with_own_processor (load_eval ph a procs split).
Proof.
  intros Hown. unfold load_eval.
  destruct (task_names a) as [|t names]; [apply log_all_raise|].
  destruct (dict_get t procs) as [p|] eqn:Hp; [|apply log_all_raise].
  apply log_all_bind.
  { apply log_all_emit. simpl. by eapply dict_get_own. }
  intros _. apply log_all_bind; [apply convert_own|intros features].
  apply log_all_bind; [apply DataLoader_silent|intros; apply log_all_ret].
Qed.

(** X16: each task is read by its own processor. Whenever a run reads
    training, evaluation or test examples of a task, it does so with the
    processor registered for the name of that task in [processors_all]. *)
Theorem examples_read_by_own_processor a fs :
  Forall reads_with_own_processor (main a fs).1.
Proof.
  change (log_all reads_with_own_processor (main a fs)). unfold main.
  apply log_all_bind; [apply floordiv_silent|intros batch_size].
  apply log_all_bind; [apply seed_everything_silent|intros _].
  apply log_all_bind; [apply make_output_dir_silent|intros _].
  apply log_all_bind; [by apply save_train_args_emits|intros _].
  apply log_all_bind; [apply check_task_names_silent|intros _].
  apply log_all_bind_val; [apply build_processors_silent|intros procs Hprocs].
  apply build_processors_own in Hprocs; [|constructor].
  apply log_all_bind.
  - destruct (do_train a); [|apply log_all_ret].
    apply log_all_bind; [by apply load_train_own|intros features].
    apply log_all_bind; [apply DataLoader_silent|intros len].
    apply log_all_bind; [apply schedule_silent|intros [max_steps epochs]].
    destruct (print_para_names a); [apply log_all_ret|].
    apply log_all_bind.
    + destruct (do_eval a); [|apply log_all_ret].
      apply log_all_bind; [|intros; apply log_all_ret].
      by apply load_eval_own.
    + intros ev. apply log_all_bind; [|intros; apply log_all_ret].
      eapply log_all_impl; [apply train_emits|].
      intros x. by destruct x.
  - intros [|]; [|apply log_all_ret].
    destruct (do_test a); [|apply log_all_ret].
    unfold test. apply log_all_bind; [by apply load_eval_own|intros ev].
    apply log_all_bind; [by apply log_all_eval_loop|intros _].
    emits; done.
Qed.

(** ** Tasks without a [train_on] entry *)

Lemma dict_set_fresh {V} t (v : V) d :
  t ∉ d.*1 → dict_set t v d = d ++ [(t, v)].
Proof.
  induction d as [|[t' v'] d IH]; simpl; [done|].
  intros Hnot. rewrite decide_False by set_solver.
  rewrite IH; [done|set_solver].
Qed.

Lemma build_processors_nodup names procs :
  NoDup (procs.*1 ++ names) →
  Forall (λ t, is_Some (processors_all !! t)) names →
  ∃ ps, build_processors names procs = ret (procs ++ ps)
        ∧ ps.*1 = names
        ∧ Forall (λ e, processors_all !! e.1 = Some e.2) ps.
Proof.
  revert procs. induction names as [|t names IH]; intros procs Hnd Hknown.
  { exists []. by rewrite app_nil_r. }
  apply Forall_cons in Hknown as [[p Hp] Hknown].
  cbn [build_processors]. rewrite Hp.
  assert (t ∉ procs.*1) as Hfresh.
  { apply NoDup_app in Hnd as (_ & Hdis & _). intros Hin.
    apply (Hdis t Hin). by left. }
  rewrite dict_set_fresh by done.
  destruct (IH (procs ++ [(t, p)])) as (ps & Hrun & Hnames & Hown); [|done|].
  { rewrite fmap_app, <- app_assoc. done. }
  exists ((t, p) :: ps). rewrite Hrun, <- app_assoc. simpl.
  repeat split; [by f_equal|by constructor].
Qed.

Lemma load_train_missing a pre t p post d :
  Forall (λ e : string * processor,
      is_Some (d !! e.1) ∧ processors_all !! e.1 = Some e.2) pre →
  d !! t = None →
  (load_train a (pre ++ (t, p) :: post) d).2 = Err (KeyError t)
  ∧ train_reads (load_train a (pre ++ (t, p) :: post) d).1 = pre.*1
  ∧ train_converts (load_train a (pre ++ (t, p) :: post) d).1 = pre.*1.
Proof.
  intros Hpre Hnone.
  induction Hpre as [|[t' p'] pre [[v Hv] Hp'] _ (IHres & IHr & IHc)];
    cbn [load_train app].
  { by rewrite Hnone. }
  cbn [fst snd] in *. rewrite Hv, emit_bind. cbn [fst snd].
  destruct (convert_ok Train a t'
              (get_train_examples p' (path_join (data_dir a) t') v))
    as [features Hconv]; [by eapply known_routes|].
  destruct (convert_done _ _ _ _ Hconv) as [Hr Hc].
  rewrite (bind_ok_res _ _ features), (bind_ok_log _ _ features) by done.
  rewrite (bind_err_res _ _ (KeyError t)),
    (bind_err_log _ _ (KeyError t)) by done.
  split; [done|].
  unfold train_reads, train_converts in *. cbn [omap list_omap].
  rewrite !omap_app, Hr, Hc, IHr, IHc. done.
Qed.

(** X17: a task without a [train_on] entry. In a training run over
    pairwise distinct known tasks with fewer [train_on] entries than
    tasks, whose start-up goes through, [zip] leaves the tasks beyond the
    entries out of [train_on_dataset]: the run ends with KeyError on the
    first task that has no entry, after the tasks before it, and no
    other, have been read and converted, and before any training. *)
Theorem train_on_entry_missing a fs :
  do_train a = true → gradient_accumulation_steps a ≠ 0 → starts_up a →
  NoDup (task_names a) →
  Forall (λ t, is_Some (processors_all !! t)) (task_names a) →
  (length (train_on_list a) < length (task_names a))%nat →
  ∃ t, task_names a !! length (train_on_list a) = Some t
       ∧ (main a fs).2 = Err (KeyError t)
       ∧ Forall loads_training_data (main a fs).1
       ∧ train_reads (main a fs).1
         = take (length (train_on_list a)) (task_names a)
       ∧ train_converts (main a fs).1
         = take (length (train_on_list a)) (task_names a).
Proof.
  intros Htrain Hg Hstart Hnd Hknown Hlen.
  destruct (start_up a Hstart) as (Hseed & Hdir & Hsave).
  destruct (lookup_lt_is_Some_2 (task_names a) (length (train_on_list a)))
    as [t Ht]; [done|].
  exists t. split; [done|].
  destruct (build_processors_nodup (task_names a) [])
    as (ps & Hps & Hnames & Hown); [done|done|].
  assert (build_train_on (train_on_list a) (task_names a) !! t = None)
    as Hmissing.
  { apply eq_None_not_Some. rewrite build_train_on_dom.
    intros Hin. apply list_elem_of_lookup in Hin as [i Hi].
    pose proof (lookup_lt_Some _ _ _ Hi) as Hlt.
    rewrite length_take in Hlt. rewrite lookup_take_lt in Hi by lia.
    pose proof (NoDup_lookup _ _ _ _ Hnd Hi Ht). lia. }
  assert (∃ pre p post, ps = pre ++ (t, p) :: post
            ∧ pre.*1 = take (length (train_on_list a)) (task_names a))
    as (pre & p & post & -> & Hpre).
  { rewrite <- Hnames in Ht. rewrite list_lookup_fmap in Ht.
    destruct (ps !! length (train_on_list a)) as [[t' p]|] eqn:Hp; [|done].
    injection Ht as <-. 
    exists (take (length (train_on_list a)) ps), p,
      (drop (S (length (train_on_list a))) ps).
    split.
    - rewrite <- (take_drop_middle _ _ _ Hp) at 1. done.
    - by rewrite fmap_take, Hnames. }
  destruct (load_train_missing a pre t p post
              (build_train_on (train_on_list a) (task_names a)))
    as (Hload & Hreads & Hconverts); [|done|].
  { apply Forall_app in Hown as [Hown _].
    apply Forall_forall. intros e He. split.
    - apply build_train_on_dom. rewrite <- Hpre.
      apply list_elem_of_fmap. eauto.
    - rewrite Forall_forall in Hown. by apply Hown. }
  assert (main a fs
          = (SaveArgs
             :: (load_train a (pre ++ (t, p) :: post)
                   (build_train_on (train_on_list a) (task_names a))).1,
             Err (KeyError t))) as ->.
  { unfold main.
    rewrite floordiv_ok, ret_bind, Hseed, ret_bind, Hdir, ret_bind by done.
    rewrite Hsave, Htrain, emit_bind.
    rewrite check_task_names_known, ret_bind, Hps, ret_bind by done.
    simpl app. f_equal.
    - f_equal. rewrite (bind_err_log _ _ (KeyError t));
        [|by rewrite (bind_err_res _ _ (KeyError t))].
      by rewrite (bind_err_log _ _ (KeyError t)).
    - rewrite (bind_err_res _ _ (KeyError t)); [done|].
      by rewrite (bind_err_res _ _ (KeyError t)). }
  cbn [fst snd]. split; [done|]. split.
  { constructor; [done|]. apply load_train_loads. }
  unfold train_reads, train_converts in *. cbn [omap list_omap].
  by rewrite Hreads, Hconverts, Hpre.
Qed.

(** ** Tasks named twice *)

Lemma dict_set_keys {V} k (v : V) d :
  (dict_set k v d).*1 = if decide (k ∈ d.*1) then d.*1 else d.*1 ++ [k].
Proof.
  induction d as [|[k' v'] d IH]; [done|].
  cbn [dict_set]. destruct (decide (k' = k)) as [->|Hne].
  - rewrite !fmap_cons. cbn [fst]. rewrite decide_True by left. done.
  - rewrite !fmap_cons, IH. cbn [fst]. destruct (decide (k ∈ d.*1)).
    + rewrite decide_True by by right. done.
    + rewrite decide_False; [done|]. set_solver.
Qed.

Lemma build_processors_keys names procs ps :
  NoDup procs.*1 → (build_processors names procs).2 = Ok ps →
  NoDup ps.*1 ∧ ∀ t, t ∈ ps.*1 → t ∈ procs.*1 ∨ t ∈ names.
Proof.
  revert procs. induction names as [|t names IH]; intros procs Hnd;
    cbn [build_processors].
  { intros [= <-]. split; [done|]. by left. }
  destruct (processors_all !! t) as [p|]; [|done]. intros Hrun.
  apply IH in Hrun as [Hnd' Hsub].
  - split; [done|]. intros t' Ht'. apply Hsub in Ht' as [Ht'|Ht'].
    + rewrite dict_set_keys in Ht'. case_decide; [by left|].
      apply elem_of_app in Ht' as [?|?%list_elem_of_singleton];
        [by left|right; subst; by left].
    + right. by right.
  - rewrite dict_set_keys. case_decide; [done|].
    apply NoDup_app. split; [done|]. split; [|apply NoDup_singleton].
    intros x Hx ->%list_elem_of_singleton. done.
Qed.

Lemma train_reads_none (l : list event) :
  Forall (λ x, match x with GetTrainExamples _ _ _ _ => False | _ => True end) l →
  train_reads l = [].
Proof.
  induction 1 as [|x l Hx _ IH]; [done|].
  unfold train_reads in *. cbn [omap list_omap]. rewrite IH. by destruct x.
Qed.

Lemma convert_no_reads ph a t examples :
  log_all (λ x, match x with GetTrainExamples _ _ _ _ => False | _ => True end)
    (convert ph a t examples).
Proof. unfold convert. emits; done. Qed.

Lemma load_train_reads a procs train_on_dataset :
  train_reads (load_train a procs train_on_dataset).1 `prefix_of` procs.*1.
Proof.
  induction procs as [|[t p] procs IH]; cbn [load_train].
  { apply prefix_nil. }
  destruct (train_on_dataset !! t) as [train_on|]; [|apply prefix_nil].
  rewrite emit_bind. cbn [fst]. unfold train_reads at 1. cbn [omap list_omap].
  fold (train_reads
          ((features ← convert Train a t
                         (get_train_examples p (path_join (data_dir a) t)
                            train_on);
            more ← load_train a procs train_on_dataset;
            ret (features ++ more)).1)).
  cbn [fmap list_fmap fst]. apply prefix_cons.
  rewrite bind_log, train_reads_app.
  rewrite (train_reads_none (convert _ _ _ _).1) by apply convert_no_reads.
  destruct (_.2); [|apply prefix_nil]. cbn [app].
  rewrite bind_log, train_reads_app. destruct (_.2); cbn [fst snd].
  - by rewrite ret_log, app_nil_r.
  - by rewrite app_nil_r.
Qed.

Lemma train_reads_bind_l {A B} (m : M A) (f : A → M B) :
  log_all (λ x, match x with GetTrainExamples _ _ _ _ => False | _ => True end)
    m →
  train_reads (m ≫= f).1
  = match m.2 with Ok a => train_reads (f a).1 | Err _ => [] end.
Proof.
  intros Hm. rewrite bind_log, train_reads_app, (train_reads_none m.1) by done.
  by destruct m.2.
Qed.

Lemma train_reads_bind_r {A B} (m : M A) (f : A → M B) :
  (∀ a, log_all (λ x, match x with
                      | GetTrainExamples _ _ _ _ => False
                      | _ => True
                      end) (f a)) →
  train_reads (m ≫= f).1 = train_reads m.1.
Proof.
  intros Hf. rewrite bind_log, train_reads_app. destruct m.2 as [a|].
  - by rewrite (train_reads_none (f a).1), app_nil_r by apply Hf.
  - by rewrite app_nil_r.
Qed.

Lemma main_reads a fs :
  train_reads (main a fs).1 = []
  ∨ ∃ ps, (build_processors (task_names a) []).2 = Ok ps
          ∧ train_reads (main a fs).1
            = train_reads
                (load_train a ps
                   (build_train_on (train_on_list a) (task_names a))).1.
Proof.
  unfold main. rewrite train_reads_bind_l by apply floordiv_silent.
  destruct (_.2) as [batch_size|]; [|by left].
  rewrite train_reads_bind_l by apply seed_everything_silent.
  destruct (_.2) as [[]|]; [|by left].
  rewrite train_reads_bind_l by apply make_output_dir_silent.
  destruct (_.2) as [[]|]; [|by left].
  rewrite train_reads_bind_l by by apply save_train_args_emits.
  destruct (_.2) as [[]|]; [|by left].
  rewrite train_reads_bind_l by apply check_task_names_silent.
  destruct (_.2) as [[]|]; [|by left].
  rewrite train_reads_bind_l by apply build_processors_silent.
  destruct (_.2) as [ps|] eqn:Hps; [|by left].
  rewrite train_reads_bind_r.
  2:{ intros [|]; [|apply log_all_ret].
      destruct (do_test a); [|apply log_all_ret].
      eapply log_all_impl; [apply test_tests|]. intros x. by destruct x. }
  destruct (do_train a); [|by left]. right. exists ps. split; [done|].
  apply train_reads_bind_r. intros features.
  apply log_all_bind; [apply DataLoader_silent|intros len].
  apply log_all_bind; [apply schedule_silent|intros [max_steps epochs]].
  destruct (print_para_names a); [apply log_all_ret|].
  apply log_all_bind.
  - destruct (do_eval a); [|apply log_all_ret].
    apply log_all_bind; [|intros; apply log_all_ret].
    unfold load_eval. destruct (task_names a) as [|t names]; [apply log_all_raise|].
    destruct (dict_get t ps); [|apply log_all_raise].
    apply log_all_bind; [by apply log_all_emit|intros _].
    apply log_all_bind; [apply convert_no_reads|intros ?].
    apply log_all_bind; [apply DataLoader_silent|intros; apply log_all_ret].
  - intros ev. apply log_all_bind; [|intros; apply log_all_ret].
    eapply log_all_impl; [apply train_emits|]. intros x. by destruct x.
Qed.

(** X18: a task named twice is read once. The tasks whose training
    examples a run reads are pairwise distinct and are among the tasks
    named on the command line: [processors] is a dictionary, so that a task
    named more than once is read and converted a single time. *)
Theorem training_data_read_once a fs :
  NoDup (train_reads (main a fs).1)
  ∧ ∀ t, t ∈ train_reads (main a fs).1 → t ∈ task_names a.
Proof.
  destruct (main_reads a fs) as [->|(ps & Hps & ->)].
  { split; [constructor|]. by intros t ?%elem_of_nil. }
  apply build_processors_keys in Hps as [Hnd Hsub]; [|constructor].
  pose proof (load_train_reads a ps
                (build_train_on (train_on_list a) (task_names a)))
    as [k Hk].
  rewrite Hk in Hnd. apply NoDup_app in Hnd as [Hnd _]. split; [done|].
  intros t Ht. destruct (Hsub t) as [Hin|Hin]; [|by apply elem_of_nil in Hin|done].
  rewrite Hk. apply elem_of_app. by left.
Qed.

End DriverCourse.

(** * Facts about decoding *)

Section DecodingFacts.
Import Noise Decoding.
Context `{Tokenizer} `{Vocabulary}.

Lemma decode_masked_row p m :
  length m = length p → 0 ∈ all_special_ids →
  decode (zip_with (λ x (b : bool), if b then 0 else x) p ((λ v, v =? 0) <$> m))
  = decode (attended p m).
Proof.
  intros Hlen Hpad. unfold decode, attended. f_equal.
  revert m Hlen. induction p as [|x p IH]; intros [|v m] Hlen; try done.
  simpl in *. injection Hlen as Hlen.
  destruct (Z.eqb_spec v 0) as [->|Hv].
  - rewrite filter_cons_False by (simpl; tauto).
    rewrite (filter_cons_False _ (x, 0)) by (simpl; tauto). by apply IH.
  - rewrite (filter_cons_True _ (x, v)) by done. simpl.
    destruct (decide (x ∈ all_special_ids)).
    + rewrite !filter_cons_False by tauto. by apply IH.
    + rewrite !filter_cons_True by done. f_equal. by apply IH.
Qed.

Lemma csc_fold_predictions (rows : list (list Z * list Z * list Z)) c :
  all_predictions
    (foldl (λ c '(s, t, p),
              {| all_inputs := all_inputs c ++ [decode s];
                 all_labels := all_labels c ++ [decode t];
                 all_predictions := all_predictions c ++ [decode p] |})
           c rows)
  = all_predictions c
    ++ ((λ r : list Z * list Z * list Z, decode r.2) <$> rows).
Proof.
  revert c. induction rows as [|[[s t] p] rows IH]; intros c; simpl.
  { by rewrite app_nil_r. }
  rewrite IH. simpl. by rewrite <- app_assoc.
Qed.

Lemma csc_fold_lengths (rows : list (list Z * list Z * list Z)) c :
  let c' := foldl (λ c '(s, t, p),
              {| all_inputs := all_inputs c ++ [decode s];
                 all_labels := all_labels c ++ [decode t];
                 all_predictions := all_predictions c ++ [decode p] |})
           c rows in
  length (all_inputs c') = (length (all_inputs c) + length rows)%nat
  ∧ length (all_labels c') = (length (all_labels c) + length rows)%nat
  ∧ length (all_predictions c')
    = (length (all_predictions c) + length rows)%nat.
Proof.
  revert c. induction rows as [|[[s t] p] rows IH]; intros c; simpl.
  { lia. }
  destruct (IH {| all_inputs := all_inputs c ++ [decode s];
                  all_labels := all_labels c ++ [decode t];
                  all_predictions := all_predictions c ++ [decode p] |})
    as (H1 & H2 & H3).
  simpl in *. rewrite !length_app in *. simpl in *. lia.
Qed.

(** X19: padding never reaches the metrics. When the id 0 is among the
    special ids of the tokenizer, the decoding of a CSC batch adds, for each
    of its rows, the tokens of the non-special predicted ids at the
    positions that the attention mask keeps, and nothing of the predictions
    at the positions where the mask is 0; the three lists grow by the same
    number of rows. *)
Theorem csc_decode_drops_padding src_ids trg_ids prd_ids attention_mask c c' :
  0 ∈ all_special_ids →
  length src_ids = length prd_ids → length trg_ids = length prd_ids →
  csc_decode_batch src_ids trg_ids prd_ids attention_mask c = Done c' →
  all_predictions c'
  = all_predictions c
    ++ zip_with (λ p m, decode (attended p m)) prd_ids attention_mask
  ∧ length (all_inputs c') = (length (all_inputs c) + length prd_ids)%nat
  ∧ length (all_labels c') = (length (all_labels c) + length prd_ids)%nat
  ∧ length (all_predictions c')
    = (length (all_predictions c) + length prd_ids)%nat.
Proof.
  intros Hpad Hsrc Htrg. unfold csc_decode_batch.
  case_bool_decide as Hshape; [|done]. intros [= <-].
  assert (length attention_mask = length prd_ids) as Hrows.
  { apply (f_equal length) in Hshape. unfold shape in Hshape.
    by rewrite !length_fmap in Hshape. }
  split.
  - rewrite csc_fold_predictions. f_equal.
    change (λ r : list Z * list Z * list Z, decode r.2)
      with (decode ∘ @snd (list Z * list Z) (list Z)).
    rewrite list_fmap_compose, snd_zip.
    2:{ rewrite length_zip. unfold masked_fill. rewrite length_zip_with.
        unfold eq_zero. rewrite length_fmap. lia. }
    unfold masked_fill, eq_zero. clear Hsrc Htrg Hrows.
    revert attention_mask Hshape.
    induction prd_ids as [|p prd IH]; intros [|m mask] Hshape; try done.
    simpl in *. injection Hshape as Hlen Hshape. f_equal; [|by apply IH].
    by apply decode_masked_row.
  - pose proof (csc_fold_lengths
      (zip (zip src_ids trg_ids)
         (masked_fill prd_ids (eq_zero attention_mask) 0)) c) as Hl.
    cbv zeta in Hl.
    rewrite !length_zip in Hl. unfold masked_fill, eq_zero in Hl.
    rewrite length_zip_with, length_fmap in Hl.
    rewrite Hsrc, Htrg, Hrows, !Nat.min_id in Hl. done.
Qed.

Lemma column0_ok trg_ids :
  Forall (λ row : list Z, row ≠ []) trg_ids →
  column0 trg_ids = Done (first_labels trg_ids).
Proof.
  unfold column0, first_labels. intros Hrows.
  assert (mapM head trg_ids = Some (omap head trg_ids)) as ->; [|done].
  induction Hrows as [|row trg Hrow _ IH]; [done|].
  destruct row as [|v row]; [done|].
  cbn [mapM omap list_omap head]. by rewrite IH.
Qed.

Lemma length_column0 trg_ids :
  Forall (λ row : list Z, row ≠ []) trg_ids →
  length (first_labels trg_ids) = length trg_ids.
Proof.
  unfold first_labels. induction 1 as [|row trg Hrow _ IH]; [done|].
  destruct row; [done|]. cbn [omap list_omap head length]. by rewrite IH.
Qed.

Lemma squeeze_vector x : length x ≠ 1%nat → squeeze_tolist x = Vector x.
Proof. by destruct x as [|? [|? ?]]. Qed.

Lemma squeeze_scalar x : length x = 1%nat → ∃ v, squeeze_tolist x = Scalar v.
Proof. destruct x as [|v [|? ?]]; try done. eauto. Qed.

(** X20: a SEQ batch of one example. When some batch of the evaluation
    set of a SEQ task holds exactly one example, decoding raises TypeError:
    [squeeze()] turns the one prediction into an array without dimension,
    whose [tolist()] is a number, and [list.extend] refuses it. *)
Theorem seq_decode_batch_of_one batches c :
  Forall well_shaped batches →
  Exists (λ b, length b.1 = 1%nat) batches →
  seq_decode batches c = Failed (TypeError "'int' object is not iterable").
Proof.
  intros Hshaped. revert c.
  induction Hshaped as [|[prd trg] batches [Hlen Hrows] _ IH]; intros c Hex.
  { by apply Exists_nil in Hex. }
  cbn [seq_decode fst snd] in *. unfold seq_decode_batch.
  destruct (decide (length prd = 1%nat)) as [Hone|Hmore].
  - destruct (squeeze_scalar prd Hone) as [v ->]. done.
  - apply Exists_cons in Hex as [Hex|Hex]; [done|].
    rewrite squeeze_vector by done. cbn [extend].
    rewrite column0_ok, squeeze_vector by (rewrite ?length_column0; congruence).
    cbn [extend]. by apply IH.
Qed.

(** X21: what a SEQ evaluation collects. When no batch of the evaluation
    set holds exactly one example, decoding ends without exception, and it
    has appended the predictions of the batches, in order, to
    [all_predictions] and the first column of their labels to [all_labels]:
    the two lists grow by the same number of entries, one for each
    example. *)
Theorem seq_decode_collects batches c :
  Forall well_shaped batches →
  Forall (λ b, length b.1 ≠ 1%nat) batches →
  seq_decode batches c
  = Done (c.1 ++ concat batches.*1,
          c.2 ++ concat (first_labels <$> batches.*2))
  ∧ length (concat batches.*1)
    = length (concat (first_labels <$> batches.*2)).
Proof.
  intros Hshaped. revert c.
  induction Hshaped as [|[prd trg] batches [Hlen Hrows] _ IH]; intros c Hsizes.
  { simpl. rewrite !app_nil_r. by destruct c. }
  apply Forall_cons in Hsizes as [Hsize Hsizes].
  cbn [seq_decode fst snd] in *. unfold seq_decode_batch.
  rewrite squeeze_vector by done. cbn [extend].
  rewrite column0_ok, squeeze_vector by (rewrite ?length_column0; congruence).
  cbn [extend]. destruct (IH (c.1 ++ prd, c.2 ++ first_labels trg) Hsizes)
    as [-> Hl].
  cbn [fst snd fmap list_fmap concat]. rewrite <- !app_assoc.
  split; [done|]. rewrite !length_app, Hl, length_column0 by done. lia.
Qed.

End DecodingFacts.

(** * Facts about the parameters of the optimizer *)

Section ParamsFacts.
Import Params.

Lemma prefix_app a b :
  String.prefix a b = true ↔ ∃ r, b = a +:+ r.
Proof.
  revert b. induction a as [|x a IH]; intros b; simpl.
  { split; [intros _; by exists b|intros _; by destruct b]. }
  destruct b as [|y b]; simpl.
  { split; [done|]. by intros [r ?]. }
  destruct (Ascii.ascii_dec x y) as [->|Hne].
  - rewrite IH. split; intros [r Hr]; exists r.
    + by rewrite Hr.
    + by injection Hr.
  - split; [done|]. intros [r Hr]. by injection Hr.
Qed.

(** [occurs nd n] says that [n] is made of a string, [nd], and a string. *)
Lemma occurs_app nd n :
  occurs nd n = true ↔ ∃ l r, n = l +:+ nd +:+ r.
Proof.
  induction n as [|y n IH]; cbn [occurs].
  - rewrite orb_false_r, prefix_app. split.
    + intros [r Hr]. by exists "", r.
    + intros (l & r & Hn). destruct l; [by exists r|done].
  - rewrite orb_true_iff, prefix_app, IH. split.
    + intros [[r Hr]|(l & r & Hn)]; [by exists "", r|].
      exists (String y l), r. simpl. by rewrite Hn.
    + intros (l & r & Hn). destruct l as [|y' l]; [left; by exists r|].
      right. exists l, r. by injection Hn.
Qed.

Lemma append_assoc (a b c : string) : (a +:+ b) +:+ c = a +:+ (b +:+ c).
Proof.
  induction a as [|x a IH]; [done|].
  change (String x ((a +:+ b) +:+ c) = String x (a +:+ (b +:+ c))).
  by rewrite IH.
Qed.

Lemma filter_split {A} (P : A → Prop) `{∀ x, Decision (P x)} (l : list A) :
  filter (λ x, ¬ P x) l ++ filter P l ≡ₚ l.
Proof.
  induction l as [|x l IH]; [done|].
  destruct (decide (P x)).
  - rewrite filter_cons_False, (filter_cons_True P) by tauto.
    by rewrite <- Permutation_middle, IH.
  - rewrite filter_cons_True, (filter_cons_False P) by done.
    simpl. by rewrite IH.
Qed.

(** X22: the two groups of the optimizer. The parameters of the two
    groups are, together, the parameters of the model, each once: none is
    given to the optimizer twice and none is left out.  A parameter is in
    the group without weight decay exactly when its name contains "bias" or
    "LayerNorm.weight"; the entry "LayerNorm.bias" of [no_decay] adds
    nothing. *)
Theorem optimizer_groups_partition named_parameters weight_decay :
  ∃ decayed plain,
    optimizer_grouped_parameters named_parameters weight_decay
    = [ {| params := decayed; weight_decay := weight_decay |};
        {| params := plain; weight_decay := 0 |} ]
    ∧ decayed ++ plain ≡ₚ named_parameters.*2
    ∧ plain
      = (filter (λ np, occurs "bias" np.1 ∨ occurs "LayerNorm.weight" np.1)
           named_parameters).*2.
Proof.
  eexists _, _. split; [done|]. split.
  - rewrite <- fmap_app. by rewrite filter_split.
  - f_equal. apply list_filter_iff. intros [n p]. cbn [fst].
    unfold any_in, no_decay. cbn [existsb]. rewrite orb_false_r.
    rewrite !Is_true_true, !orb_true_iff, <- !Is_true_true.
    split; [|tauto]. intros [?|[Hb|?]]; [tauto| |tauto]. left.
    apply Is_true_true. apply Is_true_true in Hb.
    apply occurs_app in Hb as (l & r & ->). apply occurs_app.
    exists (l +:+ "LayerNorm."), r.
    by rewrite !append_assoc.
Qed.

Lemma freeze_other named_parameters requires_grad p :
  p ∉ named_parameters.*2 →
  freeze named_parameters requires_grad !! p = requires_grad !! p.
Proof.
  unfold freeze. revert requires_grad.
  induction named_parameters as [|[n' p'] l IH]; intros flags Hp; [done|].
  cbn [foldl]. rewrite IH by set_solver.
  destruct (any_in classifier_params n'); [done|].
  apply lookup_insert_ne. set_solver.
Qed.

Lemma freeze_named named_parameters requires_grad n p :
  NoDup named_parameters.*2 → (n, p) ∈ named_parameters →
  freeze named_parameters requires_grad !! p
  = if any_in classifier_params n then requires_grad !! p else Some false.
Proof.
  revert requires_grad.
  induction named_parameters as [|[n' p'] l IH]; intros flags Hnd Hin.
  { by apply elem_of_nil in Hin. }
  cbn [fmap list_fmap] in Hnd. apply NoDup_cons in Hnd as [Hp' Hnd].
  change (freeze ((n', p') :: l) flags)
    with (freeze l (if any_in classifier_params n' then flags
                    else <[p' := false]> flags)).
  apply elem_of_cons in Hin as [[= -> ->]|Hin].
  - rewrite freeze_other by done.
    destruct (any_in classifier_params n'); [done|]. apply lookup_insert_eq.
  - rewrite (IH _ Hnd Hin).
    assert (p ≠ p') as Hne.
    { intros ->. apply Hp'. apply list_elem_of_fmap. by exists (n, p'). }
    destruct (any_in classifier_params n), (any_in classifier_params n');
      try done.
    by rewrite lookup_insert_ne.
Qed.

(** X23: what freezing does. After the loop of [freeze_lm] (and of
    [print_para_names]), a parameter of the model whose name contains
    neither "qmc_" nor "tnews_" does not require a gradient; a parameter
    whose name contains one of them, anywhere in the name, keeps the flag it
    had, as does every parameter that is not of the model; and running the
    loop a second time changes nothing. *)
Theorem freeze_keeps_classifiers named_parameters requires_grad :
  NoDup named_parameters.*2 →
  (∀ n p, (n, p) ∈ named_parameters →
     (∃ l r, n = l +:+ "qmc_" +:+ r ∨ n = l +:+ "tnews_" +:+ r) →
     freeze named_parameters requires_grad !! p = requires_grad !! p)
  ∧ (∀ n p, (n, p) ∈ named_parameters →
       ¬ (∃ l r, n = l +:+ "qmc_" +:+ r ∨ n = l +:+ "tnews_" +:+ r) →
       freeze named_parameters requires_grad !! p = Some false)
  ∧ (∀ p, p ∉ named_parameters.*2 →
       freeze named_parameters requires_grad !! p = requires_grad !! p)
  ∧ freeze named_parameters (freeze named_parameters requires_grad)
    = freeze named_parameters requires_grad.
Proof.
  intros Hnd.
  assert (∀ n, any_in classifier_params n = true
            ↔ ∃ l r, n = l +:+ "qmc_" +:+ r ∨ n = l +:+ "tnews_" +:+ r)
    as Hany.
  { intros n. unfold any_in, classifier_params. cbn [existsb].
    rewrite orb_false_r, orb_true_iff, !occurs_app. naive_solver. }
  split; [|split; [|split]].
  - intros n p Hin Hex. rewrite (freeze_named _ _ n) by done.
    apply Hany in Hex. by rewrite Hex.
  - intros n p Hin Hex. rewrite (freeze_named _ _ n) by done.
    destruct (any_in classifier_params n) eqn:Hn; [|done].
    by apply Hany in Hn.
  - intros p. apply freeze_other.
  - apply map_eq. intros p.
    destruct (decide (p ∈ named_parameters.*2)) as [Hin|Hout].
    + apply list_elem_of_fmap in Hin as ([n p'] & -> & Hin). cbn [snd].
      rewrite !(freeze_named _ _ n) by done.
      by destruct (any_in classifier_params n).
    + by rewrite !freeze_other.
Qed.

End ParamsFacts.

(** * The further properties at the sample inputs *)

Section MoreAtSamples.
Import Noise Retention Driver Samples.
Import NoiseSpec RetentionSpec DriverSpec Decoding Params MoreSamples.
#[local] Existing Instance small_world.

Lemma mask_tokens_selects_exactly_witness :
  ∃ x y t r,
    sample_store !! 0%nat = Some (Long2 x)
    ∧ sample_store !! 1%nat = Some (Long2 y)
    ∧ sample_store !! 2%nat = Some (Long1 t)
    ∧ (@mask_tokens bert_tokenizer sample_store 0%nat 1%nat 2%nat
         "error" (1 # 5) always).2 !! 3%nat = Some (Long2 r)
    ∧ shape r = shape x
    ∧ ∀ i j xv, at2 x i j = Some xv →
        ∃ ti, t !! i = Some ti
              ∧ at2 r i j
                = Some (if @eligible bert_tokenizer "error" ti xv (at2 y i j)
                           && draw (1 # 5) (always i j)
                        then @mask_token_id bert_tokenizer else xv).
Proof.
  apply (@mask_tokens_selects_exactly bert_tokenizer sample_store
           0%nat 1%nat 2%nat "error" (1 # 5) always 3%nat).
  reflexivity.
Defined.

Lemma mask_tokens_nothing_to_mask_witness :
  ∃ out h',
    @mask_tokens bert_tokenizer sample_store 0%nat 1%nat 2%nat
      "all" 0 always = (Ok out, h')
    ∧ h' !! out = Some (Long2 sample_inputs).
Proof.
  apply (@mask_tokens_nothing_to_mask bert_tokenizer sample_store
           0%nat 1%nat 2%nat sample_inputs sample_targets sample_task_ids);
    [reflexivity | reflexivity | reflexivity | discriminate
    | reflexivity | reflexivity
    | right; right; reflexivity | left; reflexivity].
Defined.

Lemma mask_tokens_rate_refused_witness :
  @mask_tokens bert_tokenizer sample_store 0%nat 1%nat 2%nat
    "all" (3 # 2) always
  = (Err (RuntimeError "Expected p_in >= 0 && p_in <= 1"),
     <[fresh (dom sample_store) := Long2 sample_inputs]> sample_store).
Proof.
  apply (@mask_tokens_rate_refused bert_tokenizer sample_store
           0%nat 1%nat 2%nat sample_inputs sample_targets sample_task_ids
           "all" (3 # 2) always 0%nat 1%nat 872 1);
    [reflexivity | reflexivity | reflexivity | reflexivity | reflexivity
    | right; right; reflexivity | reflexivity | right; reflexivity
    | reflexivity | reflexivity | reflexivity].
Defined.

Lemma retention_drops_newcomer_witness :
  evicted (retain (80%Q) "d" full_pool) = Some (80%Q, "d")
  ∧ raised (retain (80%Q) "d" full_pool) = None
  ∧ best_result (after (retain (80%Q) "d" full_pool)) = best_result full_pool
  ∧ files (after (retain (80%Q) "d" full_pool)) = files full_pool ∖ {[ "d" ]}.
Proof.
  apply retention_drops_newcomer.
  - reflexivity.
  - unfold ranked. simpl. repeat constructor; discriminate.
  - simpl. repeat constructor; discriminate.
Defined.

Lemma retention_distinct_paths_witness :
  Forall (λ r, raised r = None) (run_rounds four_rounds (empty_pool ∅))
  ∧ length (run_rounds four_rounds (empty_pool ∅)) = length four_rounds
  ∧ NoDup (best_result (final_pool four_rounds (empty_pool ∅))).*2
  ∧ ∀ e, e ∈ best_result (final_pool four_rounds (empty_pool ∅)) →
         e.2 ∈ files (final_pool four_rounds (empty_pool ∅)).
Proof.
  apply retention_distinct_paths.
  apply (bool_decide_unpack _). vm_compute. exact I.
Defined.

Lemma epoch_updates_witness :
  (batch_loop (budget_args None 1) 5 7 None 0 (seq 0 5)
     {| global_step := 0; best := empty_pool ∅ |}).2
  = Ok ({| global_step := 0 + updates_per_epoch (budget_args None 1) 5;
           best := empty_pool ∅ |},
        7 <=? 0 + updates_per_epoch (budget_args None 1) 5)
  ∧ filter loop_event
      (batch_loop (budget_args None 1) 5 7 None 0 (seq 0 5)
         {| global_step := 0; best := empty_pool ∅ |}).1
    = expected (budget_args None 1) 5 0 ((λ s, (0%nat, s)) <$> seq 0 5)
  ∧ Z.of_nat
      (optimizer_steps
         (batch_loop (budget_args None 1) 5 7 None 0 (seq 0 5)
            {| global_step := 0; best := empty_pool ∅ |}).1)
    = updates_per_epoch (budget_args None 1) 5.
Proof.
  apply (epoch_updates (budget_args None 1) 5 7 0
           {| global_step := 0; best := empty_pool ∅ |});
    [reflexivity | intros e s; reflexivity | reflexivity | discriminate].
Defined.

Lemma train_update_count_witness :
  ∃ st,
    (train (budget_args None 3) 5 7 3 None ∅).2 = Ok st
    ∧ global_step st
      = Z.min 7 (3 * updates_per_epoch (budget_args None 3) 5).
Proof.
  apply train_update_count;
    [reflexivity | intros e s; reflexivity | discriminate | discriminate].
Defined.

Lemma explicit_budget_is_met_witness :
  ∃ epochs st,
    schedule (budget_args (Some 7) 1) 5 = ret (7, epochs)
    ∧ (epochs - 1) * updates_per_epoch (budget_args (Some 7) 1) 5 < 7
      ≤ epochs * updates_per_epoch (budget_args (Some 7) 1) 5
    ∧ (train (budget_args (Some 7) 1) 5 7 epochs None ∅).2 = Ok st
    ∧ global_step st = 7.
Proof.
  apply explicit_budget_is_met;
    [reflexivity | by vm_compute | by vm_compute | by vm_compute
    | intros e s; reflexivity].
Defined.

Lemma epochs_budget_whole_epochs_witness :
  schedule (budget_args None (5 # 2)) 5
  = ret (py_int (num_train_epochs (budget_args None (5 # 2))
                 * inject_Z (updates_per_epoch (budget_args None (5 # 2)) 5)),
         py_int (num_train_epochs (budget_args None (5 # 2))))
  ∧ ∃ st,
      (train (budget_args None (5 # 2)) 5
         (py_int (num_train_epochs (budget_args None (5 # 2))
                  * inject_Z (updates_per_epoch (budget_args None (5 # 2)) 5)))
         (py_int (num_train_epochs (budget_args None (5 # 2)))) None ∅).2
      = Ok st
      ∧ global_step st
        = py_int (num_train_epochs (budget_args None (5 # 2)))
          * updates_per_epoch (budget_args None (5 # 2)) 5
      ∧ global_step st
        ≤ py_int (num_train_epochs (budget_args None (5 # 2))
                  * inject_Z (updates_per_epoch (budget_args None (5 # 2)) 5)).
Proof.
  apply epochs_budget_whole_epochs;
    [reflexivity | by vm_compute | by vm_compute | reflexivity | reflexivity
    | intros e s; reflexivity | discriminate].
Defined.

Lemma evaluation_at_step_zero_witness :
  (train (sighan_args 2) 2 1 1 (Some sighan_dev) ∅).2 = Err ZeroDivisionError
  ∧ filter loop_event (train (sighan_args 2) 2 1 1 (Some sighan_dev) ∅).1
    = [Backward 0 0 0].
Proof.
  apply evaluation_at_step_zero;
    [reflexivity | lia | reflexivity | discriminate | reflexivity | left].
Defined.

Lemma print_para_names_only_loads_witness :
  Forall loads_training_data (main print_args ∅).1
  ∧ (main print_args ∅).2 = Ok tt
  ∧ head (main print_args ∅).1 = Some SaveArgs
  ∧ train_converts (main print_args ∅).1 = train_reads (main print_args ∅).1
  ∧ ∀ t, t ∈ task_names print_args ↔ t ∈ train_reads (main print_args ∅).1.
Proof.
  destruct (print_para_names_only_loads print_args ∅ 3)
    as (Hloads & Hdone & Hreturns); [reflexivity|reflexivity|].
  assert ((main print_args ∅).2 = Ok tt) as Hrun.
  { apply Hreturns.
    - by vm_compute.
    - by vm_compute.
    - split; [by vm_compute|split; [right; reflexivity|reflexivity]].
    - apply (bool_decide_unpack _). vm_compute. exact I.
    - simpl. lia.
    - intros ps features Hps Hload. vm_compute in Hps.
      injection Hps as <-. vm_compute in Hload. by injection Hload as <-.
    - by vm_compute.
    - intros m Hm. discriminate Hm.
    - intros _. split; reflexivity. }
  exact (conj Hloads (conj Hrun (Hdone Hrun))).
Defined.

Lemma evaluation_needs_training_witness :
  Forall tests (main test_only_args ∅).1.
Proof. apply evaluation_needs_training. reflexivity. Defined.

Lemma train_pool_invariant_witness :
  ∃ st,
    (train (sighan_args 1) 2 2 1 (Some sighan_dev) ∅).2 = Ok st
    ∧ (length (best_result (best st)) ≤ 3)%nat
    ∧ ranked (best_result (best st)).
Proof.
  eexists. split.
  - vm_compute. reflexivity.
  - apply (train_pool_invariant (sighan_args 1) 2 2 1 (Some sighan_dev) ∅).
    vm_compute. reflexivity.
Defined.

Lemma train_on_entry_missing_witness :
  ∃ t, task_names short_train_on_args
         !! length (train_on_list short_train_on_args) = Some t
       ∧ (main short_train_on_args ∅).2 = Err (KeyError t)
       ∧ Forall loads_training_data (main short_train_on_args ∅).1
       ∧ train_reads (main short_train_on_args ∅).1
         = take (length (train_on_list short_train_on_args))
             (task_names short_train_on_args)
       ∧ train_converts (main short_train_on_args ∅).1
         = take (length (train_on_list short_train_on_args))
             (task_names short_train_on_args).
Proof.
  apply train_on_entry_missing.
  - reflexivity.
  - discriminate.
  - split; [by vm_compute|split; [right; reflexivity|reflexivity]].
  - apply (bool_decide_unpack _). vm_compute. exact I.
  - apply (bool_decide_unpack _). vm_compute. exact I.
  - simpl. lia.
Defined.

Lemma csc_decode_drops_padding_witness :
  all_predictions one_row_collected
  = all_predictions nothing_collected
    ++ zip_with (λ p m, @decode bert_tokenizer small_vocabulary (attended p m))
         padded_prediction padded_mask
  ∧ length (all_inputs one_row_collected)
    = (length (all_inputs nothing_collected) + length padded_prediction)%nat
  ∧ length (all_labels one_row_collected)
    = (length (all_labels nothing_collected) + length padded_prediction)%nat
  ∧ length (all_predictions one_row_collected)
    = (length (all_predictions nothing_collected)
       + length padded_prediction)%nat.
Proof.
  apply (@csc_decode_drops_padding bert_tokenizer small_vocabulary
           padded_row padded_row padded_prediction padded_mask);
    [left | reflexivity | reflexivity | reflexivity].
Defined.

Lemma seq_decode_batch_of_one_witness :
  seq_decode seq_batches_with_single no_lists
  = Failed (TypeError "'int' object is not iterable").
Proof.
  apply seq_decode_batch_of_one.
  - repeat constructor; discriminate.
  - right. left. reflexivity.
Defined.

Lemma seq_decode_collects_witness :
  seq_decode seq_batches_of_two no_lists
  = Done (no_lists.1 ++ concat seq_batches_of_two.*1,
          no_lists.2 ++ concat (first_labels <$> seq_batches_of_two.*2))
  ∧ length (concat seq_batches_of_two.*1)
    = length (concat (first_labels <$> seq_batches_of_two.*2)).
Proof.
  apply seq_decode_collects; repeat constructor; discriminate.
Defined.

Lemma freeze_keeps_classifiers_witness :
  (∀ n p, (n, p) ∈ sample_parameters →
     (∃ l r, n = l +:+ "qmc_" +:+ r ∨ n = l +:+ "tnews_" +:+ r) →
     freeze sample_parameters all_trainable !! p = all_trainable !! p)
  ∧ (∀ n p, (n, p) ∈ sample_parameters →
       ¬ (∃ l r, n = l +:+ "qmc_" +:+ r ∨ n = l +:+ "tnews_" +:+ r) →
       freeze sample_parameters all_trainable !! p = Some false)
  ∧ (∀ p, p ∉ sample_parameters.*2 →
       freeze sample_parameters all_trainable !! p = all_trainable !! p)
  ∧ freeze sample_parameters (freeze sample_parameters all_trainable)
    = freeze sample_parameters all_trainable.
Proof.
  apply freeze_keeps_classifiers.
  apply (bool_decide_unpack _). vm_compute. exact I.
Defined.

End MoreAtSamples.
